(** * Kvazar: the per-guild playback engine

    A shallow embedding of [internal/media/track.go] and
    [internal/bot/player.go], and the properties of the playback engine
    proved over it.

    Conventions of the embedding.
    - A Go [string] is a [string] (a sequence of bytes), an [int] or a
      [time.Duration] is a [Z], a nilable pointer is an [option].
    - Every critical section of [Player.mu] is one atomic step.  The
      goroutines running [playLoop] are kept in the world next to the player,
      each with the program point it has reached.
    - A [context.CancelFunc] is the identity of its context; calling it adds
      that identity to the set of cancelled contexts.  A [*time.Timer] is the
      identity of the timer; the world keeps the set of pending timers.
    - Results that come from outside the engine (the voice join, the decode
      subprocess, the encoder, the scheduler's pick among ready [select]
      cases) are read from an environment value given to the step. *)

From Stdlib Require Import ZArith Lia Bool Ascii String SpecFloat.
From stdpp Require Import base option list gmap strings sorting.

Local Open Scope Z_scope.

(* ===================================================================== *)
(** ** Formatting with [fmt.Sprintf] *)
(* ===================================================================== *)

Module Fmt.

Definition digitChar (d : Z) : Ascii.ascii :=
  Ascii.ascii_of_N (48 + Z.to_N d).

Fixpoint decimalAux (fuel : nat) (n : Z) (acc : string) : string :=
  match fuel with
  | O => acc
  | S f =>
      let acc' := String (digitChar (n mod 10)) acc in
      if n <? 10 then acc' else decimalAux f (n / 10) acc'
  end.

(** The verb [%d]: the decimal digits, after a minus sign for a negative
    number. *)
Definition fmtD (n : Z) : string :=
  if n <? 0
  then String "-"%char (decimalAux (S (Z.to_nat (Z.log2 (- n)))) (- n) "")
  else decimalAux (S (Z.to_nat (Z.log2 n))) n "".

(** The verb [%02d]: [%d] padded with zeros on the left to a width of two;
    only a single digit is shorter than that. *)
Definition fmt02 (n : Z) : string :=
  if (0 <=? n) && (n <? 10) then String "0"%char (fmtD n) else fmtD n.

End Fmt.

(* ===================================================================== *)
(** ** The arithmetic of [float64] *)
(* ===================================================================== *)

(** A finite binary64 number is an integer multiple of 2^-1074, its smallest
    positive value; it is given here by that integer.  An operation returns
    the exact result rounded to 53 significant bits, to nearest, ties to
    even.  Overflow does not arise for the values [Duration.Seconds]
    meets. *)
Module Float64.

Definition scale : Z := 2 ^ 1074.

(** The integer nearest to [n/d], for [0 < d]; of two equally near, the
    even one. *)
Definition roundHalfEven (n d : Z) : Z :=
  let q := n / d in
  let r := n mod d in
  if 2 * r <? d then q
  else if d <? 2 * r then q + 1
  else if Z.even q then q else q + 1.

(** [n/d] units, [0 <= n], rounded to a binary64 value: below 2^52 units the
    values are one unit apart, from 2^(52+e) units on they are 2^e apart. *)
Definition roundPos (n d : Z) : Z :=
  let q := n / d in
  if q <? 2 ^ 52 then roundHalfEven n d
  else let e := Z.log2 q - 52 in roundHalfEven n (d * 2 ^ e) * 2 ^ e.

Definition round (n d : Z) : Z := Z.sgn n * roundPos (Z.abs n) d.

(** [float64(z)] for an integer [z]. *)
Definition ofInt (z : Z) : Z := round (z * scale) 1.

(** [a + b] and [a / b]. *)
Definition add (a b : Z) : Z := round (a + b) 1.
Definition div (a b : Z) : Z := round (Z.sgn b * a * scale) (Z.abs b).

(** [int(a)]: the fraction is dropped. *)
Definition toInt (a : Z) : Z := Z.quot a scale.

(** The values of the format: at most 53 significant bits. *)
Definition representable (y : Z) : Prop :=
  exists m e, 0 <= e /\ 0 <= m < 2 ^ 53 /\ y = m * 2 ^ e.

End Float64.

(* ===================================================================== *)
(** ** Package [media] *)
(* ===================================================================== *)

Module Media.

(** [type Source string] with its three constants. *)
Definition Source := string.
Definition SourceYouTube : Source := "YouTube"%string.
Definition SourceSoundCloud : Source := "SoundCloud"%string.
Definition SourceUnknown : Source := "Unknown"%string.

(** [type Track struct].  [Duration] is a [time.Duration], a signed count of
    nanoseconds; [QueuedAt] is kept as a count of nanoseconds too. *)
Record Track := mkTrack {
  ID : string;
  Title : string;
  Author : string;
  WebURL : string;
  StreamURL : string;
  Thumbnail : string;
  Duration : Z;
  TrackSource : Source;
  RequestedBy : string;
  RequestChannelID : string;
  HTTPHeaders : gmap string string;
  QueuedAt : Z
}.

Definition Second : Z := 1000000000.

(** [Duration.Seconds] of package [time]:
    [sec := d / Second; nsec := d % Second;
     return float64(sec) + float64(nsec)/1e9]. *)
Definition Seconds (d : Z) : Z :=
  let sec := Z.quot d Second in
  let nsec := Z.rem d Second in
  Float64.add (Float64.ofInt sec)
              (Float64.div (Float64.ofInt nsec) (Float64.ofInt 1000000000)).

(** [HumanDuration]. *)
Definition HumanDuration (t : Track) : string :=
  if Duration t =? 0 then "live"%string
  else
    let seconds := Float64.toInt (Seconds (Duration t)) in
    let hours := Z.quot seconds 3600 in
    let minutes := Z.quot (Z.rem seconds 3600) 60 in
    let secs := Z.rem seconds 60 in
    if 0 <? hours
    then (Fmt.fmtD hours +:+ ":" +:+ Fmt.fmt02 minutes +:+ ":"
            +:+ Fmt.fmt02 secs)%string
    else (Fmt.fmt02 minutes +:+ ":" +:+ Fmt.fmt02 secs)%string.

End Media.

(* ===================================================================== *)
(** ** Package [bot]: the player *)
(* ===================================================================== *)

Module Bot.
Import Media.

Definition pcmFrameSize : Z := 960.
Definition pcmChannelCount : Z := 2.
Definition sampleRate : Z := 48000.
Definition opusBitrate : Z := 128000.
Definition opusFrameCapacity : Z := 4096.
(** [90 * time.Second], in nanoseconds. *)
Definition disconnectDelay : Z := 90 * 1000000000.

(** Identities of contexts and of timers. *)
Definition Ctx := nat.
Definition Timer := nat.

(** [type Player struct], without [bot], [guild] and [mu].  [pauseChan] is
    the channel the field points to, given by the values it buffers (it is
    made with capacity 1); [voice] is the connection's [ChannelID]. *)
Record Player := mkPlayer {
  queue : list Track;
  current : option Track;
  loop : bool;
  playing : bool;
  paused : bool;
  skipRequested : bool;
  cancelPlayback : option Ctx;
  pauseChan : option (list bool);
  voice : option string;
  disconnectTimer : option Timer
}.

Definition set_queue (v : list Track) (p : Player) : Player :=
  mkPlayer v (current p) (loop p) (playing p) (paused p) (skipRequested p)
           (cancelPlayback p) (pauseChan p) (voice p) (disconnectTimer p).
Definition set_current (v : option Track) (p : Player) : Player :=
  mkPlayer (queue p) v (loop p) (playing p) (paused p) (skipRequested p)
           (cancelPlayback p) (pauseChan p) (voice p) (disconnectTimer p).
Definition set_loop (v : bool) (p : Player) : Player :=
  mkPlayer (queue p) (current p) v (playing p) (paused p) (skipRequested p)
           (cancelPlayback p) (pauseChan p) (voice p) (disconnectTimer p).
Definition set_playing (v : bool) (p : Player) : Player :=
  mkPlayer (queue p) (current p) (loop p) v (paused p) (skipRequested p)
           (cancelPlayback p) (pauseChan p) (voice p) (disconnectTimer p).
Definition set_paused (v : bool) (p : Player) : Player :=
  mkPlayer (queue p) (current p) (loop p) (playing p) v (skipRequested p)
           (cancelPlayback p) (pauseChan p) (voice p) (disconnectTimer p).
Definition set_skipRequested (v : bool) (p : Player) : Player :=
  mkPlayer (queue p) (current p) (loop p) (playing p) (paused p) v
           (cancelPlayback p) (pauseChan p) (voice p) (disconnectTimer p).
Definition set_cancelPlayback (v : option Ctx) (p : Player) : Player :=
  mkPlayer (queue p) (current p) (loop p) (playing p) (paused p)
           (skipRequested p) v (pauseChan p) (voice p) (disconnectTimer p).
Definition set_pauseChan (v : option (list bool)) (p : Player) : Player :=
  mkPlayer (queue p) (current p) (loop p) (playing p) (paused p)
           (skipRequested p) (cancelPlayback p) v (voice p) (disconnectTimer p).
Definition set_voice (v : option string) (p : Player) : Player :=
  mkPlayer (queue p) (current p) (loop p) (playing p) (paused p)
           (skipRequested p) (cancelPlayback p) (pauseChan p) v
           (disconnectTimer p).
Definition set_disconnectTimer (v : option Timer) (p : Player) : Player :=
  mkPlayer (queue p) (current p) (loop p) (playing p) (paused p)
           (skipRequested p) (cancelPlayback p) (pauseChan p) (voice p) v.

(** [NewPlayer]: every field at its zero value. *)
Definition NewPlayer : Player :=
  mkPlayer [] None false false false false None None None None.

(** A Go [error] as far as the engine looks at it: [context.Canceled], an
    error of some other origin, or an error wrapped by [fmt.Errorf] with
    [%w].  [errors.Is(err, context.Canceled)] walks the wrapping chain. *)
Inductive GoError :=
| ErrCanceled
| ErrOther (msg : string)
| ErrWrap (prefix : string) (inner : GoError).

Fixpoint isCanceled (e : GoError) : bool :=
  match e with
  | ErrCanceled => true
  | ErrOther _ => false
  | ErrWrap _ inner => isCanceled inner
  end.

(** The program points of one [playLoop] goroutine.  Each constructor names
    the lines of [player.go] that run next. *)
Inductive Task :=
| TaskNext                         (* 176: the call of nextTrack *)
| TaskIdle                         (* 178-183: nothing left, going idle *)
| TaskArm (t : Track)             (* 186-194: announce, install the handle *)
| TaskSetup (c : Ctx) (t : Track) (* 237-284: streamTrack before its loop *)
| TaskCheck (c : Ctx)             (* 287: ctx.Err() *)
| TaskFlags (c : Ctx)             (* 292-295: read pauseChan and paused *)
| TaskSelect (c : Ctx)            (* 298-308: the select of a paused loop *)
| TaskRead (c : Ctx)              (* 311-325: ReadFull, decode, Encode *)
| TaskSend (c : Ctx) (packet : list Z)  (* 327-331: the select on OpusSend *)
| TaskClear (err : option GoError).     (* 198-210: streamTrack returned *)

(** What the engine does to its collaborators. *)
Inductive Output :=
| OutAnnounce (t : Track) (looping : bool)
| OutEncoder (rate channels bitrate : Z)
| OutFFMpeg (args : list string)
| OutSpeaking (on : bool)
| OutFrame (packet : list Z)
| OutKillReap
| OutLog (e : GoError)
| OutDisconnect
| OutRelease.

(** The player with what surrounds it: the cancelled contexts, the pending
    timers, the number of timer functions that have been started and have
    not run yet (each waits for [mu] in a goroutine of its own), the next
    unused identity, the [playLoop] goroutines, a [Pause] call parked in its
    channel send (it holds [mu]), the bytes the running decode subprocess
    still has to write, and the outputs so far (latest first). *)
Record World := mkWorld {
  pl : Player;
  canceled : gset nat;
  timers : gset nat;
  fired : nat;
  fresh : nat;
  tasks : list Task;
  parked : option bool;
  stdout : list Z;
  out : list Output
}.

Definition set_pl (v : Player) (w : World) : World :=
  mkWorld v (canceled w) (timers w) (fired w) (fresh w) (tasks w) (parked w)
          (stdout w) (out w).
Definition upd_pl (f : Player -> Player) (w : World) : World :=
  set_pl (f (pl w)) w.
Definition set_canceled (v : gset nat) (w : World) : World :=
  mkWorld (pl w) v (timers w) (fired w) (fresh w) (tasks w) (parked w) (stdout w)
          (out w).
Definition set_timers (v : gset nat) (w : World) : World :=
  mkWorld (pl w) (canceled w) v (fired w) (fresh w) (tasks w) (parked w) (stdout w)
          (out w).
Definition set_fired (v : nat) (w : World) : World :=
  mkWorld (pl w) (canceled w) (timers w) v (fresh w) (tasks w) (parked w)
          (stdout w) (out w).
Definition set_fresh (v : nat) (w : World) : World :=
  mkWorld (pl w) (canceled w) (timers w) (fired w) v (tasks w) (parked w) (stdout w)
          (out w).
Definition set_tasks (v : list Task) (w : World) : World :=
  mkWorld (pl w) (canceled w) (timers w) (fired w) (fresh w) v (parked w) (stdout w)
          (out w).
Definition set_parked (v : option bool) (w : World) : World :=
  mkWorld (pl w) (canceled w) (timers w) (fired w) (fresh w) (tasks w) v (stdout w)
          (out w).
Definition set_stdout (v : list Z) (w : World) : World :=
  mkWorld (pl w) (canceled w) (timers w) (fired w) (fresh w) (tasks w) (parked w) v
          (out w).
Definition emit (o : Output) (w : World) : World :=
  mkWorld (pl w) (canceled w) (timers w) (fired w) (fresh w) (tasks w) (parked w)
          (stdout w) (o :: out w).

Definition NewWorld : World :=
  mkWorld NewPlayer ∅ ∅ 0%nat 0%nat [] None [] [].

(** Calling a [context.CancelFunc]; a second call changes nothing. *)
Definition cancel (c : Ctx) (w : World) : World :=
  set_canceled (canceled w ∪ {[c]}) w.

Definition cancelOpt (h : option Ctx) (w : World) : World :=
  match h with
  | Some c => cancel c w
  | None => w
  end.

(** [Stop] of a [time.Timer]: a pending timer is no longer pending.  A
    timer that has fired is not affected: its function runs all the same
    (the source does not look at the result of [Stop]). *)
Definition stopTimer (tm : Timer) (w : World) : World :=
  set_timers (timers w ∖ {[tm]}) w.

(** [cancelDisconnectTimerLocked]. *)
Definition cancelDisconnectTimerLocked (w : World) : World :=
  match disconnectTimer (pl w) with
  | Some tm => upd_pl (set_disconnectTimer None) (stopTimer tm w)
  | None => w
  end.

(** [scheduleDisconnectLocked]: stop the timer the field holds, then
    [time.AfterFunc] makes a new pending timer. *)
Definition scheduleDisconnectLocked (w : World) : World :=
  let w1 := match disconnectTimer (pl w) with
            | Some tm => stopTimer tm w
            | None => w
            end in
  let tm := fresh w1 in
  upd_pl (set_disconnectTimer (Some tm))
         (set_timers (timers w1 ∪ {[tm]}) (set_fresh (S tm) w1)).

(** The pending timer [tm] fires: the runtime starts the function given to
    [time.AfterFunc] in a goroutine of its own, where it first has to take
    [mu]. *)
Definition timerFires (tm : Timer) (w : World) : World :=
  set_fired (S (fired w)) (set_timers (timers w ∖ {[tm]}) w).

(** The function given to [time.AfterFunc], once it has [mu]. *)
Definition disconnectFired (w : World) : World :=
  let vc := voice (pl w) in
  let w1 := upd_pl (fun p => set_disconnectTimer None (set_voice None p))
                   (set_fired (pred (fired w)) w) in
  let w2 := if vc is Some _ then emit OutDisconnect w1 else w1 in
  emit OutRelease w2.

(** [EnsureConnected]; [joined] is the result of [ChannelVoiceJoin]. *)
Definition EnsureConnected (channelID : string) (joined : option GoError)
    (w : World) : option GoError * World :=
  let vc := voice (pl w) in
  if bool_decide (vc = Some channelID) then (None, w)
  else
    let w1 := if vc is Some _ then emit OutDisconnect w else w in
    match joined with
    | Some e => (Some (ErrWrap "voice join" e), w1)
    | None => (None, upd_pl (set_voice (Some channelID)) w1)
    end.

(** [Enqueue]; [go p.playLoop()] adds a goroutine at the top of its loop. *)
Definition Enqueue (track : Track) (w : World) : Z * World :=
  let w1 := upd_pl (fun p => set_queue (queue p ++ [track]) p) w in
  let position := Z.of_nat (length (queue (pl w1))) in
  let w2 := cancelDisconnectTimerLocked w1 in
  let w3 := if negb (playing (pl w2))
            then set_tasks (tasks w2 ++ [TaskNext])
                           (upd_pl (set_playing true) w2)
            else w2 in
  (position, w3).

(** [Skip]. *)
Definition Skip (w : World) : bool * World :=
  let cancelf := cancelPlayback (pl w) in
  let active := bool_decide (current (pl w) ≠ None) in
  let w1 := match cancelf with
            | Some c =>
                cancel c (upd_pl (fun p => set_loop false
                                             (set_skipRequested true p)) w)
            | None => w
            end in
  (active, w1).

(** [Pause].  The send on [pauseChan] goes through when the buffer has room;
    otherwise the call stays in the send, holding [mu]: no result yet, and
    the value waits in [parked]. *)
Definition Pause (w : World) : option bool * World :=
  if negb (playing (pl w)) || bool_decide (current (pl w) = None)
  then (Some false, w)
  else
    let w1 := upd_pl (fun p => set_paused (negb (paused p)) p) w in
    let v := paused (pl w1) in
    match pauseChan (pl w1) with
    | None => (Some v, w1)
    | Some buf =>
        if (length buf <? 1)%nat
        then (Some v, upd_pl (set_pauseChan (Some (buf ++ [v]))) w1)
        else (None, set_parked (Some v) w1)
    end.

(** [Stop]. *)
Definition Stop (w : World) : bool * World :=
  let cancelf := cancelPlayback (pl w) in
  let hadContent :=
    bool_decide (current (pl w) ≠ None) || (0 <? length (queue (pl w)))%nat in
  let w1 := upd_pl (fun p => set_paused false
                               (set_loop false
                                 (set_current None (set_queue [] p)))) w in
  let w2 := match cancelf with
            | Some c => cancel c (upd_pl (set_skipRequested true) w1)
            | None => w1
            end in
  (hadContent, w2).

(** [ToggleLoop]; [explicit] is the [*bool] argument. *)
Definition ToggleLoop (explicit : option bool) (w : World) : bool * World :=
  let w1 :=
    match explicit with
    | Some e =>
        upd_pl (fun p => set_loop (e && bool_decide (current p ≠ None)) p) w
    | None =>
        if bool_decide (current (pl w) ≠ None)
        then upd_pl (fun p => set_loop (negb (loop p)) p) w
        else w
    end in
  (loop (pl w1), w1).

(** [Shutdown]. *)
Definition Shutdown (w : World) : World :=
  let w1 := cancelOpt (cancelPlayback (pl w)) w in
  let vc := voice (pl w1) in
  let w2 := upd_pl (set_voice None) w1 in
  if vc is Some _ then emit OutDisconnect w2 else w2.

(** [nextTrack]; the second result is the constant [false] of the source. *)
Definition nextTrack (w : World) : option Track * bool * World :=
  let w1 := upd_pl (set_skipRequested false) w in
  let w2 := match loop (pl w1), current (pl w1) with
            | true, Some c => upd_pl (fun p => set_queue (queue p ++ [c]) p) w1
            | _, _ => w1
            end in
  match queue (pl w2) with
  | [] => (None, false, upd_pl (set_current None) w2)
  | track :: rest =>
      (Some track, false,
       upd_pl (fun p => set_current (Some track) (set_queue rest p)) w2)
  end.

(** [headersToLines], for the order [kvs] in which [range] happens to visit
    the map.  [sort.Strings] orders by the byte-wise order of strings,
    [String.le]. *)
Definition headerLine (kv : string * string) : string :=
  (kv.1 +:+ ": " +:+ kv.2)%string.

Fixpoint joinStrings (sep : string) (l : list string) : string :=
  match l with
  | [] => ""
  | [x] => x
  | x :: rest => x +:+ sep +:+ joinStrings sep rest
  end%string.

Definition CRLF : string :=
  String (Ascii.ascii_of_nat 13) (String (Ascii.ascii_of_nat 10) EmptyString).

Definition headersToLinesIn (kvs : list (string * string)) : string :=
  if bool_decide (length kvs = 0%nat) then ""%string
  else
    let pairs := headerLine <$> kvs in
    (joinStrings CRLF (merge_sort String.le pairs) +:+ CRLF)%string.

Definition headersToLines (headers : gmap string string) : string :=
  headersToLinesIn (map_to_list headers).

(** [buildFFMpegArgs], with the header lines already serialised. *)
Definition buildFFMpegArgsWith (headerLines : string) (track : Track)
    : list string :=
  let args := ["-reconnect"; "1";
               "-reconnect_streamed"; "1";
               "-reconnect_delay_max"; "5"]%string in
  let args := if bool_decide (headerLines ≠ ""%string)
              then args ++ ["-headers"%string; headerLines]
              else args in
  args ++ ["-i"%string; StreamURL track;
           "-vn"%string;
           "-af"%string; "loudnorm=I=-16:LRA=11:TP=-1.5"%string;
           "-f"%string; "s16le"%string;
           "-ac"%string; Fmt.fmtD pcmChannelCount;
           "-ar"%string; Fmt.fmtD sampleRate;
           "pipe:1"%string].

Definition buildFFMpegArgs (track : Track) : list string :=
  buildFFMpegArgsWith (headersToLines (HTTPHeaders track)) track.

(** The two buffers of [streamTrack]: [pcmBuf] holds
    [pcmFrameSize*pcmChannelCount] samples and [byteBuf] twice as many
    bytes. *)
Definition pcmBufLen : Z := pcmFrameSize * pcmChannelCount.
Definition byteBufLen : Z := pcmBufLen * 2.

(** [int16(binary.LittleEndian.Uint16(b))] for the two bytes [lo], [hi]. *)
Definition leInt16 (lo hi : Z) : Z :=
  let u := Z.lor lo (Z.shiftl hi 8) in
  if u <? 32768 then u else u - 65536.

Fixpoint decodePCM (bytes : list Z) : list Z :=
  match bytes with
  | lo :: hi :: rest => leInt16 lo hi :: decodePCM rest
  | _ => []
  end.

(** [io.ReadFull(reader, byteBuf)] on the bytes the subprocess still writes
    before it closes its end: the frame and the rest, or which of the two
    end-of-stream errors. *)
Inductive ReadFull_result :=
| ReadFrame (bytes rest : list Z)
| ReadEOF
| ReadUnexpectedEOF.

Definition ReadFull (avail : list Z) : ReadFull_result :=
  let n := Z.to_nat byteBufLen in
  if (n <=? length avail)%nat then ReadFrame (take n avail) (drop n avail)
  else if bool_decide (avail = []) then ReadEOF
  else ReadUnexpectedEOF.

(** Which ready case a [select] runs. *)
Inductive SelectCase := CaseDone | CaseRecv | CaseTimeout | CaseSend.

(** Why [cmd.Start] fails.  [NotFound]: the program was not found when
    [exec.CommandContext] looked it up; [Start] returns that error before it
    looks at the context.  [NotStarted]: the process could not be started,
    which [Start] tries only when the context is not cancelled. *)
Inductive StartFailure :=
| NotFound (e : GoError)
| NotStarted (e : GoError).

(** What the surroundings answer to one step of a goroutine. *)
Record Env := mkEnv {
  encoderErr : option GoError;      (* gopus.NewEncoder *)
  pipeErr : option GoError;         (* cmd.StdoutPipe *)
  startErr : option StartFailure;   (* cmd.Start *)
  procOutput : list Z;              (* the subprocess's whole output *)
  readErr : option GoError;         (* a read error that is not an EOF *)
  encode : list Z -> GoError + list Z;  (* opusEncoder.Encode *)
  pick : SelectCase
}.

(** The return of [streamTrack] once ffmpeg runs: the deferred calls, then
    back in [playLoop]. *)
Definition finish (err : option GoError) (w : World) : Task * World :=
  (TaskClear err, emit OutKillReap (emit (OutSpeaking false) w)).

(** One step of a [playLoop] goroutine at program point [t].  [None] where
    the goroutine cannot move: [mu] is held, or the picked [select] case is
    not ready.  The task in the result is [None] when the goroutine has
    returned. *)
Definition taskStep (env : Env) (t : Task) (w : World)
    : option (option Task * World) :=
  let locked := bool_decide (parked w ≠ None) in
  match t with
  | TaskNext =>
      if locked then None else
      match nextTrack w with
      | (Some track, _, w1) => Some (Some (TaskArm track), w1)
      | (None, _, w1) => Some (Some TaskIdle, w1)
      end
  | TaskIdle =>
      if locked then None else
      Some (None,
            scheduleDisconnectLocked
              (upd_pl (fun p => set_paused false (set_playing false p)) w))
  | TaskArm track =>
      if locked then None else
      let w1 := emit (OutAnnounce track (loop (pl w))) w in
      let c := fresh w1 in
      Some (Some (TaskSetup c track),
            upd_pl (fun p => set_pauseChan (Some [])
                               (set_cancelPlayback (Some c) p))
                   (set_fresh (S c) w1))
  | TaskSetup c track =>
      if locked then None else
      match voice (pl w) with
      | None =>
          Some (Some (TaskClear
                        (Some (ErrOther "voice connection not established"))),
                w)
      | Some _ =>
          match encoderErr env with
          | Some e =>
              Some (Some (TaskClear (Some (ErrWrap "opus encoder" e))), w)
          | None =>
              let w1 :=
                emit (OutEncoder sampleRate pcmChannelCount opusBitrate) w in
              let cmdArgs := buildFFMpegArgs track in
              match pipeErr env with
              | Some e =>
                  Some (Some (TaskClear (Some (ErrWrap "ffmpeg stdout" e))),
                        w1)
              | None =>
                  match startErr env, bool_decide (c ∈ canceled w1) with
                  | Some (NotFound e), _ =>
                      Some (Some (TaskClear
                                    (Some (ErrWrap "ffmpeg start" e))),
                            w1)
                  | _, true =>
                      Some (Some (TaskClear
                                    (Some (ErrWrap "ffmpeg start"
                                                   ErrCanceled))),
                            w1)
                  | Some (NotStarted e), false =>
                      Some (Some (TaskClear
                                    (Some (ErrWrap "ffmpeg start" e))),
                            w1)
                  | None, false =>
                      Some (Some (TaskCheck c),
                            emit (OutSpeaking true)
                                 (set_stdout (procOutput env)
                                             (emit (OutFFMpeg cmdArgs) w1)))
                  end
              end
          end
      end
  | TaskCheck c =>
      if bool_decide (c ∈ canceled w)
      then let '(t', w') := finish (Some ErrCanceled) w in Some (Some t', w')
      else Some (Some (TaskFlags c), w)
  | TaskFlags c =>
      if locked then None else
      if paused (pl w) then Some (Some (TaskSelect c), w)
      else Some (Some (TaskRead c), w)
  | TaskSelect c =>
      match pick env with
      | CaseDone =>
          if bool_decide (c ∈ canceled w)
          then let '(t', w') := finish (Some ErrCanceled) w in
               Some (Some t', w')
          else None
      | CaseRecv =>
          match pauseChan (pl w) with
          | Some (v :: rest) =>
              let buf := match parked w with
                         | Some pv => rest ++ [pv]
                         | None => rest
                         end in
              let w1 := set_parked None
                          (upd_pl (set_pauseChan (Some buf)) w) in
              if negb v then Some (Some (TaskCheck c), w1)
              else Some (Some (TaskRead c), w1)
          | _ => None
          end
      | CaseTimeout => Some (Some (TaskCheck c), w)
      | CaseSend => None
      end
  | TaskRead c =>
      match readErr env with
      | Some e =>
          let '(t', w') := finish (Some (ErrWrap "pcm read" e)) w in
          Some (Some t', w')
      | None =>
          match ReadFull (stdout w) with
          | ReadEOF | ReadUnexpectedEOF =>
              let '(t', w') := finish None (set_stdout [] w) in
              Some (Some t', w')
          | ReadFrame bytes rest =>
              let w1 := set_stdout rest w in
              match encode env (decodePCM bytes) with
              | inl e =>
                  let '(t', w') := finish (Some (ErrWrap "opus encode" e)) w1 in
                  Some (Some t', w')
              | inr packet => Some (Some (TaskSend c packet), w1)
              end
          end
      end
  | TaskSend c packet =>
      match pick env with
      | CaseDone =>
          if bool_decide (c ∈ canceled w)
          then let '(t', w') := finish (Some ErrCanceled) w in
               Some (Some t', w')
          else None
      | CaseSend => Some (Some (TaskCheck c), emit (OutFrame packet) w)
      | _ => None
      end
  | TaskClear err =>
      if locked then None else
      let w1 := upd_pl (fun p => set_pauseChan None
                                   (set_cancelPlayback None p)) w in
      match err with
      | Some e =>
          if isCanceled e then Some (Some TaskNext, w1)
          else Some (Some TaskNext, emit (OutLog e) w1)
      | None => Some (Some TaskNext, w1)
      end
  end.

(** What can happen to a player: a call of its control surface, the firing
    of a pending timer, a step of the goroutine at index [i], or the run of
    a timer function that has been started. *)
Inductive Event :=
| EvEnsureConnected (channelID : string) (joined : option GoError)
| EvEnqueue (track : Track)
| EvSkip
| EvPause
| EvStop
| EvToggleLoop (explicit : option bool)
| EvShutdown
| EvTimer (tm : Timer)
| EvTask (i : nat) (env : Env)
| EvCallback.

(** One event.  The control surface and the timer function need [mu]: with
    a [Pause] parked in its send they cannot start.  The firing of a timer
    needs nothing but the timer pending. *)
Definition step (e : Event) (w : World) : option World :=
  let locked := bool_decide (parked w ≠ None) in
  match e with
  | EvTask i env =>
      t ← tasks w !! i;
      '(t', w') ← taskStep env t w;
      Some (match t' with
            | Some t1 => set_tasks (<[i := t1]> (tasks w')) w'
            | None => set_tasks (delete i (tasks w')) w'
            end)
  | EvTimer tm =>
      if bool_decide (tm ∈ timers w) then Some (timerFires tm w) else None
  | _ =>
      if locked then None else
      match e with
      | EvEnsureConnected ch joined => Some (EnsureConnected ch joined w).2
      | EvEnqueue track => Some (Enqueue track w).2
      | EvSkip => Some (Skip w).2
      | EvPause => Some (Pause w).2
      | EvStop => Some (Stop w).2
      | EvToggleLoop explicit => Some (ToggleLoop explicit w).2
      | EvShutdown => Some (Shutdown w)
      | EvCallback =>
          if (0 <? fired w)%nat then Some (disconnectFired w) else None
      | EvTimer _ | EvTask _ _ => None
      end
  end.

Fixpoint run (es : list Event) (w : World) : option World :=
  match es with
  | [] => Some w
  | e :: rest => w' ← step e w; run rest w'
  end.

(** The worlds a new player can get to. *)
Definition reachable (w : World) : Prop :=
  ∃ es, run es NewWorld = Some w.

(** A [discordgo.VoiceState], as far as [locateVoiceChannel] reads it. *)
Record VoiceState := mkVoiceState {
  UserID : string;
  ChannelID : string
}.

(** The loop of [locateVoiceChannel] over [guild.VoiceStates]. *)
Fixpoint findVoiceState (states : list VoiceState) (userID : string)
    : option string :=
  match states with
  | [] => None
  | vs :: rest =>
      if bool_decide (UserID vs = userID) then Some (ChannelID vs)
      else findVoiceState rest userID
  end.

(** [locateVoiceChannel]; [stateGuild] is the answer of
    [session.State.Guild], and [apiGuild] that of [session.Guild], which is
    asked only when the first fails.  Each is the guild's voice states or
    an error. *)
Definition locateVoiceChannel
    (stateGuild apiGuild : GoError + list VoiceState)
    (guildID userID : string) : GoError + string :=
  if bool_decide (guildID = ""%string) || bool_decide (userID = ""%string)
  then inl (ErrOther "missing guild or user identifier")
  else
    let guild := match stateGuild with
                 | inr g => inr g
                 | inl _ => apiGuild
                 end in
    match guild with
    | inl err => inl (ErrWrap "guild fetch" err)
    | inr states =>
        match findVoiceState states userID with
        | Some ch => inr ch
        | None => inl (ErrOther "voice channel not found")
        end
    end.

End Bot.

(* ===================================================================== *)
(** ** Package [bot]: the registry of players and the embeds *)
(* ===================================================================== *)

Module App.
Import Fmt Media Bot.

(** A [*Player] is the identity of the player it points to. *)
Definition PlayerRef := nat.

(** [type Kvazar struct], its [players] map; [allocated] counts the players
    [NewPlayer] has made, so that a new one has an identity of its own. *)
Record Kvazar := mkKvazar {
  players : gmap string PlayerRef;
  allocated : nat
}.

(** [getPlayer]. *)
Definition getPlayer (guildID : string) (k : Kvazar) : PlayerRef * Kvazar :=
  match players k !! guildID with
  | Some player => (player, k)
  | None =>
      let player := allocated k in
      (player, mkKvazar (<[guildID := player]> (players k)) (S player))
  end.

(** [findPlayer]; [None] is the nil pointer. *)
Definition findPlayer (guildID : string) (k : Kvazar) : option PlayerRef :=
  players k !! guildID.

(** [releasePlayer]. *)
Definition releasePlayer (guildID : string) (k : Kvazar) : Kvazar :=
  mkKvazar (delete guildID (players k)) (allocated k).

(** The bullet of the embed titles, U+2022 in UTF-8. *)
Definition bullet : string :=
  String (Ascii.ascii_of_nat 226)
    (String (Ascii.ascii_of_nat 128)
       (String (Ascii.ascii_of_nat 162) EmptyString)).

(** A [discordgo.MessageEmbedField]. *)
Record EmbedField := mkField {
  FieldName : string;
  FieldValue : string;
  FieldInline : bool
}.

(** A [discordgo.MessageEmbed], without its [Timestamp], which is the time
    of the call. *)
Record MessageEmbed := mkEmbed {
  EmbedTitle : string;
  EmbedURL : string;
  EmbedDescription : string;
  EmbedColor : Z;
  EmbedThumbnail : string;
  EmbedFields : list EmbedField;
  EmbedFooter : string
}.

(** [buildQueuedEmbed]. *)
Definition buildQueuedEmbed (track : Track) (position : Z) : MessageEmbed :=
  let title := ("Queued " +:+ bullet +:+ " " +:+ Title track)%string in
  let title := if position =? 1
               then ("Up next " +:+ bullet +:+ " " +:+ Title track)%string
               else title in
  let fields := [mkField "Length" (HumanDuration track) true;
                 mkField "Source" (TrackSource track) true] in
  let fields := if bool_decide (RequestedBy track ≠ ""%string)
                then fields ++ [mkField "Requested by" (RequestedBy track)
                                        true]
                else fields in
  let fields := fields ++ [mkField "Position"
                                   (String "#"%char (fmtD position)) true] in
  mkEmbed title (WebURL track)
          "Kvazar keeps your session light and focused."
          5793266 (Thumbnail track) fields
          ("Kvazar " +:+ bullet +:+ " minimal music companion")%string.

(** [buildNowPlayingEmbed]. *)
Definition buildNowPlayingEmbed (track : Track) (looping : bool)
    : MessageEmbed :=
  let status := if looping then "Looping"%string else "Now playing"%string in
  mkEmbed (status +:+ " " +:+ bullet +:+ " " +:+ Title track)%string
          (WebURL track) ""%string 1752220 (Thumbnail track)
          [mkField "Length" (HumanDuration track) true;
           mkField "Source" (TrackSource track) true]
          ("Kvazar " +:+ bullet +:+ " stay in flow")%string.

(** [announceNowPlaying]: the channel and the embed it sends, if any. *)
Definition announceNowPlaying (track : Track) (looping : bool)
    : option (string * MessageEmbed) :=
  if bool_decide (RequestChannelID track = ""%string) then None
  else Some (RequestChannelID track, buildNowPlayingEmbed track looping).

End App.

(* ===================================================================== *)
(** ** Sample tracks and worlds *)
(* ===================================================================== *)

Module Samples.
Import Media Bot.

Definition trackA : Track :=
  mkTrack "a" "A" "" "https://example.org/a" "https://cdn.example.org/a" ""
          30000000000 SourceYouTube "u" "text" ∅ 0.

Definition trackB : Track :=
  mkTrack "b" "B" "" "https://example.org/b" "https://cdn.example.org/b" ""
          0 SourceSoundCloud "u" "text"
          (<["User-Agent" := "kvazar"]> (<["Accept" := "*/*"]> ∅))%string 0.

Definition trackC : Track :=
  mkTrack "c" "C" "" "https://example.org/c" "https://cdn.example.org/c" ""
          4000000000000 SourceUnknown "u" "text" ∅ 0.

(** A track that is nothing but its duration. *)
Definition trackOfDuration (d : Z) : Track :=
  mkTrack "" "" "" "" "" "" d SourceUnknown "" "" ∅ 0.

(** An environment in which nothing fails and every send goes through. *)
Definition envOk : Env :=
  mkEnv None None None [] None (fun _ => inr [0]) CaseSend.

(** A player joined to a voice channel, nothing enqueued yet. *)
Definition evsJoined : list Event := [EvEnsureConnected "voice" None].

(** [trackA] enqueued on the joined player and its pipeline running: the
    goroutine has passed [nextTrack], installed the handle, started ffmpeg
    and stands at the top of the frame loop. *)
Definition evsStreamingA : list Event :=
  evsJoined ++ [EvEnqueue trackA; EvTask 0 envOk; EvTask 0 envOk;
                EvTask 0 envOk].

(** [trackA] enqueued on a player that never joined a channel: the pipeline
    fails at once, the queue is exhausted and the goroutine goes idle. *)
Definition evsIdleNoVoice : list Event :=
  [EvEnqueue trackA; EvTask 0 envOk; EvTask 0 envOk; EvTask 0 envOk;
   EvTask 0 envOk; EvTask 0 envOk; EvTask 0 envOk].

(** [trackA] enqueued on the joined player and taken off the queue by
    [nextTrack]; the handle of its pipeline is not installed yet. *)
Definition evsDequeuedA : list Event :=
  evsJoined ++ [EvEnqueue trackA; EvTask 0 envOk].

(** [trackA] streaming and [loop] switched on. *)
Definition evsLoopingA : list Event :=
  evsStreamingA ++ [EvToggleLoop (Some true)].

(** [trackA] streaming, then [trackB] and [trackC] enqueued. *)
Definition evsQueued : list Event :=
  evsStreamingA ++ [EvEnqueue trackB; EvEnqueue trackC].

Definition after (es : list Event) : World := default NewWorld (run es NewWorld).

Definition wJoined : World := after evsJoined.
Definition wStreamingA : World := after evsStreamingA.
Definition wIdleNoVoice : World := after evsIdleNoVoice.
Definition wLoopingA : World := after evsLoopingA.
Definition wQueued : World := after evsQueued.
Definition wDequeuedA : World := after evsDequeuedA.

(** [trackA] dequeued and its handle installed; ffmpeg not started yet. *)
Definition evsArmedA : list Event :=
  evsDequeuedA ++ [EvTask 0 envOk].

(** [trackA] streamed to the end of ffmpeg's output; [nextTrack] has found
    the queue empty and the goroutine is about to mark the player idle. *)
Definition evsStoppedIdle : list Event :=
  evsStreamingA ++ [EvTask 0 envOk; EvTask 0 envOk; EvTask 0 envOk;
                    EvTask 0 envOk; EvTask 0 envOk].

(** The looping [trackA] at the end of its stream, back in [playLoop]. *)
Definition evsLoopEndA : list Event :=
  evsLoopingA ++ [EvTask 0 envOk; EvTask 0 envOk; EvTask 0 envOk].

(** One frame of silence and two bytes more. *)
Definition tone : list Z := replicate 3840 0 ++ [1; 2].

(** As [envOk], with an ffmpeg that writes [tone]. *)
Definition envTone : Env :=
  mkEnv None None None tone None (fun _ => inr [0]) CaseSend.

(** As [envOk], with a [select] that takes the receive from the pause
    channel, or its timeout. *)
Definition envRecv : Env :=
  mkEnv None None None [] None (fun _ => inr [0]) CaseRecv.
Definition envTimeout : Env :=
  mkEnv None None None [] None (fun _ => inr [0]) CaseTimeout.

(** [trackA] streaming from an ffmpeg that writes [tone]. *)
Definition evsToneA : list Event :=
  evsArmedA ++ [EvTask 0 envTone].

(** The same, paused, the pause channel drained. *)
Definition evsPausedA : list Event :=
  evsToneA ++ [EvPause; EvTask 0 envOk; EvTask 0 envOk; EvTask 0 envRecv;
               EvTask 0 envOk; EvTask 0 envOk].

Definition wArmedA : World := after evsArmedA.
Definition wStoppedIdle : World := after evsStoppedIdle.
Definition wLoopEndA : World := after evsLoopEndA.
Definition wToneA : World := after evsToneA.
Definition wPausedA : World := after evsPausedA.

(** [trackA] streaming, its goroutine about to read from an ffmpeg that has
    written all it had. *)
Definition evsAtRead : list Event :=
  evsStreamingA ++ [EvTask 0 envOk; EvTask 0 envOk].

(** The looping [trackA] dequeued again, the handle of the new round not
    installed yet. *)
Definition evsLoopDequeuedA : list Event :=
  evsLoopEndA ++ [EvTask 0 envOk; EvTask 0 envOk].

(** [Stop] called on [wDequeuedA]; the goroutine has then installed the
    handle and started ffmpeg. *)
Definition evsStoppedLate : list Event :=
  evsDequeuedA ++ [EvStop; EvTask 0 envOk; EvTask 0 envOk].

(** The player idle after [trackA]: the timer armed, the transport held. *)
Definition evsIdleA : list Event :=
  evsStoppedIdle ++ [EvTask 0 envOk].

(** The events after which a frame of the dequeued track has been sent:
    the handle installed, ffmpeg started with [tone] to write, one turn of
    the frame loop. *)
Definition evsPlayOn : list Event :=
  [EvTask 0 envOk; EvTask 0 envTone; EvTask 0 envOk; EvTask 0 envOk;
   EvTask 0 envOk; EvTask 0 envOk].

(** As [envOk], with reads from ffmpeg that fail. *)
Definition envBroken : Env :=
  mkEnv None None None [] (Some (ErrOther "broken pipe")) (fun _ => inr [0])
        CaseSend.

Definition wAtRead : World := after evsAtRead.
Definition wLoopDequeuedA : World := after evsLoopDequeuedA.
Definition wStoppedLate : World := after evsStoppedLate.
Definition wIdleA : World := after evsIdleA.

End Samples.

(* ===================================================================== *)
(** ** Notions used in the statements *)
(* ===================================================================== *)

Import Fmt Float64 Media Bot App Samples.

(** The idle-disconnect timer is armed: the field holds a timer and that
    timer is pending. *)
Definition armed (w : World) : bool :=
  match disconnectTimer (pl w) with
  | Some tm => bool_decide (tm ∈ timers w)
  | None => false
  end.

(** What the timer logic reads and writes. *)
Definition timerView (w : World) : option Timer * gset nat * bool :=
  (disconnectTimer (pl w), timers w, playing (pl w)).

(** A player holding a timer is not playing. *)
Definition timerInv (w : World) : Prop :=
  disconnectTimer (pl w) ≠ None → playing (pl w) = false.

Definition isIdle (t : Task) : bool :=
  match t with
  | TaskIdle => true
  | _ => false
  end.

(** What the loop logic reads and writes. *)
Definition loopView (w : World) : option Track * bool :=
  (current (pl w), loop (pl w)).

(** Nothing loops on a player without a current track. *)
Definition loopInv (w : World) : Prop :=
  current (pl w) = None → loop (pl w) = false.

Definition isNext (t : Task) : bool :=
  match t with
  | TaskNext => true
  | _ => false
  end.

(** The components of the player a control command can be seen to touch. *)
Definition controlView (w : World)
    : list Track * option Track * bool * bool * bool * option Ctx :=
  (queue (pl w), current (pl w), loop (pl w), paused (pl w), playing (pl w),
   cancelPlayback (pl w)).

(** What [playLoop] does once [streamTrack] has returned [err]. *)
Definition afterStream (err : option GoError) (w : World) : World :=
  let w1 := upd_pl (fun p => set_pauseChan None (set_cancelPlayback None p)) w in
  match err with
  | Some e => if isCanceled e then w1 else emit (OutLog e) w1
  | None => w1
  end.

(** [Pause] acts on a player with a playback goroutine and a current
    track. *)
Definition pausable (w : World) : Prop :=
  playing (pl w) = true ∧ current (pl w) ≠ None.

(** No goroutine stands in the select of a paused frame loop. *)
Definition noSelect (w : World) : Prop :=
  Forall (fun t => match t with TaskSelect _ => False | _ => True end) (tasks w).

(** A [Pause] call is parked in its send and no goroutine can take the
    value out of the channel. *)
Definition stuck (w : World) : Prop := parked w ≠ None ∧ noSelect w.

(** The world in which [streamTrack] returns: its deferred calls have run. *)
Definition streamEnd (w : World) : World :=
  emit OutKillReap (emit (OutSpeaking false) w).

(** The queue as [nextTrack] sees it once the loop re-insertion is done. *)
Definition lineup (w : World) : list Track :=
  match loop (pl w), current (pl w) with
  | true, Some c => queue (pl w) ++ [c]
  | _, _ => queue (pl w)
  end.

(** The events that write [loop]. *)
Definition writesLoop (e : Event) : bool :=
  match e with
  | EvToggleLoop _ | EvStop | EvSkip => true
  | _ => false
  end.

(** The events of a run in which nothing is stopped or set to loop. *)
Definition plain (e : Event) : bool :=
  match e with
  | EvToggleLoop _ | EvStop => false
  | _ => true
  end.

(** The tracks of the [Enqueue] calls of a run, in call order. *)
Fixpoint enqueued (es : list Event) : list Track :=
  match es with
  | [] => []
  | EvEnqueue t :: rest => t :: enqueued rest
  | _ :: rest => enqueued rest
  end.

(** The tracks announced as now playing, oldest first. *)
Fixpoint announced (o : list Output) : list Track :=
  match o with
  | [] => []
  | OutAnnounce t _ :: rest => announced rest ++ [t]
  | _ :: rest => announced rest
  end.

(** The tracks taken off the queue and not announced yet. *)
Fixpoint dequeued (ts : list Task) : list Track :=
  match ts with
  | [] => []
  | TaskArm t :: rest => t :: dequeued rest
  | _ :: rest => dequeued rest
  end.

(** A player is playing exactly when it has one playback goroutine, and has
    none otherwise. *)
Definition taskInv (w : World) : Prop :=
  (playing (pl w) = false ∧ tasks w = []) ∨
  (playing (pl w) = true ∧ ∃ t, tasks w = [t]).


(** A colon occurs in the string. *)
Fixpoint hasColon (s : string) : bool :=
  match s with
  | EmptyString => false
  | String c rest => Ascii.eqb c ":" || hasColon rest
  end.

(** [Duration.Seconds] over the specification of IEEE 754 arithmetic of the
    standard library, at the precision of binary64. *)
Definition specSeconds (d : Z) : spec_float :=
  let sec := Z.quot d Second in
  let nsec := Z.rem d Second in
  let float64 z := binary_normalize 53 1024 z 0 false in
  SFadd 53 1024 (float64 sec)
        (SFdiv 53 1024 (float64 nsec) (float64 1000000000)).

(** A finite [spec_float] in units of 2^-1074. *)
Definition unitsOf (x : spec_float) : option Z :=
  match x with
  | S754_zero _ => Some 0
  | S754_finite s m e =>
      Some ((if s then -1 else 1) * Z.pos m * 2 ^ (e + 1074))
  | _ => None
  end.

(** [Seconds] gives the value of [specSeconds] at [d]. *)
Definition agreesAt (d : Z) : bool :=
  match unitsOf (specSeconds d) with
  | Some v => v =? Seconds d
  | None => false
  end.

(** The context a goroutine streams under, at the program points inside
    [streamTrack]. *)
Definition streamCtx (t : Task) : option Ctx :=
  match t with
  | TaskSetup c _ | TaskCheck c | TaskFlags c | TaskSelect c | TaskRead c
  | TaskSend c _ => Some c
  | _ => None
  end.

(** The handle and the pause channel are installed exactly while the
    goroutine is in [streamTrack] or has just left it, the handle is that of
    the context it streams under, and no identity in use is still to be
    handed out. *)
Definition handleInv (w : World) : Prop :=
  match tasks w with
  | [] => cancelPlayback (pl w) = None ∧ pauseChan (pl w) = None
  | [t] =>
      match t with
      | TaskNext | TaskIdle | TaskArm _ =>
          cancelPlayback (pl w) = None ∧ pauseChan (pl w) = None
      | TaskClear _ =>
          cancelPlayback (pl w) ≠ None ∧ pauseChan (pl w) ≠ None
      | _ =>
          cancelPlayback (pl w) = streamCtx t ∧ pauseChan (pl w) ≠ None
      end
  | _ => False
  end
  ∧ (∀ c, cancelPlayback (pl w) = Some c → (c < fresh w)%nat)
  ∧ (∀ c, c ∈ canceled w → (c < fresh w)%nat).

Definition handleView (w : World)
    : list Task * option Ctx * option (list bool) * gset nat * nat :=
  (tasks w, cancelPlayback (pl w), pauseChan (pl w), canceled w, fresh w).

(** The program points at which the goroutine has an ffmpeg subprocess
    started and its deferred kill-and-wait still to run. *)
Definition holdsProcess (t : Task) : bool :=
  match t with
  | TaskCheck _ | TaskFlags _ | TaskSelect _ | TaskRead _ | TaskSend _ _ =>
      true
  | _ => false
  end.

(** Subprocesses started, and subprocesses killed and waited for. *)
Fixpoint started (os : list Output) : nat :=
  match os with
  | [] => 0
  | OutFFMpeg _ :: os' => S (started os')
  | _ :: os' => started os'
  end.

Fixpoint reaped (os : list Output) : nat :=
  match os with
  | [] => 0
  | OutKillReap :: os' => S (reaped os')
  | _ :: os' => reaped os'
  end.

Definition heldBy (ts : list Task) : nat :=
  match ts with
  | [t] => if holdsProcess t then 1 else 0
  | _ => 0
  end.

Definition processInv (w : World) : Prop :=
  started (out w) = (reaped (out w) + heldBy (tasks w))%nat.

(** The program points of a paused pipeline that waits: the top of the
    frame loop, the reading of the flags, the [select]. *)
Definition polls (c : Ctx) (t : Task) : bool :=
  match t with
  | TaskCheck c' | TaskFlags c' | TaskSelect c' => bool_decide (c' = c)
  | _ => false
  end.

(** A paused pipeline whose pause channel is empty, its context live. *)
Definition waiting (c : Ctx) (w : World) : Prop :=
  parked w = None ∧ paused (pl w) = true ∧ pauseChan (pl w) = Some [] ∧
  (c ∉ canceled w) ∧ ∃ t, tasks w = [t] ∧ polls c t = true.

(** The calls on the registry of players. *)
Inductive RegistryOp :=
| OpGet (guildID : string)
| OpFind (guildID : string)
| OpRelease (guildID : string).

Definition applyOp (op : RegistryOp) (k : Kvazar) : Kvazar :=
  match op with
  | OpGet g => (getPlayer g k).2
  | OpFind _ => k
  | OpRelease g => releasePlayer g k
  end.

(** The registry of [New]: no players. *)
Definition NewKvazar : Kvazar := mkKvazar ∅ 0.

Definition registryOf (ops : list RegistryOp) : Kvazar :=
  foldl (fun k op => applyOp op k) NewKvazar ops.

(** Every registered player was made by [NewPlayer] before now, and no two
    guilds hold the same player. *)
Definition registryInv (k : Kvazar) : Prop :=
  (∀ g p, players k !! g = Some p → (p < allocated k)%nat) ∧
  (∀ g1 g2 p, players k !! g1 = Some p → players k !! g2 = Some p → g1 = g2).

(* ===================================================================== *)
(** ** Runs and reachable worlds *)
(* ===================================================================== *)

Ltac psimpl :=
  cbn [pl canceled timers fired fresh tasks parked stdout out
       queue current loop playing paused skipRequested cancelPlayback
       pauseChan voice disconnectTimer
       set_queue set_current set_loop set_playing set_paused
       set_skipRequested set_cancelPlayback set_pauseChan set_voice
       set_disconnectTimer set_pl upd_pl set_canceled set_timers set_fired
       set_fresh
       set_tasks set_parked set_stdout emit cancel cancelOpt stopTimer
       negb andb orb fst snd] in *.

Ltac pcases := repeat (psimpl; case_match); psimpl.

Lemma run_app es1 es2 w : run (es1 ++ es2) w = run es1 w ≫= run es2.
Proof.
  revert w. induction es1 as [|e es1 IH]; intros w; simpl; [done|].
  destruct (step e w) as [w'|]; simpl; [apply IH | done].
Qed.

Lemma reachable_new : reachable NewWorld.
Proof. by exists []. Qed.

Lemma reachable_step w e w' : reachable w → step e w = Some w' → reachable w'.
Proof.
  intros [es Hes] Hstep. exists (es ++ [e]).
  rewrite run_app, Hes. simpl. by rewrite Hstep.
Qed.

(** Induction over the events that lead to a world. *)
Lemma reachable_ind (P : World → Prop) :
  P NewWorld →
  (∀ w e w', reachable w → P w → step e w = Some w' → P w') →
  ∀ w, reachable w → P w.
Proof.
  intros H0 Hstep w [es Hes]. revert w Hes.
  induction es as [|e es IH] using rev_ind; intros w Hes.
  - simpl in Hes. by injection Hes as <-.
  - rewrite run_app in Hes.
    destruct (run es NewWorld) as [w0|] eqn:Hrun; [|done].
    simpl in Hes. destruct (step e w0) as [w1|] eqn:He; [|done].
    simpl in Hes. injection Hes as <-.
    eapply Hstep; [by exists es | by apply IH | done].
Qed.

(** A step of a goroutine, opened. *)
Lemma step_task_inv i env w w' :
  step (EvTask i env) w = Some w' →
  ∃ t t' w1, tasks w !! i = Some t ∧ taskStep env t w = Some (t', w1) ∧
    w' = match t' with
         | Some t1 => set_tasks (<[i := t1]> (tasks w1)) w1
         | None => set_tasks (delete i (tasks w1)) w1
         end.
Proof.
  unfold step. intros H.
  destruct (tasks w !! i) as [t|] eqn:Hi; [|done].
  cbn [mbind option_bind] in H.
  destruct (taskStep env t w) as [[t' w1]|] eqn:Ht; [|done].
  cbn [mbind option_bind] in H. injection H as H. by exists t, t', w1.
Qed.

Lemma step_timer_inv tm w w' :
  step (EvTimer tm) w = Some w' → tm ∈ timers w ∧ w' = timerFires tm w.
Proof.
  unfold step. case_bool_decide; [|done]. intros [= <-]. done.
Qed.

Lemma step_callback_inv w w' :
  step EvCallback w = Some w' →
  parked w = None ∧ (0 < fired w)%nat ∧ w' = disconnectFired w.
Proof.
  unfold step. destruct (bool_decide (parked w ≠ None)) eqn:Hp; [done|].
  apply bool_decide_eq_false in Hp.
  destruct (0 <? fired w)%nat eqn:Hf; [|done]. intros [= <-].
  apply Nat.ltb_lt in Hf. split; [|done].
  destruct (parked w); [|done]. exfalso. apply Hp. discriminate.
Qed.

Lemma gset_single_diff (t : nat) : ({[t]} : gset nat) ∖ {[t]} = ∅.
Proof. apply set_eq. intros x. rewrite elem_of_difference. set_solver. Qed.

Lemma gset_empty_diff (t : nat) : (∅ : gset nat) ∖ {[t]} = ∅.
Proof. apply set_eq. intros x. rewrite elem_of_difference. set_solver. Qed.

Lemma gset_empty_union (t : nat) : (∅ : gset nat) ∪ {[t]} = {[t]}.
Proof. apply (left_id_L ∅ (∪)). Qed.

Ltac gset_simpl :=
  rewrite ?gset_single_diff, ?gset_empty_diff, ?gset_empty_union.

(* ===================================================================== *)
(** ** The idle-disconnect timer *)
(* ===================================================================== *)

Lemma timerInv_view w w' : timerView w' = timerView w → timerInv w → timerInv w'.
Proof. unfold timerView, timerInv. intros [= H1 _ H3]. by rewrite H1, H3. Qed.

Lemma taskStep_timerView env t w t' w' :
  taskStep env t w = Some (t', w') →
  isIdle t = false → timerView w' = timerView w.
Proof.
  intros H Hne. unfold timerView.
  destruct t; try done; cbn [taskStep] in H; unfold finish, nextTrack in H.
  all: repeat (case_match; try done).
  all: simplify_eq; psimpl; try reflexivity.
Qed.

Lemma timerInv_step w e w' : timerInv w → step e w = Some w' → timerInv w'.
Proof.
  intros Hinv Hstep. destruct e.
  9: { apply step_task_inv in Hstep as (t & t' & w1 & Hi & Ht & ->).
       destruct (isIdle t) eqn:Hne.
       - destruct t; try done. cbn [taskStep] in Ht.
         destruct (bool_decide (parked w ≠ None)); [done|].
         injection Ht as <- <-.
         unfold timerInv, scheduleDisconnectLocked.
         psimpl. destruct (disconnectTimer (pl w)); psimpl; done.
       - apply (timerInv_view w w1) in Hinv; [|by eapply taskStep_timerView].
         destruct t'; exact Hinv. }
  8: { apply step_timer_inv in Hstep as [_ ->]. exact Hinv. }
  all: unfold step in Hstep;
    destruct (bool_decide (parked w ≠ None)); [done|].
  - injection Hstep as <-.
    eapply timerInv_view; [|done]. unfold timerView, EnsureConnected.
    pcases; done.
  - injection Hstep as <-.
    unfold timerInv, Enqueue, cancelDisconnectTimerLocked. psimpl.
    destruct (disconnectTimer (pl w)) eqn:Hf; psimpl;
      destruct (playing (pl w)); psimpl; rewrite ?Hf; done.
  - injection Hstep as <-.
    eapply timerInv_view; [|done]. unfold timerView, Skip. pcases; done.
  - injection Hstep as <-.
    eapply timerInv_view; [|done]. unfold timerView, Pause. pcases; done.
  - injection Hstep as <-.
    eapply timerInv_view; [|done]. unfold timerView, Stop. pcases; done.
  - injection Hstep as <-.
    eapply timerInv_view; [|done]. unfold timerView, ToggleLoop.
    pcases; done.
  - injection Hstep as <-.
    eapply timerInv_view; [|done]. unfold timerView, Shutdown, cancelOpt.
    pcases; done.
  - destruct (0 <? fired w)%nat; [|done].
    injection Hstep as <-. unfold timerInv, disconnectFired.
    destruct (voice (pl w)); psimpl; done.
Qed.

Lemma timerInv_reachable w : reachable w → timerInv w.
Proof.
  revert w. apply reachable_ind.
  - done.
  - intros w e w' _ Hinv Hstep. by eapply timerInv_step.
Qed.

Lemma armed_field w : armed w = true → disconnectTimer (pl w) ≠ None.
Proof. unfold armed. by destruct (disconnectTimer (pl w)). Qed.

(** C1, the claim as stated fails: with [trackA] playing and nothing waiting,
    [Enqueue] of [trackB] returns 1 and not 2. *)
Lemma Enqueue_position_counterexample :
  reachable wStreamingA ∧
  current (pl wStreamingA) = Some trackA ∧
  queue (pl wStreamingA) = [] ∧
  (Enqueue trackB wStreamingA).1 = 1 ∧
  (Enqueue trackB wStreamingA).1 ≠
    Z.of_nat (length (queue (pl (Enqueue trackB wStreamingA).2))) + 1.
Proof.
  split; [exists evsStreamingA; vm_compute; reflexivity|].
  split; [vm_compute; reflexivity|]. split; [vm_compute; reflexivity|].
  split; [vm_compute; reflexivity|]. vm_compute. discriminate.
Qed.

(** What [Enqueue] does to the world. *)
Lemma Enqueue_effect (track : Track) (w : World) :
  let position := (Enqueue track w).1 in
  let w' := (Enqueue track w).2 in
  queue (pl w') = queue (pl w) ++ [track] ∧
  current (pl w') = current (pl w) ∧
  position = Z.of_nat (length (queue (pl w'))) ∧
  position = Z.of_nat (length (queue (pl w))) + 1 ∧
  disconnectTimer (pl w') = None ∧
  armed w' = false ∧
  timers w' = match disconnectTimer (pl w) with
              | Some tm => timers w ∖ {[tm]}
              | None => timers w
              end ∧
  playing (pl w') = true ∧
  tasks w' = if playing (pl w) then tasks w else tasks w ++ [TaskNext].
Proof.
  unfold Enqueue, cancelDisconnectTimerLocked, armed. psimpl.
  destruct (disconnectTimer (pl w)) eqn:Hf; psimpl;
    destruct (playing (pl w)) eqn:Hp; psimpl; rewrite ?Hf, ?Hp.
  all: repeat split; try done.
  all: rewrite length_app; simpl; lia.
Qed.

(** C1, amended: [Enqueue] appends the track to the queue, leaves no
    idle-disconnect timer in the field and stops the one that was there,
    sets [playing] and starts a playback goroutine exactly when the player
    was not playing, and returns the length of the queue after the append:
    the 1-based position among the waiting tracks, in which a track that is
    current does not count. *)
Theorem Enqueue_position (track : Track) (w : World) :
  let position := (Enqueue track w).1 in
  let w' := (Enqueue track w).2 in
  queue (pl w') = queue (pl w) ++ [track] ∧
  current (pl w') = current (pl w) ∧
  position = Z.of_nat (length (queue (pl w'))) ∧
  position = Z.of_nat (length (queue (pl w))) + 1 ∧
  disconnectTimer (pl w') = None ∧
  armed w' = false ∧
  timers w' = match disconnectTimer (pl w) with
              | Some tm => timers w ∖ {[tm]}
              | None => timers w
              end ∧
  playing (pl w') = true ∧
  tasks w' = if playing (pl w) then tasks w else tasks w ++ [TaskNext].
Proof. exact (Enqueue_effect track w). Qed.

(** C2, the claim as stated fails: a player that went idle without ever
    holding a transport is not playing and has its timer armed, and
    [Shutdown] leaves it armed. *)
Lemma idle_timer_iff_counterexample :
  reachable wIdleNoVoice ∧ armed wIdleNoVoice = true ∧
  playing (pl wIdleNoVoice) = false ∧
  voice (pl wIdleNoVoice) = None ∧ armed (Shutdown wIdleNoVoice) = true.
Proof.
  split; [exists evsIdleNoVoice; vm_compute; reflexivity|].
  vm_compute. repeat split.
Qed.

(** C2, amended: in every reachable world an armed idle-disconnect timer
    implies [playing == false]; a held transport plays no part in arming.
    [Enqueue], which sets [playing], stops the timer the player holds and
    clears the field; the playback loop arms a timer on every transition to
    idle, whether or not a transport is bound; the firing of the held timer
    leaves the player disarmed, and so does the run of the timer function,
    which releases the transport; [Shutdown] leaves the timer as it is. *)
Theorem idle_timer_invariant (w : World) :
  reachable w →
  (armed w = true → playing (pl w) = false) ∧
  (∀ track, armed (Enqueue track w).2 = false ∧
            playing (pl (Enqueue track w).2) = true ∧
            disconnectTimer (pl (Enqueue track w).2) = None ∧
            ∀ tm, disconnectTimer (pl w) = Some tm →
                  tm ∉ timers (Enqueue track w).2) ∧
  (∀ i env w', tasks w !! i = Some TaskIdle →
     step (EvTask i env) w = Some w' →
     armed w' = true ∧ playing (pl w') = false ∧
     voice (pl w') = voice (pl w)) ∧
  (∀ tm w', disconnectTimer (pl w) = Some tm →
     step (EvTimer tm) w = Some w' →
     armed w' = false ∧ fired w' = S (fired w)) ∧
  (∀ w', step EvCallback w = Some w' →
     armed w' = false ∧ disconnectTimer (pl w') = None ∧
     voice (pl w') = None ∧ head (out w') = Some OutRelease) ∧
  armed (Shutdown w) = armed w.
Proof.
  intros Hr. pose proof (timerInv_reachable w Hr) as Hp.
  split; [intros Ha; by apply Hp, armed_field|].
  split; [|split; [|split; [|split]]].
  - intros track.
    destruct (Enqueue_effect track w)
      as (_ & _ & _ & _ & Hf & Ha & Ht & Hpl & _).
    repeat split; try done. intros tm Htm. rewrite Ht, Htm.
    intros Hin. apply elem_of_difference in Hin as [_ Hn].
    apply Hn, elem_of_singleton. reflexivity.
  - intros i env w' Hi Hstep.
    apply step_task_inv in Hstep as (t & t' & w1 & Hi' & Hs & ->).
    rewrite Hi in Hi'. injection Hi' as <-. cbn [taskStep] in Hs.
    destruct (bool_decide (parked w ≠ None)); [done|].
    injection Hs as <- <-. unfold armed, scheduleDisconnectLocked.
    psimpl. destruct (disconnectTimer (pl w)); psimpl.
    all: split; [|done].
    all: apply bool_decide_eq_true, elem_of_union_r, elem_of_singleton.
    all: reflexivity.
  - intros tm w' Htm Hstep. unfold step in Hstep.
    destruct (bool_decide (tm ∈ timers w)); [|done].
    injection Hstep as <-. unfold armed, timerFires. psimpl. rewrite Htm.
    split; [|reflexivity]. apply bool_decide_eq_false.
    intros Hin. apply elem_of_difference in Hin as [_ Hn].
    apply Hn, elem_of_singleton. reflexivity.
  - intros w' Hstep. unfold step in Hstep.
    destruct (bool_decide (parked w ≠ None)); [done|].
    destruct (0 <? fired w)%nat; [|done].
    injection Hstep as <-. unfold armed, disconnectFired.
    psimpl. destruct (voice (pl w)); psimpl; repeat split; reflexivity.
  - unfold armed, Shutdown.
    destruct (cancelPlayback (pl w)); psimpl;
      destruct (voice (pl w)); psimpl; reflexivity.
Qed.

Lemma idle_timer_invariant_witness :
  reachable wIdleNoVoice ∧ armed wIdleNoVoice = true ∧
  playing (pl wIdleNoVoice) = false.
Proof.
  assert (Hr : reachable wIdleNoVoice)
    by (exists evsIdleNoVoice; vm_compute; reflexivity).
  assert (Ha : armed wIdleNoVoice = true) by (vm_compute; reflexivity).
  split; [exact Hr|]. split; [exact Ha|].
  exact (proj1 (idle_timer_invariant wIdleNoVoice Hr) Ha).
Defined.

(* ===================================================================== *)
(** ** Loop, skip and stop *)
(* ===================================================================== *)

Lemma World_eta w :
  w = mkWorld (pl w) (canceled w) (timers w) (fired w) (fresh w) (tasks w) (parked w)
              (stdout w) (out w).
Proof. by destruct w. Qed.

Lemma Player_eta p :
  p = mkPlayer (queue p) (current p) (loop p) (playing p) (paused p)
               (skipRequested p) (cancelPlayback p) (pauseChan p) (voice p)
               (disconnectTimer p).
Proof. by destruct p. Qed.

Lemma set_loop_same w : upd_pl (set_loop (loop (pl w))) w = w.
Proof. destruct w as [p ? ? ? ? ? ? ?]. by destruct p. Qed.

(** C5: [ToggleLoop] with an explicit argument sets [loop] to the argument
    and-ed with the presence of a current track, and returns it; without
    an argument it flips [loop] only if a track is current, and returns the
    resulting value; nothing else of the player changes.  With [true] and
    no current track the result is [false], with a current track [true]. *)
Theorem ToggleLoop_result (w : World) :
  (∀ explicit : bool,
     (ToggleLoop (Some explicit) w).1
       = explicit && bool_decide (current (pl w) ≠ None)) ∧
  (ToggleLoop None w).1
    = (if bool_decide (current (pl w) ≠ None) then negb (loop (pl w))
       else loop (pl w)) ∧
  (∀ explicit : option bool,
     (ToggleLoop explicit w).2
       = upd_pl (set_loop (ToggleLoop explicit w).1) w) ∧
  (current (pl w) = None → (ToggleLoop (Some true) w).1 = false) ∧
  (current (pl w) ≠ None → (ToggleLoop (Some true) w).1 = true).
Proof.
  split; [|split; [|split; [|split]]].
  - intros e. unfold ToggleLoop. psimpl. reflexivity.
  - unfold ToggleLoop. destruct (bool_decide (current (pl w) ≠ None)); psimpl; reflexivity.
  - intros [e|]; unfold ToggleLoop; psimpl; [reflexivity|].
    destruct (bool_decide (current (pl w) ≠ None)); psimpl; [reflexivity|].
    symmetry. apply set_loop_same.
  - intros H. unfold ToggleLoop. psimpl. by rewrite bool_decide_false by (by rewrite H; intros []).
  - intros H. unfold ToggleLoop. psimpl. by rewrite bool_decide_true.
Qed.

Lemma taskStep_loopView env t w t' w' :
  taskStep env t w = Some (t', w') →
  isNext t = false → loopView w' = loopView w.
Proof.
  intros H Hne. unfold loopView.
  destruct t; try done; cbn [taskStep] in H;
    unfold finish, scheduleDisconnectLocked in H.
  all: repeat (case_match; try done).
  all: simplify_eq; psimpl; try reflexivity.
Qed.

Lemma nextTrack_loopInv w : loopInv w → loopInv (nextTrack w).2.
Proof.
  unfold loopInv, nextTrack. psimpl. intros H.
  destruct (loop (pl w)) eqn:Hl; destruct (current (pl w)) eqn:Hc; psimpl.
  all: try (destruct (queue (pl w) ++ [_]) eqn:Hq); try (destruct (queue (pl w)) eqn:Hq'); psimpl; rewrite ?Hl; try done.
  all: try (by apply app_nil in Hq as [_ ?]).
  all: auto.
Qed.

Lemma loopInv_view w w' : loopView w' = loopView w → loopInv w → loopInv w'.
Proof. unfold loopView, loopInv. intros [= -> ->]. done. Qed.

Lemma loopInv_step w e w' : loopInv w → step e w = Some w' → loopInv w'.
Proof.
  intros Hinv Hstep. destruct e.
  9: { apply step_task_inv in Hstep as (t & t' & w1 & Hi & Ht & ->).
       destruct (isNext t) eqn:Hne.
       - destruct t; try done. cbn [taskStep] in Ht.
         destruct (bool_decide (parked w ≠ None)); [done|].
         pose proof (nextTrack_loopInv w Hinv) as Hn.
         destruct (nextTrack w) as [[[tr|] b] w2]; injection Ht as <- <-; exact Hn.
       - apply (loopInv_view w w1) in Hinv; [|by eapply taskStep_loopView].
         destruct t'; exact Hinv. }
  8: { apply step_timer_inv in Hstep as [_ ->]. exact Hinv. }
  all: unfold step in Hstep;
    destruct (bool_decide (parked w ≠ None)); [done|].
  - injection Hstep as <-.
    eapply loopInv_view; [|done]. unfold loopView, EnsureConnected.
    pcases; done.
  - injection Hstep as <-.
    eapply loopInv_view; [|done]. unfold loopView, Enqueue, cancelDisconnectTimerLocked.
    psimpl. destruct (disconnectTimer (pl w)); psimpl; destruct (playing (pl w)); psimpl; done.
  - injection Hstep as <-. unfold loopInv, Skip in *. psimpl.
    destruct (cancelPlayback (pl w)); psimpl; done.
  - injection Hstep as <-.
    eapply loopInv_view; [|done]. unfold loopView, Pause. pcases; done.
  - injection Hstep as <-. unfold loopInv, Stop. psimpl.
    destruct (cancelPlayback (pl w)); psimpl; done.
  - injection Hstep as <-. unfold loopInv, ToggleLoop in *. psimpl.
    destruct explicit as [e|]; psimpl.
    + intros Hc. rewrite bool_decide_false by (by rewrite Hc; intros []). apply andb_false_r.
    + destruct (bool_decide (current (pl w) ≠ None)) eqn:Hb; psimpl; [|done].
      intros Hc. apply bool_decide_eq_true in Hb. done.
  - injection Hstep as <-.
    eapply loopInv_view; [|done]. unfold loopView, Shutdown.
    destruct (cancelPlayback (pl w)); psimpl; destruct (voice (pl w)); psimpl; done.
  - destruct (0 <? fired w)%nat; [|done]. injection Hstep as <-.
    eapply loopInv_view; [|done]. unfold loopView, disconnectFired. psimpl.
    destruct (voice (pl w)); psimpl; done.
Qed.

Lemma loopInv_reachable w : reachable w → loopInv w.
Proof.
  revert w. apply reachable_ind.
  - done.
  - intros w e w' _ Hinv Hstep. by eapply loopInv_step.
Qed.

Lemma ToggleLoop_result_witness :
  (ToggleLoop (Some true) NewWorld).1 = false ∧
  (ToggleLoop (Some true) wStreamingA).1 = true.
Proof.
  split.
  - apply (ToggleLoop_result NewWorld). vm_compute. reflexivity.
  - apply (ToggleLoop_result wStreamingA). vm_compute. discriminate.
Defined.

Lemma Skip_no_handle w :
  cancelPlayback (pl w) = None →
  Skip w = (bool_decide (current (pl w) ≠ None), w).
Proof. intros H. unfold Skip. by rewrite H. Qed.

(** [Skip] where the current track and the handle go together: [Skip] on a
    player without a current track returns false and leaves
    the queue, the current track, [loop], [paused], [playing] and the
    cancellation handle as they are (in every reachable world; with no
    handle installed the whole world is unchanged).  With a current track
    and the handle of its pipeline installed, [Skip] returns true, disables
    [loop] and calls the handle. *)
Theorem Skip_frame :
  (∀ w, reachable w → current (pl w) = None →
     (Skip w).1 = false ∧ controlView (Skip w).2 = controlView w ∧
     pauseChan (pl (Skip w).2) = pauseChan (pl w) ∧
     voice (pl (Skip w).2) = voice (pl w) ∧
     disconnectTimer (pl (Skip w).2) = disconnectTimer (pl w) ∧
     tasks (Skip w).2 = tasks w ∧ out (Skip w).2 = out w) ∧
  (∀ w, current (pl w) = None → cancelPlayback (pl w) = None →
     Skip w = (false, w)) ∧
  (∀ w c, current (pl w) ≠ None → cancelPlayback (pl w) = Some c →
     (Skip w).1 = true ∧ loop (pl (Skip w).2) = false ∧
     c ∈ canceled (Skip w).2 ∧
     queue (pl (Skip w).2) = queue (pl w) ∧
     current (pl (Skip w).2) = current (pl w)).
Proof.
  split; [|split].
  - intros w Hr Hc. pose proof (loopInv_reachable w Hr Hc) as Hl.
    unfold Skip, controlView. psimpl.
    rewrite bool_decide_false by (by rewrite Hc; intros []).
    destruct (cancelPlayback (pl w)) eqn:Hh; psimpl; rewrite ?Hh, ?Hl; done.
  - intros w Hc Hh. rewrite Skip_no_handle by done.
    by rewrite bool_decide_false by (by rewrite Hc; intros []).
  - intros w c Hc Hh. unfold Skip. rewrite Hh. psimpl.
    rewrite bool_decide_true by done. repeat split.
    apply elem_of_union_r, elem_of_singleton. reflexivity.
Qed.

Lemma Stop_effect w :
  let had := (Stop w).1 in
  let w' := (Stop w).2 in
  queue (pl w') = [] ∧ current (pl w') = None ∧
  loop (pl w') = false ∧ paused (pl w') = false ∧
  playing (pl w') = playing (pl w) ∧
  cancelPlayback (pl w') = cancelPlayback (pl w) ∧
  tasks w' = tasks w ∧ out w' = out w ∧ parked w' = parked w ∧
  canceled w' = match cancelPlayback (pl w) with
                | Some c => canceled w ∪ {[c]}
                | None => canceled w
                end ∧
  (had = true ↔ current (pl w) ≠ None ∨ queue (pl w) ≠ []).
Proof.
  unfold Stop. psimpl.
  destruct (cancelPlayback (pl w)) eqn:Hh; psimpl; rewrite ?Hh.
  all: repeat split; try done.
  all: try (intros [H|H]; apply orb_true_iff;
            [left; by apply bool_decide_eq_true
            |right; destruct (queue (pl w)); [done|by apply Nat.ltb_lt; simpl; lia]]).
  all: intros [H|H]%orb_true_iff;
       [left; by apply bool_decide_eq_true in H
       |right; apply Nat.ltb_lt in H; destruct (queue (pl w)); simpl in H; [lia|done]].
Qed.

Lemma nextTrack_empty w :
  queue (pl w) = [] → loop (pl w) = false →
  nextTrack w = (None, false, upd_pl (fun p => set_current None (set_skipRequested false p)) w).
Proof.
  intros Hq Hl. unfold nextTrack. psimpl. rewrite Hl. psimpl. rewrite Hq.
  reflexivity.
Qed.

Lemma in_canceled_add (c : nat) (s : gset nat) : c ∈ s ∪ {[c]}.
Proof. apply elem_of_union_r, elem_of_singleton. reflexivity. Qed.


Lemma parked_locked w : parked w = None → bool_decide (parked w ≠ None) = false.
Proof. intros ->. by apply bool_decide_false; intros []. Qed.

Lemma step_Stop w : parked w = None → step EvStop w = Some (Stop w).2.
Proof. intros H. unfold step. by rewrite parked_locked. Qed.

Lemma step_task i env w t t' w1 :
  tasks w !! i = Some t → taskStep env t w = Some (t', w1) →
  step (EvTask i env) w
  = Some match t' with
         | Some t1 => set_tasks (<[i := t1]> (tasks w1)) w1
         | None => set_tasks (delete i (tasks w1)) w1
         end.
Proof. intros Hi Ht. unfold step. rewrite Hi. cbn [mbind option_bind]. by rewrite Ht. Qed.

Lemma taskStep_check_canceled env c w :
  c ∈ canceled w →
  taskStep env (TaskCheck c) w
  = Some (Some (TaskClear (Some ErrCanceled)),
          emit OutKillReap (emit (OutSpeaking false) w)).
Proof. intros H. cbn [taskStep]. by rewrite bool_decide_true. Qed.

Lemma taskStep_clear env err w :
  parked w = None →
  taskStep env (TaskClear err) w = Some (Some TaskNext, afterStream err w).
Proof.
  intros H. cbn [taskStep]. rewrite parked_locked by done. unfold afterStream.
  destruct err as [e|]; [destruct (isCanceled e)|]; reflexivity.
Qed.

Lemma taskStep_next env w :
  parked w = None →
  taskStep env TaskNext w
  = Some (Some match (nextTrack w).1.1 with
               | Some track => TaskArm track
               | None => TaskIdle
               end, (nextTrack w).2).
Proof.
  intros H. cbn [taskStep]. rewrite parked_locked by done.
  by destruct (nextTrack w) as [[[tr|] b] w1].
Qed.

Lemma taskStep_idle env w :
  parked w = None →
  taskStep env TaskIdle w
  = Some (None, scheduleDisconnectLocked
                  (upd_pl (fun p => set_paused false (set_playing false p)) w)).
Proof. intros H. cbn [taskStep]. by rewrite parked_locked. Qed.

(** After [Stop], a pipeline that stands at the top of its frame loop under
    the handle [Stop] called runs to idle in four steps of its goroutine,
    whatever the surroundings answer. *)
Lemma Stop_then_idle w c e1 e2 e3 e4 :
  parked w = None → tasks w = [TaskCheck c] →
  cancelPlayback (pl w) = Some c →
  ∃ w', run [EvStop; EvTask 0 e1; EvTask 0 e2; EvTask 0 e3; EvTask 0 e4] w
        = Some w' ∧
    tasks w' = [] ∧ playing (pl w') = false ∧ current (pl w') = None ∧
    queue (pl w') = [] ∧ cancelPlayback (pl w') = None ∧
    out w' = OutKillReap :: OutSpeaking false :: out w.
Proof.
  intros Hp Ht Hh.
  destruct (Stop_effect w) as (Hq & Hc & Hl & _ & _ & _ & Ht0 & Ho & Hp0 & Hcs & _).
  set (w0 := (Stop w).2) in *. rewrite Hh in Hcs. rewrite Ht in Ht0. rewrite Hp in Hp0.
  eexists. split.
  - cbn [run]. rewrite step_Stop by done. cbn [mbind option_bind]. fold w0.
    erewrite step_task;
      [|by rewrite Ht0|apply taskStep_check_canceled; rewrite Hcs; apply in_canceled_add].
    cbn [mbind option_bind]. psimpl. rewrite Ht0. cbn [insert list_insert].
    erewrite step_task; [|reflexivity|by apply taskStep_clear].
    cbn [mbind option_bind]. unfold afterStream. psimpl. cbn [isCanceled insert list_insert].
    erewrite step_task; [|reflexivity|by apply taskStep_next].
    rewrite nextTrack_empty by (psimpl; done). psimpl.
    cbn [mbind option_bind]. psimpl. cbn [insert list_insert].
    erewrite step_task; [|reflexivity|by apply taskStep_idle].
    cbn [mbind option_bind]. reflexivity.
  - unfold scheduleDisconnectLocked. psimpl.
    destruct (disconnectTimer (pl w0)); psimpl; rewrite ?Hq, ?Ho; repeat split.
Qed.

(** [Stop] by itself and with the running pipeline under its handle:
    whatever the world before, [Stop] leaves the queue empty, no current
    track, [loop] and [paused] false, has called the cancellation handle of
    an active pipeline, and returns true exactly when there was a current
    track or a non-empty queue.  Afterwards [nextTrack] finds no track; a
    pipeline standing at its cancellation check under that handle returns
    Canceled and its goroutine goes idle without starting another track. *)
Theorem Stop_leaves_idle :
  (∀ w,
     queue (pl (Stop w).2) = [] ∧ current (pl (Stop w).2) = None ∧
     loop (pl (Stop w).2) = false ∧ paused (pl (Stop w).2) = false ∧
     (∀ c, cancelPlayback (pl w) = Some c → c ∈ canceled (Stop w).2) ∧
     ((Stop w).1 = true ↔ current (pl w) ≠ None ∨ queue (pl w) ≠ []) ∧
     (nextTrack (Stop w).2).1.1 = None ∧
     current (pl (nextTrack (Stop w).2).2) = None) ∧
  (∀ w c e1 e2 e3 e4,
     parked w = None → tasks w = [TaskCheck c] →
     cancelPlayback (pl w) = Some c →
     ∃ w', run [EvStop; EvTask 0 e1; EvTask 0 e2; EvTask 0 e3; EvTask 0 e4] w
           = Some w' ∧
       tasks w' = [] ∧ playing (pl w') = false ∧ current (pl w') = None ∧
       queue (pl w') = [] ∧ cancelPlayback (pl w') = None ∧
       out w' = OutKillReap :: OutSpeaking false :: out w).
Proof.
  split.
  - intros w.
    destruct (Stop_effect w) as (Hq & Hc & Hl & Hpa & _ & _ & _ & _ & _ & Hcs & Hh).
    repeat split; try done.
    + intros c Hc'. rewrite Hcs, Hc'. apply in_canceled_add.
    + apply Hh.
    + apply Hh.
    + by rewrite nextTrack_empty.
    + by rewrite nextTrack_empty.
  - intros w c e1 e2 e3 e4 H1 H2 H3. by apply (Stop_then_idle w c).
Qed.

Lemma Stop_leaves_idle_witness :
  ∃ w', run [EvStop; EvTask 0 envOk; EvTask 0 envOk; EvTask 0 envOk;
             EvTask 0 envOk] wStreamingA = Some w' ∧
    tasks w' = [] ∧ playing (pl w') = false ∧ current (pl w') = None ∧
    queue (pl w') = [] ∧ cancelPlayback (pl w') = None ∧
    out w' = OutKillReap :: OutSpeaking false :: out wStreamingA.
Proof.
  assert (H1 : parked wStreamingA = None) by (vm_compute; reflexivity).
  assert (H2 : tasks wStreamingA = [TaskCheck 0%nat])
    by (vm_compute; reflexivity).
  assert (H3 : cancelPlayback (pl wStreamingA) = Some 0%nat)
    by (vm_compute; reflexivity).
  exact (proj2 Stop_leaves_idle wStreamingA 0%nat envOk envOk envOk envOk
               H1 H2 H3).
Defined.

Lemma Skip_frame_witness :
  (Skip wJoined).1 = false ∧ controlView (Skip wJoined).2 = controlView wJoined.
Proof.
  assert (Hr : reachable wJoined) by (exists evsJoined; vm_compute; reflexivity).
  assert (Hc : current (pl wJoined) = None) by (vm_compute; reflexivity).
  split.
  - exact (proj1 (proj1 Skip_frame wJoined Hr Hc)).
  - exact (proj1 (proj2 (proj1 Skip_frame wJoined Hr Hc))).
Defined.

(* ===================================================================== *)
(** ** Pause *)
(* ===================================================================== *)

Lemma Pause_nothing w :
  playing (pl w) = false ∨ current (pl w) = None → Pause w = (Some false, w).
Proof.
  intros H. unfold Pause.
  destruct H as [-> | ->]; [reflexivity|].
  rewrite bool_decide_true by done. by rewrite orb_true_r.
Qed.

Lemma Pause_guard w :
  pausable w →
  negb (playing (pl w)) || bool_decide (current (pl w) = None) = false.
Proof.
  intros [Hp Hc]. rewrite Hp. by rewrite bool_decide_false.
Qed.

Lemma Pause_no_chan w :
  pausable w → pauseChan (pl w) = None →
  Pause w = (Some (negb (paused (pl w))),
             upd_pl (fun p => set_paused (negb (paused p)) p) w).
Proof.
  intros Ha Hch. unfold Pause. rewrite Pause_guard by done. psimpl.
  by rewrite Hch.
Qed.

Lemma Pause_room w :
  pausable w → pauseChan (pl w) = Some [] →
  Pause w = (Some (negb (paused (pl w))),
             upd_pl (fun p => set_pauseChan (Some [negb (paused p)])
                                (set_paused (negb (paused p)) p)) w).
Proof.
  intros Ha Hch. unfold Pause. rewrite Pause_guard by done. psimpl.
  by rewrite Hch.
Qed.

Lemma Pause_full w v rest :
  pausable w → pauseChan (pl w) = Some (v :: rest) →
  Pause w = (None,
             set_parked (Some (negb (paused (pl w))))
               (upd_pl (fun p => set_paused (negb (paused p)) p) w)).
Proof.
  intros Ha Hch. unfold Pause. rewrite Pause_guard by done. psimpl.
  by rewrite Hch.
Qed.

Lemma taskStep_parked env t w t' w' :
  parked w ≠ None → taskStep env t w = Some (t', w') →
  (match t with TaskSelect _ => False | _ => True end) →
  parked w' = parked w ∧ tasks w' = tasks w ∧
  match t' with
  | Some (TaskSelect _) => False
  | _ => True
  end.
Proof.
  intros Hp H Hs.
  assert (bool_decide (parked w ≠ None) = true) as Hl by by apply bool_decide_true.
  destruct t; try done; cbn [taskStep] in H; rewrite ?Hl in H; try done;
    unfold finish in H.
  all: repeat (case_match; try done).
  all: simplify_eq; psimpl; done.
Qed.

Lemma stuck_step e w w' : stuck w → step e w = Some w' → stuck w'.
Proof.
  intros [Hp Hs] Hstep.
  assert (bool_decide (parked w ≠ None) = true) as Hl by by apply bool_decide_true.
  destruct e; try (unfold step in Hstep; rewrite Hl in Hstep; done).
  1: { apply step_timer_inv in Hstep as [_ ->]. by split. }
  apply step_task_inv in Hstep as (t & t' & w1 & Hi & Ht & ->).
  unfold noSelect in Hs.
  pose proof (proj1 (Forall_lookup _ _) Hs i t Hi) as Hti.
  destruct (taskStep_parked _ _ _ _ _ Hp Ht Hti) as (Hp1 & Ht1 & Ht').
  split.
  - destruct t'; psimpl; by rewrite Hp1.
  - unfold noSelect. destruct t' as [t1|]; psimpl; rewrite Ht1.
    + apply Forall_insert; [done|]. by destruct t1.
    + by apply Forall_delete.
Qed.

Lemma stuck_run es w w' : stuck w → run es w = Some w' → stuck w'.
Proof.
  revert w. induction es as [|e es IH]; intros w Hs Hr; simpl in Hr.
  - by injection Hr as <-.
  - destruct (step e w) as [w1|] eqn:He; [|done]. simpl in Hr.
    eapply IH; [|done]. by eapply stuck_step.
Qed.

(** C6, where the code departs from it: on the player streaming [trackA],
    unpaused, the first [Pause] returns true and leaves its value in the
    channel; the second finds the channel full and stays in its send,
    holding [mu] - it has no result, and in no continuation of the run does
    it ever get one. *)
Theorem Pause_twice_blocks :
  reachable wStreamingA ∧
  playing (pl wStreamingA) = true ∧ current (pl wStreamingA) = Some trackA ∧
  paused (pl wStreamingA) = false ∧
  (Pause wStreamingA).1 = Some true ∧
  (Pause (Pause wStreamingA).2).1 = None ∧
  ∀ es w', run es (Pause (Pause wStreamingA).2).2 = Some w' →
           parked w' ≠ None.
Proof.
  split; [exists evsStreamingA; vm_compute; reflexivity|].
  do 4 (split; [vm_compute; reflexivity|]).
  split; [vm_compute; reflexivity|].
  intros es w' Hrun.
  assert (stuck (Pause (Pause wStreamingA).2).2) as Hs.
  { split; [vm_compute; discriminate|].
    unfold noSelect.
    replace (tasks (Pause (Pause wStreamingA).2).2) with [TaskCheck 0%nat]
      by (vm_compute; reflexivity).
    by constructor. }
  by destruct (stuck_run es _ _ Hs Hrun).
Qed.

(* ===================================================================== *)
(** ** The outcome of the frame pipeline *)
(* ===================================================================== *)

Lemma ReadFull_short avail :
  (length avail < Z.to_nat byteBufLen)%nat →
  ReadFull avail = ReadEOF ∨ ReadFull avail = ReadUnexpectedEOF.
Proof.
  intros H. unfold ReadFull.
  destruct (Z.to_nat byteBufLen <=? length avail)%nat eqn:E.
  - apply Nat.leb_le in E. lia.
  - destruct (bool_decide (avail = [])); auto.
Qed.


Lemma taskStep_read_end env c w :
  readErr env = None → (length (stdout w) < Z.to_nat byteBufLen)%nat →
  taskStep env (TaskRead c) w
  = Some (Some (TaskClear None), streamEnd (set_stdout [] w)).
Proof.
  intros He Hl. cbn [taskStep]. rewrite He.
  by destruct (ReadFull_short _ Hl) as [-> | ->].
Qed.

Lemma taskStep_read_error env c w e :
  readErr env = Some e →
  taskStep env (TaskRead c) w
  = Some (Some (TaskClear (Some (ErrWrap "pcm read" e))), streamEnd w).
Proof. intros He. cbn [taskStep]. by rewrite He. Qed.

Lemma taskStep_encode_error env c w e bytes rest :
  readErr env = None → ReadFull (stdout w) = ReadFrame bytes rest →
  encode env (decodePCM bytes) = inl e →
  taskStep env (TaskRead c) w
  = Some (Some (TaskClear (Some (ErrWrap "opus encode" e))),
          streamEnd (set_stdout rest w)).
Proof. intros He Hr Hen. cbn [taskStep]. by rewrite He, Hr, Hen. Qed.

Lemma taskStep_select_canceled env c w :
  pick env = CaseDone → c ∈ canceled w →
  taskStep env (TaskSelect c) w
  = Some (Some (TaskClear (Some ErrCanceled)), streamEnd w).
Proof. intros Hp H. cbn [taskStep]. rewrite Hp. by rewrite bool_decide_true. Qed.

Lemma taskStep_send_canceled env c packet w :
  pick env = CaseDone → c ∈ canceled w →
  taskStep env (TaskSend c packet) w
  = Some (Some (TaskClear (Some ErrCanceled)), streamEnd w).
Proof. intros Hp H. cbn [taskStep]. rewrite Hp. by rewrite bool_decide_true. Qed.

Lemma Skip_cancels w c : cancelPlayback (pl w) = Some c → c ∈ canceled (Skip w).2.
Proof. intros H. unfold Skip. rewrite H. psimpl. apply in_canceled_add. Qed.

Lemma Stop_cancels w c : cancelPlayback (pl w) = Some c → c ∈ canceled (Stop w).2.
Proof. intros H. unfold Stop. rewrite H. psimpl. apply in_canceled_add. Qed.

Lemma Shutdown_cancels w c :
  cancelPlayback (pl w) = Some c → c ∈ canceled (Shutdown w).
Proof.
  intros H. unfold Shutdown. rewrite H. psimpl.
  destruct (voice (pl w)); psimpl; apply in_canceled_add.
Qed.

Lemma not_in_empty_canceled (c : nat) (w : World) :
  canceled w = ∅ → c ∉ canceled w.
Proof. intros ->. apply not_elem_of_empty. Qed.

(** C4, where the code departs from it: [playLoop] has dequeued [trackA]
    and has not installed the cancellation handle yet when [Stop] is called.
    [Stop] returns true, empties the queue and clears [current], and finds
    no handle to call; the goroutine then installs the handle, announces
    the track, starts ffmpeg under a context nobody has cancelled and sends
    its frames: the track plays after [Stop]. *)
Theorem Stop_misses_dequeued_track :
  reachable wDequeuedA ∧
  tasks wDequeuedA = [TaskArm trackA] ∧
  current (pl wDequeuedA) = Some trackA ∧
  cancelPlayback (pl wDequeuedA) = None ∧
  (Stop wDequeuedA).1 = true ∧
  canceled (Stop wDequeuedA).2 = canceled wDequeuedA ∧
  ∃ w', run (EvStop :: evsPlayOn) wDequeuedA = Some w' ∧
        queue (pl w') = [] ∧ current (pl w') = None ∧
        playing (pl w') = true ∧ tasks w' = [TaskCheck 0%nat] ∧
        (0%nat ∉ canceled w') ∧
        out w' = OutFrame [0] :: OutSpeaking true
                 :: OutFFMpeg (buildFFMpegArgs trackA)
                 :: OutEncoder sampleRate pcmChannelCount opusBitrate
                 :: OutAnnounce trackA false :: out wDequeuedA.
Proof.
  split; [exists evsDequeuedA; vm_compute; reflexivity|].
  do 5 (split; [vm_compute; reflexivity|]).
  exists (after (evsDequeuedA ++ EvStop :: evsPlayOn)).
  split; [vm_compute; reflexivity|].
  do 4 (split; [vm_compute; reflexivity|]).
  split; [apply not_in_empty_canceled|]; vm_compute; reflexivity.
Qed.

(** C7, where the code departs from it, both ways.  The looping [trackA]
    has been dequeued again and its handle is not installed yet: [Skip]
    returns true and changes nothing, [loop] stays on and the track is
    played.  After a [Stop] in that same window the track streams with no
    current track set: [Skip] returns false, and yet it sets
    [skipRequested] and cancels the running pipeline. *)
Theorem Skip_misses_dequeued_track :
  (reachable wLoopDequeuedA ∧
   tasks wLoopDequeuedA = [TaskArm trackA] ∧
   current (pl wLoopDequeuedA) = Some trackA ∧
   loop (pl wLoopDequeuedA) = true ∧
   Skip wLoopDequeuedA = (true, wLoopDequeuedA) ∧
   ∃ w', run (EvSkip :: evsPlayOn) wLoopDequeuedA = Some w' ∧
         loop (pl w') = true ∧ current (pl w') = Some trackA ∧
         tasks w' = [TaskCheck 1%nat] ∧ (1%nat ∉ canceled w') ∧
         head (out w') = Some (OutFrame [0])) ∧
  (reachable wStoppedLate ∧
   current (pl wStoppedLate) = None ∧
   tasks wStoppedLate = [TaskCheck 0%nat] ∧
   cancelPlayback (pl wStoppedLate) = Some 0%nat ∧
   (0%nat ∉ canceled wStoppedLate) ∧
   skipRequested (pl wStoppedLate) = false ∧
   (Skip wStoppedLate).1 = false ∧
   0%nat ∈ canceled (Skip wStoppedLate).2 ∧
   skipRequested (pl (Skip wStoppedLate).2) = true).
Proof.
  split.
  - split; [exists evsLoopDequeuedA; vm_compute; reflexivity|].
    do 4 (split; [vm_compute; reflexivity|]).
    exists (after (evsLoopDequeuedA ++ EvSkip :: evsPlayOn)).
    split; [vm_compute; reflexivity|].
    do 3 (split; [vm_compute; reflexivity|]).
    split; [|vm_compute; reflexivity].
    assert (E : canceled (after (evsLoopDequeuedA ++ EvSkip :: evsPlayOn))
                = ∅) by (vm_compute; reflexivity).
    rewrite E. apply not_elem_of_empty.
  - split; [exists evsStoppedLate; vm_compute; reflexivity|].
    do 3 (split; [vm_compute; reflexivity|]).
    split; [apply not_in_empty_canceled; vm_compute; reflexivity|].
    do 2 (split; [vm_compute; reflexivity|]).
    split; [|vm_compute; reflexivity].
    apply Skip_cancels. vm_compute. reflexivity.
Qed.

(** A failed read or encode at the read of the frame loop: [streamTrack]
    returns the error after its deferred calls; [playLoop] clears the
    handle, logs the error and goes on to [nextTrack]. *)
Lemma read_failure_logged env c w e :
  parked w = None → tasks w = [TaskRead c] →
  taskStep env (TaskRead c) w = Some (Some (TaskClear (Some e)), streamEnd w) →
  isCanceled e = false →
  ∃ w', run [EvTask 0 env; EvTask 0 env] w = Some w' ∧
        tasks w' = [TaskNext] ∧ cancelPlayback (pl w') = None ∧
        out w' = OutLog e :: OutKillReap :: OutSpeaking false :: out w.
Proof.
  intros Hp Ht Hs He. cbn [run].
  erewrite step_task; [|by rewrite Ht|exact Hs].
  cbn [mbind option_bind]. unfold streamEnd. psimpl. rewrite Ht.
  cbn [insert list_insert].
  erewrite step_task; [|reflexivity|by apply taskStep_clear].
  cbn [mbind option_bind]. unfold afterStream. rewrite He. psimpl.
  cbn [insert list_insert]. eexists. split; [reflexivity|]. psimpl. done.
Qed.

(** C8, the claim as stated fails: [Skip] cancels the context of the
    streaming [trackA] while its goroutine is about to read, and the read
    finds the end of the stream: [streamTrack] returns nil (completed), not
    [context.Canceled]. *)
Lemma pipeline_outcomes_counterexample :
  reachable wAtRead ∧ tasks wAtRead = [TaskRead 0%nat] ∧
  cancelPlayback (pl wAtRead) = Some 0%nat ∧
  current (pl wAtRead) = Some trackA ∧
  (Skip wAtRead).1 = true ∧ 0%nat ∈ canceled (Skip wAtRead).2 ∧
  taskStep envOk (TaskRead 0%nat) (Skip wAtRead).2
  = Some (Some (TaskClear None), streamEnd (set_stdout [] (Skip wAtRead).2)).
Proof.
  split; [exists evsAtRead; vm_compute; reflexivity|].
  do 4 (split; [vm_compute; reflexivity|]).
  split; [apply Skip_cancels; vm_compute; reflexivity|].
  apply taskStep_read_end; [reflexivity|]. vm_compute. lia.
Qed.

(** C8, amended: a read that meets the end of the stream, with no byte or
    with a partial frame left, makes [streamTrack] return nil (completed),
    whether or not the context is cancelled.  [Skip] and [Stop] cancel the
    context of the installed handle, and a pipeline whose context is
    cancelled returns [context.Canceled] at its next cancellation check
    (the loop top, and the done case of either select).  A read error and
    an encode error make it return a wrapped error (failed).  Whatever the
    outcome, [playLoop] clears the handle and goes on to [nextTrack]; for
    Canceled it does exactly what it does for completed and logs nothing,
    and for a failure it does the same and logs the error, an error being
    a cancellation exactly when [context.Canceled] is at the end of its
    chain of wrappings. *)
Theorem pipeline_outcomes (env : Env) (c : Ctx) (w : World) :
  (readErr env = None → (length (stdout w) < Z.to_nat byteBufLen)%nat →
     taskStep env (TaskRead c) w
     = Some (Some (TaskClear None), streamEnd (set_stdout [] w))) ∧
  (cancelPlayback (pl w) = Some c →
     c ∈ canceled (Skip w).2 ∧ c ∈ canceled (Stop w).2) ∧
  (c ∈ canceled w →
     taskStep env (TaskCheck c) w
     = Some (Some (TaskClear (Some ErrCanceled)), streamEnd w) ∧
     (pick env = CaseDone →
        taskStep env (TaskSelect c) w
        = Some (Some (TaskClear (Some ErrCanceled)), streamEnd w) ∧
        ∀ packet, taskStep env (TaskSend c packet) w
                  = Some (Some (TaskClear (Some ErrCanceled)), streamEnd w))) ∧
  (∀ e, readErr env = Some e →
     taskStep env (TaskRead c) w
     = Some (Some (TaskClear (Some (ErrWrap "pcm read" e))), streamEnd w)) ∧
  (∀ e bytes rest,
     readErr env = None → ReadFull (stdout w) = ReadFrame bytes rest →
     encode env (decodePCM bytes) = inl e →
     taskStep env (TaskRead c) w
     = Some (Some (TaskClear (Some (ErrWrap "opus encode" e))),
             streamEnd (set_stdout rest w))) ∧
  (parked w = None →
     ∀ err, taskStep env (TaskClear err) w
            = Some (Some TaskNext, afterStream err w)) ∧
  afterStream (Some ErrCanceled) w = afterStream None w ∧
  (∀ e, isCanceled e = false →
     afterStream (Some e) w = emit (OutLog e) (afterStream None w) ∧
     pl (afterStream (Some e) w) = pl (afterStream None w) ∧
     tasks (afterStream (Some e) w) = tasks (afterStream None w)) ∧
  (isCanceled ErrCanceled = true ∧
   (∀ msg, isCanceled (ErrOther msg) = false) ∧
   ∀ prefix e, isCanceled (ErrWrap prefix e) = isCanceled e) ∧
  (parked w = None → tasks w = [TaskCheck c] → c ∈ canceled w →
     ∃ w', run [EvTask 0 env; EvTask 0 env] w = Some w' ∧
           tasks w' = [TaskNext] ∧ cancelPlayback (pl w') = None ∧
           out w' = OutKillReap :: OutSpeaking false :: out w) ∧
  (∀ msg, parked w = None → tasks w = [TaskRead c] →
     readErr env = Some (ErrOther msg) →
     ∃ w', run [EvTask 0 env; EvTask 0 env] w = Some w' ∧
           tasks w' = [TaskNext] ∧ cancelPlayback (pl w') = None ∧
           out w' = OutLog (ErrWrap "pcm read" (ErrOther msg))
                    :: OutKillReap :: OutSpeaking false :: out w) ∧
  (∀ msg bytes rest, parked w = None → tasks w = [TaskRead c] →
     readErr env = None → ReadFull (stdout w) = ReadFrame bytes rest →
     encode env (decodePCM bytes) = inl (ErrOther msg) →
     ∃ w', run [EvTask 0 env; EvTask 0 env] w = Some w' ∧
           tasks w' = [TaskNext] ∧ cancelPlayback (pl w') = None ∧
           stdout w' = rest ∧
           out w' = OutLog (ErrWrap "opus encode" (ErrOther msg))
                    :: OutKillReap :: OutSpeaking false :: out w).
Proof.
  split; [apply taskStep_read_end|].
  split; [intros H; split; [by apply Skip_cancels|by apply Stop_cancels]|].
  split.
  { intros H. split; [by apply taskStep_check_canceled|].
    intros Hp. split; [by apply taskStep_select_canceled|].
    intros packet. by apply taskStep_send_canceled. }
  split; [intros e; apply taskStep_read_error|].
  split; [intros e bytes rest; apply taskStep_encode_error|].
  split; [intros Hp err; by apply taskStep_clear|].
  split; [reflexivity|].
  split; [intros e He; unfold afterStream; rewrite He; repeat split|].
  split; [repeat split|].
  split; [|split].
  - intros Hp Ht Hc. cbn [run].
    erewrite step_task; [|by rewrite Ht|by apply taskStep_check_canceled].
    cbn [mbind option_bind]. unfold streamEnd. psimpl. rewrite Ht.
    cbn [insert list_insert].
    erewrite step_task; [|reflexivity|by apply taskStep_clear].
    cbn [mbind option_bind]. unfold afterStream. cbn [isCanceled]. psimpl.
    cbn [insert list_insert]. eexists. split; [reflexivity|]. psimpl. done.
  - intros msg Hp Ht Hr.
    apply (read_failure_logged env c); [done|done| |reflexivity].
    by apply taskStep_read_error.
  - intros msg bytes rest Hp Ht Hr Hf He. cbn [run].
    erewrite step_task;
      [|by rewrite Ht|by eapply taskStep_encode_error].
    cbn [mbind option_bind]. unfold streamEnd. psimpl. rewrite Ht.
    cbn [insert list_insert].
    erewrite step_task; [|reflexivity|by apply taskStep_clear].
    cbn [mbind option_bind]. unfold afterStream. cbn [isCanceled]. psimpl.
    cbn [insert list_insert]. eexists. split; [reflexivity|]. psimpl. done.
Qed.

Lemma pipeline_outcomes_witness :
  taskStep envOk (TaskRead 0%nat) wStreamingA
  = Some (Some (TaskClear None), streamEnd (set_stdout [] wStreamingA)) ∧
  taskStep envOk (TaskCheck 0%nat) (Skip wStreamingA).2
  = Some (Some (TaskClear (Some ErrCanceled)), streamEnd (Skip wStreamingA).2) ∧
  ∃ w', run [EvTask 0 envBroken; EvTask 0 envBroken] wAtRead = Some w' ∧
        tasks w' = [TaskNext] ∧ cancelPlayback (pl w') = None ∧
        out w' = OutLog (ErrWrap "pcm read" (ErrOther "broken pipe"))
                 :: OutKillReap :: OutSpeaking false :: out wAtRead.
Proof.
  assert (H1 : readErr envOk = None) by reflexivity.
  assert (H2 : (length (stdout wStreamingA) < Z.to_nat byteBufLen)%nat)
    by (vm_compute; lia).
  assert (H3 : cancelPlayback (pl wStreamingA) = Some 0%nat)
    by (vm_compute; reflexivity).
  assert (H4 : parked wAtRead = None) by (vm_compute; reflexivity).
  assert (H5 : tasks wAtRead = [TaskRead 0%nat]) by (vm_compute; reflexivity).
  split; [|split].
  - exact (proj1 (pipeline_outcomes envOk 0%nat wStreamingA) H1 H2).
  - exact (proj1 (proj1 (proj2 (proj2
             (pipeline_outcomes envOk 0%nat (Skip wStreamingA).2)))
             (proj1 (proj1 (proj2
                (pipeline_outcomes envOk 0%nat wStreamingA)) H3)))).
  - exact (proj1 (proj2 (proj2 (proj2 (proj2 (proj2 (proj2 (proj2 (proj2
             (proj2 (proj2 (pipeline_outcomes envBroken 0%nat wAtRead))))))))))) 
             "broken pipe"%string H4 H5 eq_refl).
Defined.

(* ===================================================================== *)
(** ** Play order *)
(* ===================================================================== *)

Lemma nextTrack_lineup w :
  (nextTrack w).1.1 = head (lineup w) ∧
  current (pl (nextTrack w).2) = head (lineup w) ∧
  queue (pl (nextTrack w).2) = tail (lineup w) ∧
  loop (pl (nextTrack w).2) = loop (pl w) ∧
  (nextTrack w).1.2 = false ∧
  playing (pl (nextTrack w).2) = playing (pl w) ∧
  tasks (nextTrack w).2 = tasks w ∧ out (nextTrack w).2 = out w.
Proof.
  unfold nextTrack, lineup. psimpl.
  destruct (loop (pl w)) eqn:Hl; destruct (current (pl w)) as [c|] eqn:Hc;
    psimpl.
  1: destruct (queue (pl w) ++ [c]) eqn:Hq; psimpl; rewrite ?Hl; done.
  all: destruct (queue (pl w)) eqn:Hq; psimpl; rewrite ?Hl; done.
Qed.

Lemma nextTrack_loop_reinserts w c :
  loop (pl w) = true → current (pl w) = Some c →
  ∃ t, (nextTrack w).1.1 = Some t ∧ current (pl (nextTrack w).2) = Some t ∧
       t :: queue (pl (nextTrack w).2) = queue (pl w) ++ [c] ∧
       loop (pl (nextTrack w).2) = true.
Proof.
  intros Hl Hc.
  destruct (nextTrack_lineup w) as (H1 & H2 & H3 & H4 & _).
  unfold lineup in *. rewrite Hl, Hc in *.
  destruct (queue (pl w) ++ [c]) as [|t l] eqn:Hq.
  - by apply app_nil in Hq as [_ ?].
  - exists t. simpl in *. by rewrite H3.
Qed.

Lemma taskStep_loop env t w t' w' :
  taskStep env t w = Some (t', w') → loop (pl w') = loop (pl w).
Proof.
  intros H.
  destruct t; cbn [taskStep] in H;
    unfold finish, scheduleDisconnectLocked, nextTrack in H.
  all: repeat (case_match; try done).
  all: simplify_eq; psimpl; try reflexivity.
Qed.

Lemma step_loop e w w' :
  step e w = Some w' → writesLoop e = false → loop (pl w') = loop (pl w).
Proof.
  intros Hstep Hw. destruct e; try done.
  6: { apply step_task_inv in Hstep as (t & t' & w1 & Hi & Ht & ->).
       apply taskStep_loop in Ht. by destruct t'. }
  5: { by apply step_timer_inv in Hstep as [_ ->]. }
  all: unfold step in Hstep;
    destruct (bool_decide (parked w ≠ None)); [done|].
  - injection Hstep as <-. unfold EnsureConnected. pcases; done.
  - injection Hstep as <-. unfold Enqueue, cancelDisconnectTimerLocked.
    psimpl. destruct (disconnectTimer (pl w)); psimpl;
      destruct (playing (pl w)); psimpl; done.
  - injection Hstep as <-. unfold Pause. pcases; done.
  - injection Hstep as <-. unfold Shutdown.
    destruct (cancelPlayback (pl w)); psimpl;
      destruct (voice (pl w)); psimpl; done.
  - destruct (0 <? fired w)%nat; [|done]. injection Hstep as <-.
    unfold disconnectFired. psimpl. destruct (voice (pl w)); psimpl; done.
Qed.

Lemma taskStep_tasks env t w t' w' :
  taskStep env t w = Some (t', w') →
  tasks w' = tasks w ∧
  match t' with
  | Some _ => playing (pl w') = playing (pl w)
  | None => playing (pl w') = false
  end.
Proof.
  intros H.
  destruct t; cbn [taskStep] in H;
    unfold finish, scheduleDisconnectLocked, nextTrack in H.
  all: repeat (case_match; try done).
  all: simplify_eq; psimpl; done.
Qed.

Lemma taskInv_step w e w' : taskInv w → step e w = Some w' → taskInv w'.
Proof.
  intros Hinv Hstep. unfold taskInv in *. destruct e.
  9: { apply step_task_inv in Hstep as (t & t' & w1 & Hi & Ht & ->).
       apply taskStep_tasks in Ht as [Hts Hpl].
       destruct Hinv as [[Hp Hn]|[Hp [t0 Hn]]]; rewrite Hn in Hi; [done|].
       destruct i; [|done]. injection Hi as ->.
       destruct t' as [t1|]; psimpl; rewrite Hts, Hn.
       - right. rewrite Hpl. split; [done|]. by exists t1.
       - left. done. }
  8: { by apply step_timer_inv in Hstep as [_ ->]. }
  all: unfold step in Hstep;
    destruct (bool_decide (parked w ≠ None)); [done|].
  - injection Hstep as <-. unfold EnsureConnected. pcases; done.
  - injection Hstep as <-. unfold Enqueue, cancelDisconnectTimerLocked.
    psimpl. destruct Hinv as [[Hp Hn]|[Hp [t0 Hn]]];
      destruct (disconnectTimer (pl w)); psimpl; rewrite ?Hp, ?Hn; psimpl.
    1,2: right; split; [done|]; by exists TaskNext.
    all: right; split; [done|]; by exists t0.
  - injection Hstep as <-. unfold Skip. pcases; done.
  - injection Hstep as <-. unfold Pause. pcases; done.
  - injection Hstep as <-. unfold Stop.
    destruct (cancelPlayback (pl w)); psimpl; done.
  - injection Hstep as <-. unfold ToggleLoop. pcases; done.
  - injection Hstep as <-. unfold Shutdown.
    destruct (cancelPlayback (pl w)); psimpl;
      destruct (voice (pl w)); psimpl; done.
  - destruct (0 <? fired w)%nat; [|done]. injection Hstep as <-.
    unfold disconnectFired. psimpl. destruct (voice (pl w)); psimpl; done.
Qed.

Lemma taskInv_reachable w : reachable w → taskInv w.
Proof.
  revert w. apply reachable_ind.
  - by left.
  - intros w e w' _ Hinv Hstep. by eapply taskInv_step.
Qed.

Lemma enqueued_app es1 es2 : enqueued (es1 ++ es2) = enqueued es1 ++ enqueued es2.
Proof.
  induction es1 as [|e es1 IH]; [done|]. destruct e; simpl; by rewrite ?IH.
Qed.

Lemma taskStep_fifo env t w t' w1 :
  loop (pl w) = false → taskStep env t w = Some (t', w1) →
  announced (out w1)
    ++ dequeued (match t' with Some t1 => [t1] | None => [] end)
    ++ queue (pl w1)
  = announced (out w) ++ dequeued [t] ++ queue (pl w).
Proof.
  intros Hl H.
  destruct t; cbn [taskStep] in H;
    unfold finish, scheduleDisconnectLocked, nextTrack in H; psimpl;
    rewrite ?Hl in H.
  all: repeat (case_match; try done).
  all: simplify_eq; psimpl; cbn [announced dequeued app];
    rewrite ?app_nil_r; try done.
  all: try (by rewrite <- app_assoc).
  all: match goal with H : queue (pl _) = _ |- _ => by rewrite H end.
Qed.

(** In a run without [Stop] and [ToggleLoop], the tracks announced so far,
    the track taken off the queue and not announced yet, and the queue make
    up the tracks enqueued, in the order of the calls. *)
Lemma fifo_run es w :
  Forall (fun e => plain e = true) es → run es NewWorld = Some w →
  announced (out w) ++ dequeued (tasks w) ++ queue (pl w) = enqueued es ∧
  loop (pl w) = false.
Proof.
  revert w. induction es as [|e es IH] using rev_ind; intros w Hpl Hrun.
  - simpl in Hrun. by injection Hrun as <-.
  - apply Forall_app in Hpl as [Hpl He]. apply Forall_inv in He.
    rewrite run_app in Hrun.
    destruct (run es NewWorld) as [w0|] eqn:Hrun0; [|done].
    cbn [mbind option_bind run] in Hrun.
    destruct (step e w0) as [w1|] eqn:Hstep; [|done].
    cbn [mbind option_bind] in Hrun. injection Hrun as <-.
    destruct (IH w0 Hpl eq_refl) as [Hf Hl].
    assert (reachable w0) as Hr by by exists es.
    pose proof (taskInv_reachable w0 Hr) as Hti.
    rewrite enqueued_app, <- Hf.
    destruct e; cbn [plain] in He; try discriminate He.
    7: { apply step_task_inv in Hstep as (t & t' & w2 & Hi & Ht & ->).
         pose proof (taskStep_fifo _ _ _ _ _ Hl Ht) as Hff.
         pose proof (taskStep_loop _ _ _ _ _ Ht) as Hll.
         pose proof (taskStep_tasks _ _ _ _ _ Ht) as [Hts _].
         destruct Hti as [[_ Hn]|[_ [t0 Hn]]]; rewrite Hn in Hi; [done|].
         destruct i; [|done]. injection Hi as ->.
         rewrite Hn. cbn [enqueued]. rewrite app_nil_r, <- Hff.
         destruct t'; psimpl; rewrite Hts, Hn, ?Hll; done. }
    6: { apply step_timer_inv in Hstep as [_ ->]. cbn [enqueued].
         rewrite app_nil_r. done. }
    all: unfold step in Hstep;
      destruct (bool_decide (parked w0 ≠ None)); [done|].
    + injection Hstep as <-. cbn [enqueued]. rewrite app_nil_r.
      unfold EnsureConnected. pcases; done.
    + injection Hstep as <-. cbn [enqueued].
      unfold Enqueue, cancelDisconnectTimerLocked. psimpl.
      destruct Hti as [[Hp Hn]|[Hp [t0 Hn]]];
        destruct (disconnectTimer (pl w0)); psimpl; rewrite ?Hp, ?Hn; psimpl.
      all: rewrite ?Hn; cbn [app dequeued].
      all: split; [by rewrite <- !app_assoc | done].
    + injection Hstep as <-. cbn [enqueued]. rewrite app_nil_r.
      unfold Skip. pcases; done.
    + injection Hstep as <-. cbn [enqueued]. rewrite app_nil_r.
      unfold Pause. pcases; done.
    + injection Hstep as <-. cbn [enqueued]. rewrite app_nil_r.
      unfold Shutdown. destruct (cancelPlayback (pl w0)); psimpl;
        destruct (voice (pl w0)); psimpl; done.
    + destruct (0 <? fired w0)%nat; [|done].
      injection Hstep as <-. cbn [enqueued]. rewrite app_nil_r.
      unfold disconnectFired. psimpl. destruct (voice (pl w0)); psimpl; done.
Qed.

(** C3: [Enqueue] appends at the tail and [nextTrack] takes the head, so
    tracks are played in the order of their [Enqueue] calls (in a run
    without [Stop] and [ToggleLoop] the tracks announced, the one just
    dequeued and the queue are the enqueued tracks in call order).  The one
    exception: with [loop] true and a current track, [nextTrack] first
    re-inserts the current track at the tail, once, then takes the head as
    the new current track.  [loop] is written by [ToggleLoop], [Stop] and
    [Skip] only: every other event, [nextTrack] included, leaves it as it
    is. *)
Theorem fifo_and_loop :
  (∀ track w, queue (pl (Enqueue track w).2) = queue (pl w) ++ [track]) ∧
  (∀ w, (nextTrack w).1.1 = head (lineup w) ∧
        current (pl (nextTrack w).2) = head (lineup w) ∧
        queue (pl (nextTrack w).2) = tail (lineup w) ∧
        loop (pl (nextTrack w).2) = loop (pl w)) ∧
  (∀ w c, loop (pl w) = true → current (pl w) = Some c →
     ∃ t, (nextTrack w).1.1 = Some t ∧
          current (pl (nextTrack w).2) = Some t ∧
          t :: queue (pl (nextTrack w).2) = queue (pl w) ++ [c] ∧
          loop (pl (nextTrack w).2) = true) ∧
  (∀ e w w', step e w = Some w' → writesLoop e = false →
     loop (pl w') = loop (pl w)) ∧
  (∀ es w, Forall (fun e => plain e = true) es → run es NewWorld = Some w →
     announced (out w) ++ dequeued (tasks w) ++ queue (pl w) = enqueued es).
Proof.
  split; [intros track w; apply (Enqueue_effect track w)|].
  split.
  { intros w. destruct (nextTrack_lineup w) as (? & ? & ? & ? & _). done. }
  split; [apply nextTrack_loop_reinserts|].
  split; [apply step_loop|].
  intros es w Hpl Hrun. by destruct (fifo_run es w Hpl Hrun).
Qed.

Lemma fifo_and_loop_witness :
  (announced (out wQueued) ++ dequeued (tasks wQueued) ++ queue (pl wQueued)
   = enqueued evsQueued) ∧
  (∃ t, (nextTrack wLoopingA).1.1 = Some t ∧
        current (pl (nextTrack wLoopingA).2) = Some t ∧
        t :: queue (pl (nextTrack wLoopingA).2)
        = queue (pl wLoopingA) ++ [trackA] ∧
        loop (pl (nextTrack wLoopingA).2) = true).
Proof.
  assert (H1 : Forall (fun e => plain e = true) evsQueued)
    by (unfold evsQueued, evsStreamingA, evsJoined; cbn [app];
        repeat constructor).
  assert (H2 : run evsQueued NewWorld = Some wQueued)
    by (vm_compute; reflexivity).
  assert (H3 : loop (pl wLoopingA) = true) by (vm_compute; reflexivity).
  assert (H4 : current (pl wLoopingA) = Some trackA)
    by (vm_compute; reflexivity).
  split.
  - exact (proj2 (proj2 (proj2 (proj2 fifo_and_loop))) evsQueued wQueued
                 H1 H2).
  - exact (proj1 (proj2 (proj2 fifo_and_loop)) wLoopingA trackA H3 H4).
Defined.

(* ===================================================================== *)
(** ** The arguments of the decode subprocess *)
(* ===================================================================== *)


Lemma append_nil_l (b : string) : ("" +:+ b = b)%string.
Proof. reflexivity. Qed.














Example headersToLines_trackB :
  headersToLines (HTTPHeaders trackB)
  = ("Accept: */*" +:+ CRLF +:+ "User-Agent: kvazar" +:+ CRLF)%string.
Proof. vm_compute. reflexivity. Qed.

(* ===================================================================== *)
(** ** HumanDuration *)
(* ===================================================================== *)

Lemma roundHalfEven_bounds n d :
  0 < d -> n / d <= roundHalfEven n d <= n / d + 1 /\
           (n mod d = 0 -> roundHalfEven n d = n / d).
Proof.
  intros Hd. unfold roundHalfEven.
  pose proof (Z.mod_pos_bound n d Hd) as Hr.
  destruct (2 * (n mod d) <? d) eqn:E1; [lia|].
  apply Z.ltb_ge in E1.
  destruct (d <? 2 * (n mod d)) eqn:E2; [lia|].
  destruct (Z.even (n / d)); lia.
Qed.

Lemma roundHalfEven_le n d y :
  0 < d -> n <= y * d -> roundHalfEven n d <= y.
Proof.
  intros Hd H.
  destruct (roundHalfEven_bounds n d Hd) as [[_ Hu] Hz].
  pose proof (Z.div_mod n d ltac:(lia)) as Hdm.
  pose proof (Z.mod_pos_bound n d Hd) as Hr.
  destruct (Z.eq_dec (n mod d) 0) as [E|E].
  - rewrite (Hz E). nia.
  - assert (n / d < y) by nia. lia.
Qed.

Lemma roundHalfEven_ge n d y :
  0 < d -> y * d <= n -> y <= roundHalfEven n d.
Proof.
  intros Hd H.
  destruct (roundHalfEven_bounds n d Hd) as [[Hl _] _].
  pose proof (Z.div_mod n d ltac:(lia)) as Hdm.
  pose proof (Z.mod_pos_bound n d Hd) as Hr.
  assert (y <= n / d) by nia. lia.
Qed.

Lemma roundHalfEven_near n d :
  0 < d -> 2 * (roundHalfEven n d * d) <= 2 * n + d.
Proof.
  intros Hd. unfold roundHalfEven.
  pose proof (Z.div_mod n d ltac:(lia)) as Hdm.
  pose proof (Z.mod_pos_bound n d Hd) as Hr.
  destruct (2 * (n mod d) <? d) eqn:E1.
  - nia.
  - apply Z.ltb_ge in E1. destruct (d <? 2 * (n mod d)) eqn:E2.
    + apply Z.ltb_lt in E2. nia.
    + apply Z.ltb_ge in E2. destruct (Z.even (n / d)); nia.
Qed.

Lemma pow2_pos e : 0 <= e -> 0 < 2 ^ e.
Proof. intros. apply Z.pow_pos_nonneg; lia. Qed.

Lemma roundPos_le n d y :
  0 <= n -> 0 < d -> representable y -> n <= y * d -> roundPos n d <= y.
Proof.
  intros Hn Hd (m & E & HE & Hm & ->) H. unfold roundPos.
  destruct (n / d <? 2 ^ 52) eqn:Hq; [by apply roundHalfEven_le|].
  apply Z.ltb_ge in Hq.
  assert (0 < n / d) as Hqpos by lia.
  pose proof (Z.log2_spec (n / d) Hqpos) as [Hlo Hhi].
  pose proof (Z.log2_nonneg (n / d)) as Hlnn.
  set (L := Z.log2 (n / d)) in *.
  assert (52 <= L) as HL.
  { apply Z.log2_le_pow2; lia. }
  set (e := L - 52).
  assert (n / d <= m * 2 ^ E) as Hqy.
  { apply Z.div_le_upper_bound; lia. }
  pose proof (pow2_pos E HE) as HpE.
  assert (2 ^ L < 2 ^ (53 + E)) as Hlt.
  { rewrite Z.pow_add_r by lia. nia. }
  apply Z.pow_lt_mono_r_iff in Hlt; [|lia|lia].
  assert (e <= E) as HeE by (unfold e; lia).
  assert (2 ^ E = 2 ^ (E - e) * 2 ^ e) as HEe.
  { rewrite <- Z.pow_add_r by lia. f_equal. lia. }
  pose proof (pow2_pos e ltac:(unfold e; lia)) as Hpe.
  rewrite HEe, Z.mul_assoc.
  apply Z.mul_le_mono_nonneg_r; [lia|].
  apply roundHalfEven_le; [nia|]. rewrite HEe in H. nia.
Qed.

Lemma roundPos_ge n d y :
  0 <= n -> 0 < d -> representable y -> y * d <= n -> y <= roundPos n d.
Proof.
  intros Hn Hd (m & E & HE & Hm & ->) H. unfold roundPos.
  destruct (n / d <? 2 ^ 52) eqn:Hq; [by apply roundHalfEven_ge|].
  apply Z.ltb_ge in Hq.
  assert (0 < n / d) as Hqpos by lia.
  pose proof (Z.log2_spec (n / d) Hqpos) as [Hlo Hhi].
  set (L := Z.log2 (n / d)) in *.
  assert (52 <= L) as HL.
  { apply Z.log2_le_pow2; lia. }
  set (e := L - 52).
  pose proof (pow2_pos E HE) as HpE.
  pose proof (pow2_pos e ltac:(unfold e; lia)) as Hpe.
  pose proof (Z.mul_div_le n d Hd) as Hmd.
  assert (2 ^ L = 2 ^ 52 * 2 ^ e) as HLe.
  { rewrite <- Z.pow_add_r by (unfold e; lia). f_equal. unfold e. lia. }
  assert (2 ^ 52 <= roundHalfEven n (d * 2 ^ e)) as Hbig.
  { apply roundHalfEven_ge; [nia|]. nia. }
  destruct (Z_le_gt_dec e E) as [HeE|HeE].
  - assert (2 ^ E = 2 ^ (E - e) * 2 ^ e) as HEe.
    { rewrite <- Z.pow_add_r by lia. f_equal. lia. }
    rewrite HEe, Z.mul_assoc.
    apply Z.mul_le_mono_nonneg_r; [lia|].
    apply roundHalfEven_ge; [nia|]. rewrite HEe in H. nia.
  - assert (2 ^ e = 2 ^ (e - E - 1) * 2 * 2 ^ E) as HeE'.
    { replace (2 ^ (e - E - 1) * 2) with (2 ^ (e - E - 1) * 2 ^ 1) by lia.
      rewrite <- !Z.pow_add_r by lia. f_equal. lia. }
    pose proof (pow2_pos (e - E - 1) ltac:(lia)) as Hp1.
    assert (m * 2 ^ E <= 2 ^ 52 * 2 ^ e) as Hy.
    { rewrite HeE'. change (2 ^ 53) with (2 ^ 52 * 2) in Hm. nia. }
    nia.
Qed.

Lemma roundPos_exact y : 0 <= y -> representable y -> roundPos y 1 = y.
Proof.
  intros Hy Hr. apply Z.le_antisymm.
  - apply roundPos_le; [done|lia|done|lia].
  - apply roundPos_ge; [done|lia|done|lia].
Qed.

Lemma roundPos_near n k :
  0 <= n -> 0 <= k -> n < 2 ^ (53 + k) -> 2 * roundPos n 1 <= 2 * n + 2 ^ k.
Proof.
  intros Hn Hk Hlt. unfold roundPos. rewrite Z.div_1_r.
  pose proof (pow2_pos k Hk) as Hpk.
  destruct (n <? 2 ^ 52) eqn:Hq.
  - destruct (roundHalfEven_bounds n 1 ltac:(lia)) as [_ Hz].
    rewrite Hz by apply Z.mod_1_r. rewrite Z.div_1_r. lia.
  - apply Z.ltb_ge in Hq.
    assert (52 <= Z.log2 n) as HL by (apply Z.log2_le_pow2; lia).
    assert (Z.log2 n < 53 + k) as HL2 by (apply Z.log2_lt_pow2; lia).
    set (e := Z.log2 n - 52) in *.
    pose proof (roundHalfEven_near n (1 * 2 ^ e)
                  ltac:(pose proof (pow2_pos e ltac:(lia)); lia)) as Hnear.
    assert (2 ^ e <= 2 ^ k) by (apply Z.pow_le_mono_r; lia).
    lia.
Qed.

Lemma round_nonneg n d : 0 <= n -> 0 < d -> round n d = roundPos n d.
Proof.
  intros Hn Hd. unfold round. destruct (Z.eq_dec n 0) as [->|Hne].
  - symmetry. apply Z.le_antisymm.
    + apply roundPos_le; [lia|lia| |lia]. exists 0, 0. lia.
    + apply roundPos_ge; [lia|lia| |lia]. exists 0, 0. lia.
  - rewrite Z.sgn_pos, Z.abs_eq by lia. lia.
Qed.

Lemma representable_scaled z : 0 <= z < 2 ^ 53 -> representable (z * scale).
Proof. intros Hz. exists z, 1074. unfold scale. lia. Qed.

Lemma ofInt_exact z : 0 <= z < 2 ^ 53 -> ofInt z = z * scale.
Proof.
  intros Hz. unfold ofInt.
  assert (0 < scale) by (unfold scale; by apply pow2_pos).
  rewrite round_nonneg by nia.
  apply roundPos_exact; [nia|by apply representable_scaled].
Qed.

(** Below 2^24 seconds the sum [float64(sec) + float64(nsec)/1e9], cut to an
    integer, is [sec]. *)
Lemma floatSeconds_floor sec nsec :
  0 <= sec < 2 ^ 24 -> 0 <= nsec < 1000000000 ->
  toInt (add (ofInt sec) (div (ofInt nsec) (ofInt 1000000000))) = sec.
Proof.
  intros Hs Hn.
  rewrite !ofInt_exact by lia.
  assert (scale = 2 ^ 40 * 2 ^ 1034) as HS
    by (unfold scale; rewrite <- Z.pow_add_r by lia; reflexivity).
  assert (0 < 2 ^ 1034) as HU by by apply pow2_pos.
  assert (2 ^ 1045 = 2 ^ 11 * 2 ^ 1034) as H1045
    by (rewrite <- Z.pow_add_r by lia; reflexivity).
  assert (2 ^ (53 + 1045) = 2 ^ 24 * scale) as H1098
    by (unfold scale; rewrite <- Z.pow_add_r by lia; reflexivity).
  set (U := 2 ^ 1034) in *.
  assert (0 < scale) as HSpos by lia.
  (* the quotient *)
  set (q := div (nsec * scale) (1000000000 * scale)).
  assert (0 <= q <= (2 ^ 40 - 2 ^ 10 - 1) * U) as Hq.
  { unfold q, div.
    rewrite Z.sgn_pos, Z.abs_eq, Z.mul_1_l by lia.
    rewrite round_nonneg by nia. split.
    - apply roundPos_ge; [nia|lia| |nia].
      exists 0, 0. lia.
    - apply roundPos_le; [nia|lia| |].
      + exists (2 ^ 40 - 2 ^ 10 - 1), 1034. fold U. lia.
      + rewrite HS. 
        assert (nsec * 2 ^ 40 <= (2 ^ 40 - 2 ^ 10 - 1) * 1000000000) by lia.
        nia. }
  (* the sum *)
  unfold add. rewrite round_nonneg by nia.
  set (s := roundPos (sec * scale + q) 1).
  assert (sec * scale <= s) as Hlo.
  { unfold s. apply roundPos_ge; [nia|lia| |lia].
    apply representable_scaled. lia. }
  assert (s < (sec + 1) * scale) as Hhi.
  { pose proof (roundPos_near (sec * scale + q) 1045 ltac:(nia) ltac:(lia))
      as Hnear.
    fold s in Hnear. rewrite H1098, H1045 in Hnear.
    assert (sec * scale + q < 2 ^ 24 * scale) as Hb by nia.
    specialize (Hnear Hb). rewrite HS in *. nia. }
  unfold toInt. rewrite Z.quot_div_nonneg by nia.
  symmetry. apply Z.div_unique with (r := s - sec * scale); lia.
Qed.

Lemma hasColon_app a b : hasColon (a +:+ ":" +:+ b) = true.
Proof.
  induction a as [|c a IH].
  - reflexivity.
  - change (hasColon (String c (a +:+ ":" +:+ b)) = true).
    cbn [hasColon]. rewrite IH. apply orb_true_r.
Qed.

Lemma colon_not_live a b : (a +:+ ":" +:+ b)%string ≠ "live"%string.
Proof.
  intros H. pose proof (hasColon_app a b) as Hc. rewrite H in Hc.
  discriminate Hc.
Qed.

Lemma fmt02_two_digits n :
  0 <= n < 100 →
  fmt02 n = String (digitChar (n / 10)) (String (digitChar (n mod 10)) "").
Proof.
  intros Hn. rewrite <- (Z2Nat.id n) by lia.
  assert (Z.to_nat n < 100)%nat as Hk by lia.
  revert Hk. generalize (Z.to_nat n). clear n Hn. intros k Hk.
  do 100 (destruct k as [|k]; [vm_compute; reflexivity|]). lia.
Qed.

Lemma Seconds_floor d :
  0 <= d < 2 ^ 24 * Second → toInt (Seconds d) = d / Second.
Proof.
  intros Hd. unfold Seconds, Second in *.
  rewrite Z.quot_div_nonneg, Z.rem_mod_nonneg by lia.
  apply floatSeconds_floor.
  - split; [apply Z.div_pos; lia|]. apply Z.div_lt_upper_bound; lia.
  - apply Z.mod_pos_bound. lia.
Qed.

Lemma HumanDuration_live t : HumanDuration t = "live"%string ↔ Duration t = 0.
Proof.
  unfold HumanDuration. split.
  - destruct (Duration t =? 0) eqn:E; [intros _; by apply Z.eqb_eq|].
    destruct (0 <? _); intros H; by apply colon_not_live in H.
  - intros ->. reflexivity.
Qed.

Lemma HumanDuration_positive t :
  0 < Duration t < 2 ^ 24 * Second →
  let s := Duration t / Second in
  (s < 3600 →
     HumanDuration t = (fmt02 (s / 60) +:+ ":" +:+ fmt02 (s mod 60))%string) ∧
  (3600 <= s →
     HumanDuration t
     = (fmtD (s / 3600) +:+ ":" +:+ fmt02 (s mod 3600 / 60) +:+ ":"
          +:+ fmt02 (s mod 60))%string).
Proof.
  intros Hd s. unfold HumanDuration.
  rewrite (proj2 (Z.eqb_neq _ _)) by lia.
  rewrite Seconds_floor by lia. fold s.
  assert (0 <= s) as Hs by (apply Z.div_pos; unfold Second; lia).
  rewrite !Z.rem_mod_nonneg by lia.
  pose proof (Z.mod_pos_bound s 3600 ltac:(lia)) as Hm.
  rewrite !Z.quot_div_nonneg by lia.
  split; intros H.
  - rewrite Z.div_small, Z.mod_small by lia.
    rewrite Z.ltb_irrefl. reflexivity.
  - assert (0 < s / 3600) as Hh by (apply Z.div_str_pos; lia).
    rewrite (proj2 (Z.ltb_lt _ _) Hh). reflexivity.
Qed.

(** C10, amended: [HumanDuration] returns ["live"] exactly when
    [Duration == 0].  For a positive duration below 2^24 seconds (about 194
    days) the sub-second remainder is dropped: under one hour the result
    is [MM:SS], from one hour on [H:MM:SS], minutes and seconds as two
    digits, zero-padded. *)
Theorem HumanDuration_format (t : Track) :
  (HumanDuration t = "live"%string ↔ Duration t = 0) ∧
  (0 < Duration t < 2 ^ 24 * Second →
     let s := Duration t / Second in
     (s < 3600 →
        HumanDuration t
        = (fmt02 (s / 60) +:+ ":" +:+ fmt02 (s mod 60))%string) ∧
     (3600 <= s →
        HumanDuration t
        = (fmtD (s / 3600) +:+ ":" +:+ fmt02 (s mod 3600 / 60) +:+ ":"
             +:+ fmt02 (s mod 60))%string)) ∧
  (∀ n, 0 <= n < 60 →
     fmt02 n
     = String (digitChar (n / 10)) (String (digitChar (n mod 10)) "")).
Proof.
  split; [apply HumanDuration_live|].
  split; [apply HumanDuration_positive|].
  intros n Hn. apply fmt02_two_digits. lia.
Qed.

Lemma HumanDuration_format_witness :
  HumanDuration (trackOfDuration 3725999999999) = "1:02:05"%string ∧
  HumanDuration (trackOfDuration 59999999999) = "00:59"%string.
Proof.
  assert (H1 : 0 < Duration (trackOfDuration 3725999999999) < 2 ^ 24 * Second)
    by (vm_compute; split; reflexivity).
  assert (H2 : 3600 <= Duration (trackOfDuration 3725999999999) / Second)
    by (vm_compute; discriminate).
  assert (H3 : 0 < Duration (trackOfDuration 59999999999) < 2 ^ 24 * Second)
    by (vm_compute; split; reflexivity).
  assert (H4 : Duration (trackOfDuration 59999999999) / Second < 3600)
    by (vm_compute; reflexivity).
  split.
  - exact (proj2 (proj1 (proj2 (HumanDuration_format _)) H1) H2).
  - exact (proj1 (proj1 (proj2 (HumanDuration_format _)) H3) H4).
Defined.

(** C10, the claim as stated fails: for 2^24 seconds and 999999999
    nanoseconds, [Duration.Seconds] rounds the sum up to the next whole
    second in [float64], so [HumanDuration] shows 4660:20:17 where dropping
    the remainder gives 4660:20:16. *)
Lemma HumanDuration_truncation_counterexample :
  let t := trackOfDuration (2 ^ 24 * Second + 999999999) in
  3600 * Second <= Duration t ∧
  Duration t / Second = 16777216 ∧
  16777216 / 3600 = 4660 ∧ 16777216 mod 3600 / 60 = 20 ∧
  16777216 mod 60 = 16 ∧
  toInt (Seconds (Duration t)) = 16777217 ∧
  HumanDuration t = "4660:20:17"%string ∧
  HumanDuration t
  ≠ (fmtD (16777216 / 3600) +:+ ":" +:+ fmt02 (16777216 mod 3600 / 60)
       +:+ ":" +:+ fmt02 (16777216 mod 60))%string.
Proof.
  vm_compute. repeat split; try discriminate.
Qed.

Example Seconds_agrees_with_SpecFloat :
  forallb agreesAt
          [1; 999999999; 1000000000; 59999999999; 3725999999999;
           2 ^ 24 * Second - 1; 2 ^ 24 * Second + 999999999;
           -1; -1500000001; 9223372036854775807; -9223372036854775808]
  = true.
Proof. vm_compute. reflexivity. Qed.

(* ===================================================================== *)
(** ** The cancellation handle *)
(* ===================================================================== *)

Lemma handleInv_view w w' :
  handleView w' = handleView w → handleInv w → handleInv w'.
Proof. unfold handleView, handleInv. intros [= -> -> -> -> ->]. done. Qed.

Lemma handleInv_new : handleInv NewWorld.
Proof.
  split; [done|]. split; [done|]. intros c Hc.
  by apply not_elem_of_empty in Hc.
Qed.

(** The invariant sees the goroutines, the handle, the channel being there,
    the counter, and the cancelled contexts; cancelling the context of the
    handle keeps it. *)
Lemma handleInv_same w w' :
  handleInv w → tasks w' = tasks w →
  cancelPlayback (pl w') = cancelPlayback (pl w) →
  (pauseChan (pl w') = None ↔ pauseChan (pl w) = None) →
  fresh w' = fresh w →
  (∀ c, c ∈ canceled w' →
        c ∈ canceled w ∨ cancelPlayback (pl w) = Some c) →
  handleInv w'.
Proof.
  intros (H1 & H2 & H3) Ht Hh Hp Hf Hc. unfold handleInv.
  rewrite Ht, Hh, Hf. split; [|split; [done|]].
  - destruct (tasks w) as [|t [|]]; [| |done].
    + destruct H1 as [? ?]. split; [done|]. by apply Hp.
    + destruct t; destruct H1 as [? ?]; (split; [done|]);
        first [by apply Hp | by rewrite Hp].
  - intros c [Hin|Hin]%Hc; [by apply H3|by apply H2].
Qed.

Lemma handleInv_taskStep env t w t' w1 :
  tasks w = [t] → handleInv w → taskStep env t w = Some (t', w1) →
  handleInv (match t' with
             | Some t1 => set_tasks (<[0%nat := t1]> (tasks w1)) w1
             | None => set_tasks (delete 0%nat (tasks w1)) w1
             end).
Proof.
  intros Hts (H1 & H2 & H3) H. rewrite Hts in H1.
  pose proof (taskStep_tasks _ _ _ _ _ H) as [Hts1 _]. rewrite Hts in Hts1.
  destruct t; cbn [taskStep] in H;
    unfold finish, scheduleDisconnectLocked, nextTrack in H; psimpl.
  all: repeat (case_match; try done).
  all: simplify_eq; unfold handleInv; psimpl; rewrite ?Hts;
    cbn [insert list_insert delete list_delete streamCtx] in *.
  all: destruct H1 as [H1a H1b].
  all: split; [try done; try (by rewrite ?H1a, ?H1b)|].
  all: try (split; [intros ? ?; simplify_eq;
                    first [lia | by (apply Nat.lt_lt_succ_r; eapply H2)
                          | by eapply H2 | congruence]
                   |intros ? ?;
                    first [by eapply H3
                          | by (apply Nat.lt_lt_succ_r; eapply H3)]]).
Qed.

Ltac same_handle :=
  eapply handleInv_same; [eassumption|psimpl..];
  [reflexivity|reflexivity|done|reflexivity|
   first [ intros ? [?|?%elem_of_singleton]%elem_of_union; subst; by auto
         | by auto ]].

Lemma handleInv_step w e w' :
  taskInv w → handleInv w → step e w = Some w' → handleInv w'.
Proof.
  intros Hti Hinv Hstep. destruct e.
  9: { apply step_task_inv in Hstep as (t & t' & w1 & Hi & Ht & ->).
       destruct Hti as [[_ Hn]|[_ [t0 Hn]]]; rewrite Hn in Hi; [done|].
       destruct i; [|done]. injection Hi as ->.
       by eapply handleInv_taskStep. }
  8: { apply step_timer_inv in Hstep as [_ ->]. unfold timerFires.
       same_handle. }
  all: unfold step in Hstep;
    destruct (bool_decide (parked w ≠ None)); [done|].
  - injection Hstep as <-. unfold EnsureConnected.
    destruct (bool_decide (voice (pl w) = Some channelID)); psimpl; [done|].
    destruct (voice (pl w)); destruct joined; psimpl; same_handle.
  - injection Hstep as <-. destruct Hinv as (H1 & H2 & H3).
    unfold handleInv, Enqueue, cancelDisconnectTimerLocked. psimpl.
    destruct Hti as [[Hp Hn]|[Hp [t0 Hn]]]; rewrite Hn in H1;
      destruct (disconnectTimer (pl w)); psimpl; rewrite ?Hp; psimpl;
      rewrite ?Hn; cbn [app]; (split; [exact H1|by split]).
  - injection Hstep as <-. unfold Skip.
    destruct (cancelPlayback (pl w)) as [c|] eqn:Hc; psimpl; [|done].
    same_handle.
  - injection Hstep as <-. unfold Pause.
    destruct (negb (playing (pl w)) || bool_decide (current (pl w) = None));
      psimpl; [done|].
    destruct (pauseChan (pl w)) as [buf|] eqn:Hch; psimpl.
    + destruct (length buf <? 1)%nat; psimpl;
        (eapply handleInv_same; [eassumption|psimpl..];
         [reflexivity|reflexivity|by rewrite ?Hch|reflexivity|by auto]).
    + eapply handleInv_same; [eassumption|psimpl..];
        [reflexivity|reflexivity|done|reflexivity|by auto].
  - injection Hstep as <-. unfold Stop.
    destruct (cancelPlayback (pl w)) as [c|] eqn:Hc; psimpl; same_handle.
  - injection Hstep as <-. unfold ToggleLoop.
    destruct explicit; psimpl; [same_handle|].
    destruct (bool_decide (current (pl w) ≠ None)); psimpl;
      [same_handle|done].
  - injection Hstep as <-. unfold Shutdown.
    destruct (cancelPlayback (pl w)) as [c|] eqn:Hc; psimpl;
      destruct (voice (pl w)); psimpl; same_handle.
  - destruct (0 <? fired w)%nat; [|done]. injection Hstep as <-.
    unfold disconnectFired. psimpl.
    destruct (voice (pl w)); psimpl; same_handle.
Qed.

Lemma handleInv_reachable w : reachable w → handleInv w.
Proof.
  intros Hr. cut (taskInv w ∧ handleInv w); [by intros []|].
  revert w Hr. apply reachable_ind.
  - split; [by left|apply handleInv_new].
  - intros w e w' _ [Hti Hh] Hstep.
    split; [by eapply taskInv_step|by eapply handleInv_step].
Qed.

(** X3: The cancellation handle is installed exactly while the playback
    goroutine is inside [streamTrack] or has just left it: then Skip, Stop
    and Shutdown cancel the very context the running pipeline checks.  The
    pause channel is there exactly when the handle is, and a player that is
    not playing has neither. *)
Theorem handle_is_of_running_pipeline (w : World) :
  reachable w →
  (∀ c, cancelPlayback (pl w) = Some c →
     ∃ t, tasks w = [t] ∧
          (streamCtx t = Some c ∨ ∃ err, t = TaskClear err)) ∧
  (cancelPlayback (pl w) = None ↔ pauseChan (pl w) = None) ∧
  (playing (pl w) = false → cancelPlayback (pl w) = None).
Proof.
  intros Hr. destruct (handleInv_reachable w Hr) as (H1 & _ & _).
  pose proof (taskInv_reachable w Hr) as Hti.
  split; [|split].
  - intros c Hc. destruct (tasks w) as [|t [|]]; [| |done].
    + destruct H1 as [H1 _]. congruence.
    + exists t. split; [done|].
      destruct t; destruct H1 as [H1 _]; cbn [streamCtx] in *;
        first [congruence | left; congruence | right; by eauto].
  - destruct (tasks w) as [|t [|]]; [| |done].
    + destruct H1 as [-> ->]. done.
    + destruct t; destruct H1 as [Ha Hb]; cbn [streamCtx] in Ha;
        split; intros; first [congruence|contradiction].
  - intros Hp. destruct Hti as [[_ Hn]|[Hp' _]]; [|congruence].
    rewrite Hn in H1. by destruct H1.
Qed.

Lemma handle_is_of_running_pipeline_witness :
  ∃ t, tasks wStreamingA = [t] ∧
       (streamCtx t = Some 0%nat ∨ ∃ err, t = TaskClear err).
Proof.
  assert (Hr : reachable wStreamingA)
    by (exists evsStreamingA; vm_compute; reflexivity).
  assert (Hc : cancelPlayback (pl wStreamingA) = Some 0%nat)
    by (vm_compute; reflexivity).
  exact (proj1 (handle_is_of_running_pipeline wStreamingA Hr) 0%nat Hc).
Defined.

(** X4: Every pipeline invocation gets a context of its own that has not been
    cancelled: when the playback loop installs the handle for the track it
    has dequeued, the new context is later than every cancelled one, and
    the pause channel is new and empty. *)
Theorem new_pipeline_not_cancelled
    (w : World) (i : nat) (env : Env) (t : Track) (w' : World) :
  reachable w → tasks w !! i = Some (TaskArm t) →
  step (EvTask i env) w = Some w' →
  ∃ c, tasks w' = [TaskSetup c t] ∧ cancelPlayback (pl w') = Some c ∧
       pauseChan (pl w') = Some [] ∧ (c ∉ canceled w') ∧
       (∀ c', c' ∈ canceled w' → (c' < c)%nat) ∧
       out w' = OutAnnounce t (loop (pl w)) :: out w.
Proof.
  intros Hr Hi Hstep.
  destruct (handleInv_reachable w Hr) as (_ & _ & H3).
  pose proof (taskInv_reachable w Hr) as Hti.
  apply step_task_inv in Hstep as (t0 & t' & w1 & Hi' & Ht & ->).
  rewrite Hi in Hi'. injection Hi' as <-.
  destruct Hti as [[_ Hn]|[_ [t0 Hn]]]; rewrite Hn in Hi; [done|].
  destruct i; [|done]. injection Hi as ->.
  cbn [taskStep] in Ht.
  destruct (bool_decide (parked w ≠ None)); [done|].
  injection Ht as <- <-. psimpl. rewrite Hn.
  exists (fresh w). repeat split.
  - intros Hin. apply H3 in Hin. lia.
  - apply H3.
Qed.

Lemma new_pipeline_not_cancelled_witness :
  ∃ c, tasks (after (evsDequeuedA ++ [EvTask 0 envOk])) = [TaskSetup c trackA] ∧
       cancelPlayback (pl (after (evsDequeuedA ++ [EvTask 0 envOk]))) = Some c ∧
       pauseChan (pl (after (evsDequeuedA ++ [EvTask 0 envOk]))) = Some [] ∧
       (c ∉ canceled (after (evsDequeuedA ++ [EvTask 0 envOk]))) ∧
       (∀ c', c' ∈ canceled (after (evsDequeuedA ++ [EvTask 0 envOk])) →
              (c' < c)%nat) ∧
       out (after (evsDequeuedA ++ [EvTask 0 envOk]))
       = OutAnnounce trackA (loop (pl wDequeuedA)) :: out wDequeuedA.
Proof.
  assert (Hr : reachable wDequeuedA)
    by (exists evsDequeuedA; vm_compute; reflexivity).
  assert (Hi : tasks wDequeuedA !! 0%nat = Some (TaskArm trackA))
    by (vm_compute; reflexivity).
  assert (Hs : step (EvTask 0 envOk) wDequeuedA
               = Some (after (evsDequeuedA ++ [EvTask 0 envOk])))
    by (vm_compute; reflexivity).
  exact (new_pipeline_not_cancelled wDequeuedA 0%nat envOk trackA _ Hr Hi Hs).
Defined.

(* ===================================================================== *)
(** ** The playback goroutine and its races with the control surface *)
(* ===================================================================== *)

(** X1: A player is playing exactly when it has a playback goroutine, and
    it never has more than one. *)
Theorem playing_iff_one_goroutine (w : World) :
  reachable w →
  (playing (pl w) = true ↔ ∃ t, tasks w = [t]) ∧
  (playing (pl w) = false ↔ tasks w = []) ∧
  (length (tasks w) <= 1)%nat.
Proof.
  intros Hr. destruct (taskInv_reachable w Hr) as [[Hp Hn]|[Hp [t Hn]]].
  - rewrite Hp, Hn. repeat split; try done. intros [t Ht]. done.
    simpl. lia.
  - rewrite Hp, Hn. repeat split; try done. by exists t.
Qed.

Lemma playing_iff_one_goroutine_witness :
  playing (pl wStreamingA) = true ↔ ∃ t, tasks wStreamingA = [t].
Proof.
  assert (Hr : reachable wStreamingA)
    by (exists evsStreamingA; vm_compute; reflexivity).
  exact (proj1 (playing_iff_one_goroutine wStreamingA Hr)).
Defined.

(** X2: [loop] is never set on a player without a current track. *)
Theorem loop_needs_current (w : World) :
  reachable w → loop (pl w) = true → current (pl w) ≠ None.
Proof.
  intros Hr Hl Hc. pose proof (loopInv_reachable w Hr Hc). congruence.
Qed.

Lemma loop_needs_current_witness : current (pl wLoopingA) ≠ None.
Proof.
  assert (Hr : reachable wLoopingA)
    by (exists evsLoopingA; vm_compute; reflexivity).
  assert (Hl : loop (pl wLoopingA) = true) by (vm_compute; reflexivity).
  exact (loop_needs_current wLoopingA Hr Hl).
Defined.

Lemma step_Enqueue w track :
  parked w = None → step (EvEnqueue track) w = Some (Enqueue track w).2.
Proof. intros H. unfold step. by rewrite parked_locked. Qed.

Lemma taskStep_arm env track w :
  parked w = None →
  taskStep env (TaskArm track) w
  = Some (Some (TaskSetup (fresh w) track),
          upd_pl (fun p => set_pauseChan (Some [])
                             (set_cancelPlayback (Some (fresh w)) p))
                 (set_fresh (S (fresh w))
                            (emit (OutAnnounce track (loop (pl w))) w))).
Proof. intros H. cbn [taskStep]. by rewrite parked_locked. Qed.

Lemma taskStep_setup_no_voice env c track w :
  parked w = None → voice (pl w) = None →
  taskStep env (TaskSetup c track) w
  = Some (Some (TaskClear
                  (Some (ErrOther "voice connection not established"))), w).
Proof. intros H Hv. cbn [taskStep]. by rewrite parked_locked, Hv. Qed.

Lemma taskStep_setup_ok env c track w ch :
  parked w = None → voice (pl w) = Some ch →
  encoderErr env = None → pipeErr env = None → startErr env = None →
  c ∉ canceled w →
  taskStep env (TaskSetup c track) w
  = Some (Some (TaskCheck c),
          emit (OutSpeaking true)
            (set_stdout (procOutput env)
               (emit (OutFFMpeg (buildFFMpegArgs track))
                  (emit (OutEncoder sampleRate pcmChannelCount opusBitrate)
                        w)))).
Proof.
  intros H Hv He Hp Hs Hc. cbn [taskStep].
  rewrite parked_locked, Hv, He, Hp, Hs by done. psimpl.
  by rewrite bool_decide_false.
Qed.

(** X5: A player without a voice connection drops the track it has dequeued:
    the track is announced, [streamTrack] fails before it starts a
    subprocess, the error is logged and the loop goes on to the next
    track. *)
Theorem track_without_voice_is_dropped (w : World) (t : Track) e1 e2 e3 :
  parked w = None → tasks w = [TaskArm t] → voice (pl w) = None →
  ∃ w', run [EvTask 0 e1; EvTask 0 e2; EvTask 0 e3] w = Some w' ∧
        tasks w' = [TaskNext] ∧
        out w' = OutLog (ErrOther "voice connection not established")
                   :: OutAnnounce t (loop (pl w)) :: out w ∧
        cancelPlayback (pl w') = None ∧
        queue (pl w') = queue (pl w) ∧ stdout w' = stdout w.
Proof.
  intros Hp Ht Hv. eexists. split.
  - cbn [run].
    erewrite step_task; [|by rewrite Ht|by apply taskStep_arm].
    cbn [mbind option_bind]. psimpl. rewrite Ht. cbn [insert list_insert].
    erewrite step_task;
      [|reflexivity|by apply taskStep_setup_no_voice].
    cbn [mbind option_bind]. psimpl. cbn [insert list_insert].
    erewrite step_task; [|reflexivity|by apply taskStep_clear].
    cbn [mbind option_bind]. reflexivity.
  - unfold afterStream. psimpl. cbn [isCanceled insert list_insert]. psimpl.
    repeat split.
Qed.

Lemma track_without_voice_is_dropped_witness :
  ∃ w', run [EvTask 0 envOk; EvTask 0 envOk; EvTask 0 envOk]
            (after [EvEnqueue trackA; EvTask 0 envOk]) = Some w' ∧
        tasks w' = [TaskNext] ∧
        out w' = OutLog (ErrOther "voice connection not established")
                   :: OutAnnounce trackA
                        (loop (pl (after [EvEnqueue trackA; EvTask 0 envOk])))
                   :: out (after [EvEnqueue trackA; EvTask 0 envOk]) ∧
        cancelPlayback (pl w') = None ∧
        queue (pl w')
        = queue (pl (after [EvEnqueue trackA; EvTask 0 envOk])) ∧
        stdout w' = stdout (after [EvEnqueue trackA; EvTask 0 envOk]).
Proof.
  assert (H1 : parked (after [EvEnqueue trackA; EvTask 0 envOk]) = None)
    by (vm_compute; reflexivity).
  assert (H2 : tasks (after [EvEnqueue trackA; EvTask 0 envOk])
               = [TaskArm trackA]) by (vm_compute; reflexivity).
  assert (H3 : voice (pl (after [EvEnqueue trackA; EvTask 0 envOk])) = None)
    by (vm_compute; reflexivity).
  exact (track_without_voice_is_dropped _ trackA envOk envOk envOk H1 H2 H3).
Defined.

(** X6: Stop reaches a track only through the cancellation handle.
    Between the moment [nextTrack] has dequeued a track and the moment
    [playLoop] installs the handle there is none: a Stop that lands there
    empties the queue and clears [current], yet the dequeued track is
    announced and streamed under a context nobody has cancelled. *)
Theorem Stop_before_handle_misses (w : World) (t : Track) (ch : string)
    (e1 e2 : Env) :
  reachable w → parked w = None → tasks w = [TaskArm t] →
  voice (pl w) = Some ch →
  encoderErr e2 = None → pipeErr e2 = None → startErr e2 = None →
  ∃ w' c, run [EvStop; EvTask 0 e1; EvTask 0 e2] w = Some w' ∧
          tasks w' = [TaskCheck c] ∧ cancelPlayback (pl w') = Some c ∧
          (c ∉ canceled w') ∧ canceled w' = canceled w ∧
          current (pl w') = None ∧ queue (pl w') = [] ∧
          playing (pl w') = true ∧
          out w' = OutSpeaking true :: OutFFMpeg (buildFFMpegArgs t)
                   :: OutEncoder sampleRate pcmChannelCount opusBitrate
                   :: OutAnnounce t false :: out w.
Proof.
  intros Hr Hp Ht Hv He Hpi Hs.
  destruct (handleInv_reachable w Hr) as (H1 & _ & H3).
  rewrite Ht in H1. destruct H1 as [Hc _].
  pose proof (taskInv_reachable w Hr) as [[_ Hn]|[Hpl _]]; [congruence|].
  destruct (Stop_effect w) as (Sq & Sc & Sl & Spa & Spl & Sh & St & So & Spk & Scn & _).
  rewrite Hc in Scn.
  assert (Hfr : fresh (Stop w).2 = fresh w).
  { unfold Stop. psimpl. rewrite Hc. reflexivity. }
  assert (Hvo : voice (pl (Stop w).2) = voice (pl w)).
  { unfold Stop. psimpl. rewrite Hc. reflexivity. }
  exists (set_tasks [TaskCheck (fresh w)]
    (emit (OutSpeaking true)
      (set_stdout (procOutput e2)
        (emit (OutFFMpeg (buildFFMpegArgs t))
          (emit (OutEncoder sampleRate pcmChannelCount opusBitrate)
            (set_tasks [TaskSetup (fresh w) t]
              (upd_pl (fun p => set_pauseChan (Some [])
                         (set_cancelPlayback (Some (fresh w)) p))
                (set_fresh (S (fresh w))
                   (emit (OutAnnounce t false) (Stop w).2))))))))),
    (fresh w).
  split.
  - cbn [run]. rewrite step_Stop by done. cbn [mbind option_bind].
    erewrite step_task;
      [|by rewrite St, Ht|apply taskStep_arm; congruence].
    cbn [mbind option_bind]. psimpl. rewrite St, Ht, Sl, Hfr.
    cbn [insert list_insert].
    erewrite step_task; [|reflexivity|].
    2:{ apply taskStep_setup_ok with (ch := ch); psimpl;
          [congruence|congruence|done|done|done|].
        rewrite Scn. intros Hin. apply H3 in Hin. lia. }
    cbn [mbind option_bind]. psimpl. reflexivity.
  - psimpl. rewrite Scn, Sc, Sq, Spl, So.
    repeat split; try done.
    intros Hin. apply H3 in Hin. lia.
Qed.

Lemma Stop_before_handle_misses_witness :
  ∃ w' c, run [EvStop; EvTask 0 envOk; EvTask 0 envOk] wDequeuedA = Some w' ∧
          tasks w' = [TaskCheck c] ∧ cancelPlayback (pl w') = Some c ∧
          (c ∉ canceled w') ∧ canceled w' = canceled wDequeuedA ∧
          current (pl w') = None ∧ queue (pl w') = [] ∧
          playing (pl w') = true ∧
          out w' = OutSpeaking true :: OutFFMpeg (buildFFMpegArgs trackA)
                   :: OutEncoder sampleRate pcmChannelCount opusBitrate
                   :: OutAnnounce trackA false :: out wDequeuedA.
Proof.
  assert (Hr : reachable wDequeuedA)
    by (exists evsDequeuedA; vm_compute; reflexivity).
  assert (H1 : parked wDequeuedA = None) by (vm_compute; reflexivity).
  assert (H2 : tasks wDequeuedA = [TaskArm trackA])
    by (vm_compute; reflexivity).
  assert (H3 : voice (pl wDequeuedA) = Some "voice"%string)
    by (vm_compute; reflexivity).
  exact (Stop_before_handle_misses wDequeuedA trackA "voice" envOk envOk
           Hr H1 H2 H3 eq_refl eq_refl eq_refl).
Defined.

Lemma step_Skip w : parked w = None → step EvSkip w = Some (Skip w).2.
Proof. intros H. unfold step. by rewrite parked_locked. Qed.

(** X7: [Skip] between the dequeue and the installation of the handle reports
    an active track and does nothing at all: the track it was meant for is
    streamed in full. *)
Theorem Skip_before_handle_misses (w : World) (t : Track) :
  reachable w → tasks w = [TaskArm t] → current (pl w) ≠ None →
  Skip w = (true, w).
Proof.
  intros Hr Ht Hc.
  destruct (handleInv_reachable w Hr) as (H1 & _ & _).
  rewrite Ht in H1. destruct H1 as [Hh _].
  rewrite Skip_no_handle by done. by rewrite bool_decide_true.
Qed.

Lemma Skip_before_handle_misses_witness : Skip wDequeuedA = (true, wDequeuedA).
Proof.
  assert (Hr : reachable wDequeuedA)
    by (exists evsDequeuedA; vm_compute; reflexivity).
  assert (H2 : tasks wDequeuedA = [TaskArm trackA])
    by (vm_compute; reflexivity).
  assert (H3 : current (pl wDequeuedA) ≠ None) by (vm_compute; discriminate).
  exact (Skip_before_handle_misses wDequeuedA trackA Hr H2 H3).
Defined.

(** X8: [Skip] of a streaming track ends a loop for good: the pipeline is
    cancelled and reaped, nothing is logged, [loop] is off, the skipped
    track is not put back, and the goroutine goes on with the head of the
    queue, or to idle when the queue is empty. *)
Theorem Skip_ends_loop (w : World) (c : Ctx) (e1 e2 e3 : Env) :
  parked w = None → tasks w = [TaskCheck c] →
  cancelPlayback (pl w) = Some c →
  (Skip w).1 = bool_decide (current (pl w) ≠ None) ∧
  ∃ w', run [EvSkip; EvTask 0 e1; EvTask 0 e2; EvTask 0 e3] w = Some w' ∧
        loop (pl w') = false ∧
        current (pl w') = head (queue (pl w)) ∧
        queue (pl w') = tail (queue (pl w)) ∧
        tasks w' = [match head (queue (pl w)) with
                    | Some t => TaskArm t
                    | None => TaskIdle
                    end] ∧
        cancelPlayback (pl w') = None ∧
        out w' = OutKillReap :: OutSpeaking false :: out w.
Proof.
  intros Hp Ht Hh. split; [unfold Skip; by rewrite Hh|].
  assert (HS : (Skip w).2
               = cancel c (upd_pl (fun p => set_loop false
                                              (set_skipRequested true p)) w)).
  { unfold Skip. by rewrite Hh. }
  cbn [run]. rewrite step_Skip by done. cbn [mbind option_bind].
  rewrite HS.
  erewrite step_task;
    [|by (psimpl; rewrite Ht)
     |apply taskStep_check_canceled; psimpl; apply in_canceled_add].
  cbn [mbind option_bind]. psimpl. rewrite Ht. cbn [insert list_insert].
  erewrite step_task; [|reflexivity|by apply taskStep_clear].
  cbn [mbind option_bind]. unfold afterStream. psimpl.
  cbn [isCanceled insert list_insert].
  erewrite step_task; [|reflexivity|by apply taskStep_next].
  cbn [mbind option_bind]. unfold nextTrack. psimpl.
  destruct (queue (pl w)) as [|t q] eqn:Hq; psimpl;
    cbn [insert list_insert head tail];
    (eexists; split; [reflexivity|]); psimpl; done.
Qed.

Lemma Skip_ends_loop_witness :
  ∃ w', run [EvSkip; EvTask 0 envOk; EvTask 0 envOk; EvTask 0 envOk] wLoopingA
        = Some w' ∧
        loop (pl w') = false ∧
        current (pl w') = head (queue (pl wLoopingA)) ∧
        queue (pl w') = tail (queue (pl wLoopingA)) ∧
        tasks w' = [match head (queue (pl wLoopingA)) with
                    | Some t => TaskArm t
                    | None => TaskIdle
                    end] ∧
        cancelPlayback (pl w') = None ∧
        out w' = OutKillReap :: OutSpeaking false :: out wLoopingA.
Proof.
  assert (H1 : parked wLoopingA = None) by (vm_compute; reflexivity).
  assert (H2 : tasks wLoopingA = [TaskCheck 0%nat])
    by (vm_compute; reflexivity).
  assert (H3 : cancelPlayback (pl wLoopingA) = Some 0%nat)
    by (vm_compute; reflexivity).
  exact (proj2 (Skip_ends_loop wLoopingA 0%nat envOk envOk envOk H1 H2 H3)).
Defined.

(** X9: A track that ends while [loop] is on goes to the back of the queue
    and the head of the queue is played: the track itself when nothing else
    waits.  Each such turn is announced again, with the status of a loop:
    the [repeat] result of [nextTrack] that would suppress the announcement
    is always false. *)
Theorem loop_replay_is_announced (w : World) (t : Track) (e1 e2 e3 : Env) :
  parked w = None → tasks w = [TaskClear None] →
  loop (pl w) = true → current (pl w) = Some t →
  ∃ w', run [EvTask 0 e1; EvTask 0 e2; EvTask 0 e3] w = Some w' ∧
        tasks w' = [TaskSetup (fresh w) (hd t (queue (pl w)))] ∧
        out w' = OutAnnounce (hd t (queue (pl w))) true :: out w ∧
        current (pl w') = Some (hd t (queue (pl w))) ∧
        queue (pl w') = tail (queue (pl w) ++ [t]) ∧
        loop (pl w') = true.
Proof.
  intros Hp Ht Hl Hc.
  cbn [run].
  erewrite step_task; [|by rewrite Ht|by apply taskStep_clear].
  cbn [mbind option_bind]. unfold afterStream. psimpl. rewrite Ht.
  cbn [insert list_insert].
  erewrite step_task; [|reflexivity|by apply taskStep_next].
  cbn [mbind option_bind]. unfold nextTrack. psimpl.
  rewrite Hl, Hc. psimpl.
  destruct (queue (pl w)) as [|t0 q] eqn:Hq; cbn [app hd tail]; psimpl;
    cbn [insert list_insert].
  all: erewrite step_task; [|reflexivity|by apply taskStep_arm].
  all: cbn [mbind option_bind]; psimpl; cbn [insert list_insert].
  all: eexists; split; [reflexivity|]; psimpl; rewrite Hl; done.
Qed.

Lemma loop_replay_is_announced_witness :
  ∃ w', run [EvTask 0 envOk; EvTask 0 envOk; EvTask 0 envOk] wLoopEndA
        = Some w' ∧
        tasks w' = [TaskSetup (fresh wLoopEndA)
                              (hd trackA (queue (pl wLoopEndA)))] ∧
        out w' = OutAnnounce (hd trackA (queue (pl wLoopEndA))) true
                 :: out wLoopEndA ∧
        current (pl w') = Some (hd trackA (queue (pl wLoopEndA))) ∧
        queue (pl w') = tail (queue (pl wLoopEndA) ++ [trackA]) ∧
        loop (pl w') = true.
Proof.
  assert (H1 : parked wLoopEndA = None) by (vm_compute; reflexivity).
  assert (H2 : tasks wLoopEndA = [TaskClear None])
    by (vm_compute; reflexivity).
  assert (H3 : loop (pl wLoopEndA) = true) by (vm_compute; reflexivity).
  assert (H4 : current (pl wLoopEndA) = Some trackA)
    by (vm_compute; reflexivity).
  exact (loop_replay_is_announced wLoopEndA trackA envOk envOk envOk
           H1 H2 H3 H4).
Defined.

(** X10: An Enqueue that lands after [nextTrack] has found the queue empty and
    before [playLoop] has marked the player idle starts no goroutine, since
    [playing] is still set; the goroutine then exits and arms the idle
    timer.  The track stays queued on a player that is not playing. *)
Theorem Enqueue_before_idle_is_not_played (w : World) (track : Track)
    (env : Env) :
  reachable w → parked w = None → tasks w = [TaskIdle] →
  ∃ w', run [EvEnqueue track; EvTask 0 env] w = Some w' ∧
        (Enqueue track w).1 = Z.of_nat (length (queue (pl w))) + 1 ∧
        queue (pl w') = queue (pl w) ++ [track] ∧
        playing (pl w') = false ∧ tasks w' = [] ∧
        armed w' = true ∧ out w' = out w.
Proof.
  intros Hr Hp Ht.
  pose proof (taskInv_reachable w Hr) as [[_ Hn]|[Hpl _]]; [congruence|].
  assert (HE : (Enqueue track w).2
               = cancelDisconnectTimerLocked
                   (upd_pl (fun p => set_queue (queue p ++ [track]) p) w)).
  { unfold Enqueue. cbn zeta.
    replace (playing (pl (cancelDisconnectTimerLocked
               (upd_pl (fun p => set_queue (queue p ++ [track]) p) w))))
      with true; [reflexivity|].
    unfold cancelDisconnectTimerLocked. psimpl.
    destruct (disconnectTimer (pl w)); psimpl; congruence. }
  assert (HP : (Enqueue track w).1 = Z.of_nat (length (queue (pl w))) + 1).
  { unfold Enqueue. psimpl. rewrite length_app. simpl. lia. }
  cbn [run]. rewrite step_Enqueue by done. cbn [mbind option_bind].
  rewrite HE, HP. clear HE HP.
  unfold cancelDisconnectTimerLocked. psimpl.
  destruct (disconnectTimer (pl w)) as [tm|] eqn:Hd.
  all: erewrite step_task;
    [|psimpl; rewrite Ht; reflexivity|by apply taskStep_idle].
  all: cbn [mbind option_bind]; eexists; split; [reflexivity|].
  all: unfold scheduleDisconnectLocked, armed; psimpl; rewrite ?Hd; psimpl;
    rewrite ?Ht; cbn [delete list_delete].
  all: repeat split; try done.
  all: apply bool_decide_true, in_canceled_add.
Qed.

Lemma Enqueue_before_idle_is_not_played_witness :
  ∃ w', run [EvEnqueue trackB; EvTask 0 envOk] wStoppedIdle
        = Some w' ∧
        (Enqueue trackB wStoppedIdle).1
        = Z.of_nat (length (queue (pl wStoppedIdle))) + 1 ∧
        queue (pl w') = queue (pl wStoppedIdle) ++ [trackB] ∧
        playing (pl w') = false ∧ tasks w' = [] ∧
        armed w' = true ∧ out w' = out wStoppedIdle.
Proof.
  assert (Hr : reachable wStoppedIdle)
    by (exists evsStoppedIdle; vm_compute; reflexivity).
  assert (H1 : parked wStoppedIdle = None)
    by (vm_compute; reflexivity).
  assert (H2 : tasks wStoppedIdle = [TaskIdle])
    by (vm_compute; reflexivity).
  exact (Enqueue_before_idle_is_not_played _ trackB envOk Hr H1 H2).
Defined.

(** X11: Stop after the handle is installed and before ffmpeg is
    started, the program having been found when the command was made:
    [cmd.Start] on the cancelled context fails, so no subprocess runs; the
    error wraps [context.Canceled] and is not logged; the player goes
    idle. *)
Theorem Stop_before_start_prevents_ffmpeg (w : World) (c : Ctx) (t : Track)
    (ch : string) (e1 e2 e3 e4 : Env) :
  parked w = None → tasks w = [TaskSetup c t] →
  cancelPlayback (pl w) = Some c → voice (pl w) = Some ch →
  encoderErr e1 = None → pipeErr e1 = None →
  (∀ e, startErr e1 ≠ Some (NotFound e)) →
  ∃ w', run [EvStop; EvTask 0 e1; EvTask 0 e2; EvTask 0 e3; EvTask 0 e4] w
        = Some w' ∧
        tasks w' = [] ∧ playing (pl w') = false ∧
        current (pl w') = None ∧ queue (pl w') = [] ∧
        cancelPlayback (pl w') = None ∧
        out w' = OutEncoder sampleRate pcmChannelCount opusBitrate :: out w.
Proof.
  intros Hp Ht Hh Hv He Hpi Hnf.
  destruct (Stop_effect w)
    as (Hq & Hc & Hl & _ & _ & _ & Ht0 & Ho & Hp0 & Hcs & _).
  assert (Hv0 : voice (pl (Stop w).2) = Some ch).
  { unfold Stop. rewrite Hh. psimpl. done. }
  set (w0 := (Stop w).2) in *. rewrite Hh in Hcs. rewrite Ht in Ht0.
  rewrite Hp in Hp0.
  eexists. split.
  - cbn [run]. rewrite step_Stop by done. cbn [mbind option_bind]. fold w0.
    erewrite step_task; [|by rewrite Ht0|].
    2:{ cbn [taskStep]. rewrite parked_locked, Hv0, He, Hpi by done.
        psimpl. rewrite bool_decide_true
          by (rewrite Hcs; apply in_canceled_add).
        destruct (startErr e1) as [[e|e]|]; [by destruct (Hnf e)|..];
          reflexivity. }
    cbn [mbind option_bind]. psimpl. rewrite Ht0. cbn [insert list_insert].
    erewrite step_task; [|reflexivity|by apply taskStep_clear].
    cbn [mbind option_bind]. unfold afterStream. psimpl.
    cbn [isCanceled insert list_insert]. psimpl.
    erewrite step_task; [|reflexivity|by apply taskStep_next].
    rewrite nextTrack_empty by (psimpl; done). psimpl.
    cbn [mbind option_bind]. psimpl. cbn [insert list_insert].
    erewrite step_task; [|reflexivity|by apply taskStep_idle].
    cbn [mbind option_bind]. reflexivity.
  - unfold scheduleDisconnectLocked. psimpl.
    destruct (disconnectTimer (pl w0)); psimpl; rewrite ?Hq, ?Ho;
      repeat split.
Qed.

Lemma Stop_before_start_prevents_ffmpeg_witness :
  ∃ w', run [EvStop; EvTask 0 envOk; EvTask 0 envOk; EvTask 0 envOk;
             EvTask 0 envOk] wArmedA = Some w' ∧
        tasks w' = [] ∧ playing (pl w') = false ∧
        current (pl w') = None ∧ queue (pl w') = [] ∧
        cancelPlayback (pl w') = None ∧
        out w' = OutEncoder sampleRate pcmChannelCount opusBitrate
                 :: out wArmedA.
Proof.
  assert (H1 : parked wArmedA = None) by (vm_compute; reflexivity).
  assert (H2 : tasks wArmedA = [TaskSetup 0%nat trackA])
    by (vm_compute; reflexivity).
  assert (H3 : cancelPlayback (pl wArmedA) = Some 0%nat)
    by (vm_compute; reflexivity).
  assert (H4 : voice (pl wArmedA) = Some "voice"%string)
    by (vm_compute; reflexivity).
  assert (H5 : ∀ e, startErr envOk ≠ Some (NotFound e)) by discriminate.
  exact (Stop_before_start_prevents_ffmpeg wArmedA 0%nat trackA "voice"
           envOk envOk envOk envOk H1 H2 H3 H4 eq_refl eq_refl H5).
Defined.

Lemma step_timer tm w :
  tm ∈ timers w → step (EvTimer tm) w = Some (timerFires tm w).
Proof. intros H. unfold step. by rewrite bool_decide_true. Qed.

Lemma step_callback w :
  parked w = None → (0 < fired w)%nat →
  step EvCallback w = Some (disconnectFired w).
Proof.
  intros Hp Hf. unfold step. rewrite parked_locked by done.
  by rewrite (proj2 (Nat.ltb_lt _ _) Hf).
Qed.

(** X22: The idle timer of a player fires; before its function gets [mu],
    [Enqueue] runs: the [Stop] it calls on the timer comes too late and its
    result is not looked at.  The function then runs while the player is
    playing: the voice connection is dropped and the player released from
    the registry, with the enqueued track about to play. *)
Theorem started_callback_survives_Enqueue (w : World) (tm : Timer)
    (track : Track) :
  parked w = None → playing (pl w) = false →
  disconnectTimer (pl w) = Some tm → tm ∈ timers w →
  ∃ w', run [EvTimer tm; EvEnqueue track; EvCallback] w = Some w' ∧
        playing (pl w') = true ∧ tasks w' = tasks w ++ [TaskNext] ∧
        queue (pl w') = queue (pl w) ++ [track] ∧
        voice (pl w') = None ∧ disconnectTimer (pl w') = None ∧
        fired w' = fired w ∧
        out w' = OutRelease
                 :: (if voice (pl w) is Some _ then [OutDisconnect] else [])
                 ++ out w.
Proof.
  intros Hp Hpl Htm Hin. cbn [run].
  rewrite step_timer by done. cbn [mbind option_bind].
  rewrite step_Enqueue by done. cbn [mbind option_bind].
  rewrite step_callback.
  2:{ unfold Enqueue, cancelDisconnectTimerLocked, timerFires. psimpl.
      rewrite Htm. psimpl. rewrite Hpl. psimpl. done. }
  2:{ unfold Enqueue, cancelDisconnectTimerLocked, timerFires. psimpl.
      rewrite Htm. psimpl. rewrite Hpl. psimpl. lia. }
  cbn [mbind option_bind]. eexists. split; [reflexivity|].
  unfold disconnectFired, Enqueue, cancelDisconnectTimerLocked, timerFires.
  psimpl. rewrite Htm. psimpl. rewrite Hpl. psimpl.
  destruct (voice (pl w)); psimpl; done.
Qed.

Lemma started_callback_survives_Enqueue_witness :
  ∃ w', run [EvTimer 1%nat; EvEnqueue trackB; EvCallback] wIdleA = Some w' ∧
        playing (pl w') = true ∧ tasks w' = tasks wIdleA ++ [TaskNext] ∧
        queue (pl w') = queue (pl wIdleA) ++ [trackB] ∧
        voice (pl w') = None ∧ disconnectTimer (pl w') = None ∧
        fired w' = fired wIdleA ∧
        out w' = OutRelease
                 :: (if voice (pl wIdleA) is Some _ then [OutDisconnect]
                     else [])
                 ++ out wIdleA.
Proof.
  assert (H1 : parked wIdleA = None) by (vm_compute; reflexivity).
  assert (H2 : playing (pl wIdleA) = false) by (vm_compute; reflexivity).
  assert (H3 : disconnectTimer (pl wIdleA) = Some 1%nat)
    by (vm_compute; reflexivity).
  assert (H4 : 1%nat ∈ timers wIdleA).
  { assert (E : timers wIdleA = {[1%nat]}) by (vm_compute; reflexivity).
    rewrite E. apply elem_of_singleton. reflexivity. }
  exact (started_callback_survives_Enqueue wIdleA 1%nat trackB H1 H2 H3 H4).
Defined.

(* ===================================================================== *)
(** ** The voice connection *)
(* ===================================================================== *)

(** X12: [EnsureConnected] on the channel the player is bound to does nothing,
    whatever a join would answer.  Otherwise it leaves the old connection
    first; a join that fails returns the error wrapped as "voice join" and
    leaves the player record as it was (still naming the connection just
    left), a join that succeeds binds the player to the channel, and a
    second call is then the no-op.  The queue and the playback state are
    never touched. *)
Theorem EnsureConnected_cases (w : World) (ch : string)
    (joined : option GoError) :
  let r := EnsureConnected ch joined w in
  (voice (pl w) = Some ch → r = (None, w)) ∧
  (voice (pl w) ≠ Some ch →
     out r.2 = (if voice (pl w) is Some _ then [OutDisconnect] else [])
               ++ out w ∧
     match joined with
     | Some e => r.1 = Some (ErrWrap "voice join" e) ∧ pl r.2 = pl w
     | None => r.1 = None ∧ voice (pl r.2) = Some ch ∧
               ∀ j, EnsureConnected ch j r.2 = (None, r.2)
     end) ∧
  queue (pl r.2) = queue (pl w) ∧ current (pl r.2) = current (pl w) ∧
  playing (pl r.2) = playing (pl w) ∧ tasks r.2 = tasks w ∧
  canceled r.2 = canceled w ∧ timers r.2 = timers w.
Proof.
  cbn zeta. unfold EnsureConnected. split; [|split].
  - intros ->. by rewrite bool_decide_true.
  - intros Hv. rewrite bool_decide_false by done.
    destruct (voice (pl w)) as [old|] eqn:Ho; destruct joined as [e|];
      psimpl; repeat split; try done.
    all: intros j; by rewrite bool_decide_true.
  - case_bool_decide; [done|].
    destruct (voice (pl w)); destruct joined; psimpl; done.
Qed.

Lemma EnsureConnected_cases_witness :
  EnsureConnected "voice" (Some (ErrOther "timeout")) wJoined = (None, wJoined).
Proof.
  assert (H : voice (pl wJoined) = Some "voice"%string)
    by (vm_compute; reflexivity).
  exact (proj1 (EnsureConnected_cases wJoined "voice"
                  (Some (ErrOther "timeout"))) H).
Defined.

(** X13: [Shutdown] cancels the running pipeline's context and drops the voice
    connection, and nothing else: the queue, the current track, [playing]
    and the idle timer stay, so the playback goroutine goes on to the next
    queued track.  A second [Shutdown] changes nothing. *)
Theorem Shutdown_effect (w : World) :
  let w' := Shutdown w in
  voice (pl w') = None ∧
  (∀ c, cancelPlayback (pl w) = Some c → c ∈ canceled w') ∧
  out w' = (if voice (pl w) is Some _ then [OutDisconnect] else []) ++ out w ∧
  queue (pl w') = queue (pl w) ∧ current (pl w') = current (pl w) ∧
  playing (pl w') = playing (pl w) ∧ loop (pl w') = loop (pl w) ∧
  cancelPlayback (pl w') = cancelPlayback (pl w) ∧
  disconnectTimer (pl w') = disconnectTimer (pl w) ∧
  timers w' = timers w ∧ tasks w' = tasks w ∧
  Shutdown w' = w'.
Proof.
  cbn zeta. unfold Shutdown.
  destruct (cancelPlayback (pl w)) as [c|] eqn:Hc;
    destruct (voice (pl w)) as [v|] eqn:Hv;
    repeat (progress (psimpl; rewrite ?Hv, ?Hc)).
  all: repeat split; try done.
  all: try (intros c' [= <-]; apply in_canceled_add).
  all: unfold upd_pl, cancel, emit, set_canceled, set_pl, set_voice; psimpl;
    f_equal.
  all: by rewrite <- (assoc_L (∪)), (idemp_L (∪)).
Qed.

Lemma Shutdown_effect_witness : 0%nat ∈ canceled (Shutdown wStreamingA).
Proof.
  assert (H : cancelPlayback (pl wStreamingA) = Some 0%nat)
    by (vm_compute; reflexivity).
  exact (proj1 (proj2 (Shutdown_effect wStreamingA)) 0%nat H).
Defined.

(* ===================================================================== *)
(** ** The ffmpeg subprocess and the frames *)
(* ===================================================================== *)

Lemma processInv_taskStep env t w t' w1 :
  tasks w = [t] → processInv w → taskStep env t w = Some (t', w1) →
  processInv (match t' with
              | Some t1 => set_tasks (<[0%nat := t1]> (tasks w1)) w1
              | None => set_tasks (delete 0%nat (tasks w1)) w1
              end).
Proof.
  intros Hts Hinv H.
  pose proof (taskStep_tasks _ _ _ _ _ H) as [Hts1 _]. rewrite Hts in Hts1.
  unfold processInv in *. rewrite Hts in Hinv.
  destruct t; cbn [taskStep] in H;
    unfold finish, scheduleDisconnectLocked, nextTrack in H; psimpl.
  all: repeat (case_match; try done).
  all: simplify_eq; psimpl; rewrite ?Hts;
    cbn [insert list_insert delete list_delete heldBy holdsProcess
         started reaped] in *.
  all: lia.
Qed.

Lemma processInv_same w w' :
  processInv w → out w' = out w → tasks w' = tasks w → processInv w'.
Proof. unfold processInv. by intros H -> ->. Qed.

Lemma processInv_step w e w' :
  taskInv w → processInv w → step e w = Some w' → processInv w'.
Proof.
  intros Hti Hinv Hstep. destruct e.
  9: { apply step_task_inv in Hstep as (t & t' & w1 & Hi & Ht & ->).
       destruct Hti as [[_ Hn]|[_ [t0 Hn]]]; rewrite Hn in Hi; [done|].
       destruct i; [|done]. injection Hi as ->.
       by eapply processInv_taskStep. }
  8: { by apply step_timer_inv in Hstep as [_ ->]. }
  all: unfold step in Hstep;
    destruct (bool_decide (parked w ≠ None)); [done|].
  - injection Hstep as <-. unfold EnsureConnected.
    destruct (bool_decide (voice (pl w) = Some channelID)); psimpl; [done|].
    unfold processInv in *.
    destruct (voice (pl w)); destruct joined; psimpl;
      cbn [started reaped]; done.
  - injection Hstep as <-. unfold processInv in *.
    unfold Enqueue, cancelDisconnectTimerLocked. psimpl.
    destruct Hti as [[Hp Hn]|[Hp [t0 Hn]]]; rewrite Hn in Hinv;
      destruct (disconnectTimer (pl w)); psimpl; rewrite ?Hp; psimpl;
      rewrite ?Hn; cbn [app heldBy holdsProcess]; done.
  - injection Hstep as <-. unfold Skip.
    destruct (cancelPlayback (pl w)) as [c|] eqn:Hc; psimpl; [|done].
    by eapply processInv_same.
  - injection Hstep as <-. unfold Pause.
    destruct (negb (playing (pl w)) || bool_decide (current (pl w) = None));
      psimpl; [done|].
    destruct (pauseChan (pl w)) as [buf|] eqn:Hch; psimpl.
    + destruct (length buf <? 1)%nat; psimpl; by eapply processInv_same.
    + by eapply processInv_same.
  - injection Hstep as <-. unfold Stop.
    destruct (cancelPlayback (pl w)) as [c|] eqn:Hc; psimpl;
      by eapply processInv_same.
  - injection Hstep as <-. unfold ToggleLoop.
    destruct explicit as [[]|]; psimpl; repeat case_match; psimpl;
      by eapply processInv_same.
  - injection Hstep as <-. unfold Shutdown. unfold processInv in *.
    destruct (cancelPlayback (pl w)) as [c|] eqn:Hc;
      destruct (voice (pl w)) as [v|] eqn:Hv;
      repeat (progress (psimpl; rewrite ?Hv, ?Hc));
      cbn [started reaped]; done.
  - destruct (0 <? fired w)%nat; [|done]. injection Hstep as <-.
    unfold disconnectFired, processInv in *.
    destruct (voice (pl w)); psimpl; cbn [started reaped]; done.
Qed.

Lemma processInv_reachable w : reachable w → processInv w.
Proof.
  intros Hr. cut (taskInv w ∧ processInv w); [by intros []|].
  revert w Hr. apply reachable_ind.
  - split; [by left|reflexivity].
  - intros w e w' _ [Hti Hh] Hstep.
    split; [by eapply taskInv_step|by eapply processInv_step].
Qed.

(** X14: Every ffmpeg subprocess [streamTrack] starts is killed and waited for
    when [streamTrack] returns: the processes started exceed those reaped by
    at most the single one of the pipeline now running, and by none when the
    goroutine is outside the frame loop or the player is idle. *)
Theorem every_subprocess_is_reaped (w : World) :
  reachable w →
  started (out w) = (reaped (out w) + heldBy (tasks w))%nat ∧
  (playing (pl w) = false → started (out w) = reaped (out w)) ∧
  (started (out w) <= reaped (out w) + 1)%nat.
Proof.
  intros Hr. pose proof (processInv_reachable w Hr) as H.
  unfold processInv in H. split; [done|]. split.
  - intros Hp. destruct (taskInv_reachable w Hr) as [[_ Hn]|[Hp' _]];
      [|congruence]. rewrite Hn in H. simpl in H. lia.
  - rewrite H. unfold heldBy. repeat case_match; lia.
Qed.

Lemma every_subprocess_is_reaped_witness :
  started (out wStreamingA)
  = (reaped (out wStreamingA) + heldBy (tasks wStreamingA))%nat.
Proof.
  assert (Hr : reachable wStreamingA)
    by (exists evsStreamingA; vm_compute; reflexivity).
  exact (proj1 (every_subprocess_is_reaped wStreamingA Hr)).
Defined.

Lemma ReadFull_app fr rest :
  Z.of_nat (length fr) = byteBufLen → ReadFull (fr ++ rest) = ReadFrame fr rest.
Proof.
  intros Hl. unfold ReadFull.
  assert (Hn : Z.to_nat byteBufLen = length fr) by lia. rewrite Hn.
  rewrite (proj2 (Nat.leb_le _ _)) by (rewrite length_app; lia).
  by rewrite take_app_length, drop_app_length.
Qed.

(** One turn of the frame loop of [streamTrack] on a pipeline that is
    neither cancelled nor paused: a frame is read, encoded and sent. *)
Lemma frame_turn env c fr pk rest w :
  parked w = None → paused (pl w) = false → c ∉ canceled w →
  tasks w = [TaskCheck c] → readErr env = None → pick env = CaseSend →
  Z.of_nat (length fr) = byteBufLen → encode env (decodePCM fr) = inr pk →
  stdout w = fr ++ rest →
  ∃ w', run (replicate 4 (EvTask 0 env)) w = Some w' ∧
        pl w' = pl w ∧ canceled w' = canceled w ∧ parked w' = None ∧
        tasks w' = [TaskCheck c] ∧ stdout w' = rest ∧
        out w' = OutFrame pk :: out w.
Proof.
  intros Hp Hpa Hc Ht Hr Hpk Hl He Hs.
  cbn [replicate run].
  erewrite step_task; [|by rewrite Ht|].
  2:{ cbn [taskStep]. rewrite bool_decide_false by done. reflexivity. }
  cbn [mbind option_bind]. rewrite Ht. cbn [insert list_insert].
  erewrite step_task; [|reflexivity|].
  2:{ cbn [taskStep]. psimpl. rewrite parked_locked by done.
      rewrite Hpa. reflexivity. }
  cbn [mbind option_bind]. psimpl. cbn [insert list_insert].
  erewrite step_task; [|reflexivity|].
  2:{ cbn [taskStep]. psimpl. rewrite Hr, Hs, ReadFull_app by done.
      rewrite He. reflexivity. }
  cbn [mbind option_bind]. psimpl. cbn [insert list_insert].
  erewrite step_task; [|reflexivity|].
  2:{ cbn [taskStep]. rewrite Hpk. reflexivity. }
  cbn [mbind option_bind]. psimpl. cbn [insert list_insert].
  eexists. split; [reflexivity|]. psimpl. done.
Qed.

(** The last turn: fewer bytes than a frame are left, [io.ReadFull] reports
    the end of the stream and [streamTrack] returns nil. *)
Lemma last_turn env c w :
  parked w = None → paused (pl w) = false → c ∉ canceled w →
  tasks w = [TaskCheck c] → readErr env = None →
  (length (stdout w) < Z.to_nat byteBufLen)%nat →
  ∃ w', run (replicate 3 (EvTask 0 env)) w = Some w' ∧
        pl w' = pl w ∧ tasks w' = [TaskClear None] ∧ stdout w' = [] ∧
        out w' = OutKillReap :: OutSpeaking false :: out w.
Proof.
  intros Hp Hpa Hc Ht Hr Hl.
  cbn [replicate run].
  erewrite step_task; [|by rewrite Ht|].
  2:{ cbn [taskStep]. rewrite bool_decide_false by done. reflexivity. }
  cbn [mbind option_bind]. rewrite Ht. cbn [insert list_insert].
  erewrite step_task; [|reflexivity|].
  2:{ cbn [taskStep]. psimpl. rewrite parked_locked by done.
      rewrite Hpa. reflexivity. }
  cbn [mbind option_bind]. psimpl. cbn [insert list_insert].
  erewrite step_task; [|reflexivity|by apply taskStep_read_end].
  cbn [mbind option_bind]. unfold streamEnd. psimpl. cbn [insert list_insert].
  eexists. split; [reflexivity|]. psimpl. done.
Qed.

(** X15: A pipeline that nobody cancels or pauses sends one Opus packet for each
    full frame of 3840 bytes ffmpeg writes, in the order written; a trailing
    partial frame is dropped; then [streamTrack] returns nil with the
    subprocess reaped, and the player record is as it was. *)
Theorem pipeline_sends_every_full_frame (env : Env) (c : Ctx)
    (frames packets : list (list Z)) (rest : list Z) (w : World) :
  parked w = None → paused (pl w) = false → c ∉ canceled w →
  tasks w = [TaskCheck c] → readErr env = None → pick env = CaseSend →
  Forall2 (fun fr pk => Z.of_nat (length fr) = byteBufLen ∧
                        encode env (decodePCM fr) = inr pk) frames packets →
  (length rest < Z.to_nat byteBufLen)%nat →
  stdout w = concat frames ++ rest →
  ∃ w', run (replicate (4 * length frames + 3) (EvTask 0 env)) w = Some w' ∧
        tasks w' = [TaskClear None] ∧ stdout w' = [] ∧ pl w' = pl w ∧
        out w' = OutKillReap :: OutSpeaking false
                 :: rev (map OutFrame packets) ++ out w.
Proof.
  intros Hp Hpa Hc Ht Hr Hpk HF Hl. revert w Hp Hpa Hc Ht.
  induction HF as [|fr pk frames packets [Hlen Henc] HF IH];
    intros w Hp Hpa Hc Ht Hs.
  - cbn [concat app] in Hs. rewrite <- Hs in Hl.
    destruct (last_turn env c w) as (w' & Hrun & H1 & H2 & H3 & H4);
      try done.
    exists w'. done.
  - cbn [concat] in Hs. rewrite <- app_assoc in Hs.
    destruct (frame_turn env c fr pk (concat frames ++ rest) w)
      as (w1 & Hrun1 & P1 & P2 & P3 & P4 & P5 & P6); try done.
    destruct (IH w1) as (w' & Hrun & H1 & H2 & H3 & H4);
      [done|congruence|congruence|done|done|].
    exists w'. split.
    + replace (4 * length (fr :: frames) + 3)%nat
        with (4 + (4 * length frames + 3))%nat by (simpl; lia).
      rewrite replicate_add, run_app, Hrun1. exact Hrun.
    + repeat split; [done|done|congruence|].
      rewrite H4, P6. cbn [map rev]. by rewrite <- app_assoc.
Qed.

Lemma pipeline_sends_every_full_frame_witness :
  ∃ w', run (replicate (4 * length [replicate 3840 0] + 3) (EvTask 0 envOk))
            wToneA = Some w' ∧
        tasks w' = [TaskClear None] ∧ stdout w' = [] ∧ pl w' = pl wToneA ∧
        out w' = OutKillReap :: OutSpeaking false
                 :: rev (map OutFrame [[0]]) ++ out wToneA.
Proof.
  assert (H1 : parked wToneA = None) by (vm_compute; reflexivity).
  assert (H2 : paused (pl wToneA) = false) by (vm_compute; reflexivity).
  assert (H3 : 0%nat ∉ canceled wToneA).
  { assert (E : canceled wToneA = ∅) by (vm_compute; reflexivity).
    rewrite E. apply not_elem_of_empty. }
  assert (H4 : tasks wToneA = [TaskCheck 0%nat]) by (vm_compute; reflexivity).
  assert (H5 : Forall2 (fun fr pk => Z.of_nat (length fr) = byteBufLen ∧
                          encode envOk (decodePCM fr) = inr pk)
                       [replicate 3840 0] [[0]]).
  { constructor; [|constructor]. split; [vm_compute|]; reflexivity. }
  assert (H6 : (length [1; 2] < Z.to_nat byteBufLen)%nat) by (vm_compute; lia).
  assert (H7 : stdout wToneA = concat [replicate 3840 0] ++ [1; 2])
    by (vm_compute; reflexivity).
  exact (pipeline_sends_every_full_frame envOk 0%nat [replicate 3840 0] [[0]]
           [1; 2] wToneA H1 H2 H3 H4 eq_refl eq_refl H5 H6 H7).
Defined.

Lemma lor_bytes lo hi :
  0 <= lo < 256 → 0 <= hi → Z.lor lo (Z.shiftl hi 8) = lo + 256 * hi.
Proof.
  intros Hlo Hhi.
  assert (Hland : Z.land lo (Z.shiftl hi 8) = 0).
  { apply Z.bits_inj'. intros n Hn. rewrite Z.land_spec, Z.bits_0.
    destruct (Z.ltb_spec n 8).
    - rewrite (Z.shiftl_spec_low hi 8 n) by lia. apply andb_false_r.
    - destruct (Z.eq_dec lo 0) as [->|Hne];
        [by rewrite Z.bits_0|].
      rewrite (Z.bits_above_log2 lo n); [reflexivity|lia|].
      apply Z.lt_le_trans with 8; [|done].
      apply Z.log2_lt_pow2; [lia|]. change (2 ^ 8) with 256. lia. }
  rewrite <- Z.lxor_lor by done. rewrite <- Z.add_nocarry_lxor by done.
  rewrite Z.shiftl_mul_pow2 by lia. change (2 ^ 8) with 256. lia.
Qed.

Lemma leInt16_spec lo hi :
  0 <= lo < 256 → 0 <= hi < 256 →
  leInt16 lo hi = (if hi <? 128 then lo + 256 * hi else lo + 256 * hi - 65536).
Proof.
  intros Hlo Hhi. unfold leInt16. rewrite lor_bytes by lia.
  destruct (Z.ltb_spec (lo + 256 * hi) 32768), (Z.ltb_spec hi 128); lia.
Qed.

Lemma decodePCM_lookup bytes i lo hi :
  bytes !! (2 * i)%nat = Some lo → bytes !! (2 * i + 1)%nat = Some hi →
  decodePCM bytes !! i = Some (leInt16 lo hi).
Proof.
  revert bytes. induction i as [|i IH]; intros bytes Hlo Hhi.
  - destruct bytes as [|a [|b rest]]; simplify_eq/=. reflexivity.
  - destruct bytes as [|a [|b rest]]; [done|done|].
    cbn [decodePCM]. cbn [lookup list_lookup]. apply IH.
    + replace (2 * S i)%nat with (S (S (2 * i))) in Hlo by lia. exact Hlo.
    + replace (2 * S i + 1)%nat with (S (S (2 * i + 1))) in Hhi by lia.
      exact Hhi.
Qed.

Lemma decodePCM_length bytes :
  length (decodePCM bytes) = (length bytes / 2)%nat.
Proof.
  cut (∀ n bytes, (length bytes < n)%nat →
         length (decodePCM bytes) = (length bytes / 2)%nat).
  { intros H. apply (H (S (length bytes))). lia. }
  clear bytes. induction n as [|n IH]; intros bytes Hn; [lia|].
  destruct bytes as [|a [|b rest]]; [reflexivity|reflexivity|].
  cbn [decodePCM length] in *. rewrite IH by lia.
  change (S (S (length rest))) with (1 * 2 + length rest)%nat.
  rewrite Nat.add_comm, Nat.div_add by lia. lia.
Qed.

(** X16: The PCM decoding of [streamTrack]: a frame of 3840 bytes gives the 1920
    samples of [pcmBuf]; sample [i] is read from bytes [2i] and [2i+1] as a
    little-endian two's complement 16-bit integer, so it lies in the int16
    range and determines its two bytes. *)
Theorem decodePCM_frame (bytes : list Z) :
  Z.of_nat (length bytes) = byteBufLen →
  Forall (fun b => 0 <= b < 256) bytes →
  Z.of_nat (length (decodePCM bytes)) = pcmBufLen ∧
  ∀ i, Z.of_nat i < pcmBufLen →
    ∃ lo hi s, bytes !! (2 * i)%nat = Some lo ∧
               bytes !! (2 * i + 1)%nat = Some hi ∧
               decodePCM bytes !! i = Some s ∧
               -32768 <= s < 32768 ∧
               s mod 256 = lo ∧ (s / 256) mod 256 = hi.
Proof.
  intros Hlen Hb. change byteBufLen with 3840 in Hlen. split.
  - rewrite decodePCM_length.
    replace (length bytes) with 3840%nat by lia. reflexivity.
  - intros i Hi. change pcmBufLen with 1920 in Hi.
    destruct (lookup_lt_is_Some_2 bytes (2 * i)) as [lo Hlo]; [lia|].
    destruct (lookup_lt_is_Some_2 bytes (2 * i + 1)) as [hi Hhi]; [lia|].
    exists lo, hi, (leInt16 lo hi).
    pose proof (proj1 (Forall_lookup _ _) Hb _ _ Hlo) as Rlo.
    pose proof (proj1 (Forall_lookup _ _) Hb _ _ Hhi) as Rhi.
    cbv beta in Rlo, Rhi.
    split; [done|]. split; [done|].
    split; [by apply decodePCM_lookup|].
    rewrite leInt16_spec by done.
    destruct (Z.ltb_spec hi 128).
    + split; [lia|]. rewrite (Z.mul_comm 256 hi). split.
      * rewrite Z.mod_add by lia. apply Z.mod_small; lia.
      * rewrite Z.div_add by lia.
        rewrite (Z.div_small lo 256) by lia. rewrite Z.add_0_l.
        apply Z.mod_small; lia.
    + split; [lia|]. split.
      * replace (lo + 256 * hi - 65536) with (lo + (hi - 256) * 256) by lia.
        rewrite Z.mod_add by lia. apply Z.mod_small; lia.
      * replace (lo + 256 * hi - 65536) with (lo + (hi - 256) * 256) by lia.
        rewrite Z.div_add by lia.
        rewrite (Z.div_small lo 256) by lia. rewrite Z.add_0_l.
        replace (hi - 256) with (hi + (-1) * 256) by lia.
        rewrite Z.mod_add by lia. apply Z.mod_small; lia.
Qed.

Lemma decodePCM_frame_witness :
  Z.of_nat (length (decodePCM (replicate 3840 255))) = pcmBufLen.
Proof.
  assert (H1 : Z.of_nat (length (replicate 3840 255)) = byteBufLen)
    by (vm_compute; reflexivity).
  assert (H2 : Forall (fun b => 0 <= b < 256) (replicate 3840 255))
    by (apply Forall_replicate; lia).
  exact (proj1 (decodePCM_frame (replicate 3840 255) H1 H2)).
Defined.

(* ===================================================================== *)
(** ** Pausing *)
(* ===================================================================== *)

Lemma waiting_step c w i env w' :
  waiting c w → step (EvTask i env) w = Some w' →
  waiting c w' ∧ pl w' = pl w ∧ out w' = out w ∧ stdout w' = stdout w.
Proof.
  intros (Hp & Hpa & Hch & Hc & t & Ht & Hpoll) Hstep.
  apply step_task_inv in Hstep as (t0 & t' & w1 & Hi & Hts & ->).
  rewrite Ht in Hi. destruct i; [|done]. injection Hi as <-.
  pose proof (taskStep_tasks _ _ _ _ _ Hts) as [Hts1 _]. rewrite Ht in Hts1.
  unfold waiting.
  destruct t; try done; cbn [polls] in Hpoll;
    apply bool_decide_eq_true in Hpoll; subst c0;
    cbn [taskStep] in Hts; unfold finish in Hts.
  - rewrite bool_decide_false in Hts by done. simplify_eq. psimpl.
    rewrite Ht. cbn [insert list_insert].
    repeat split; try done. eexists; split; [done|].
    cbn [polls]. by apply bool_decide_true.
  - rewrite parked_locked, Hpa in Hts by done. simplify_eq. psimpl.
    rewrite Ht. cbn [insert list_insert].
    repeat split; try done. eexists; split; [done|].
    cbn [polls]. by apply bool_decide_true.
  - rewrite Hch in Hts. rewrite bool_decide_false in Hts by done.
    destruct (pick env); try done. simplify_eq. psimpl.
    rewrite Ht. cbn [insert list_insert].
    repeat split; try done. eexists; split; [done|].
    cbn [polls]. by apply bool_decide_true.
Qed.

(** X17: While the player is paused and the pause channel is empty, the
    pipeline reads nothing from ffmpeg and sends nothing, however many
    steps its goroutine takes: it goes round the check, the flags and the
    100 ms timeout of the [select]. *)
Theorem paused_pipeline_is_silent (c : Ctx) (w w' : World)
    (steps : list (nat * Env)) :
  parked w = None → paused (pl w) = true → pauseChan (pl w) = Some [] →
  c ∉ canceled w → tasks w = [TaskCheck c] →
  run (map (fun s => EvTask s.1 s.2) steps) w = Some w' →
  out w' = out w ∧ stdout w' = stdout w ∧ pl w' = pl w ∧
  ∃ t, tasks w' = [t] ∧ polls c t = true.
Proof.
  intros Hp Hpa Hch Hc Ht.
  assert (Hw : waiting c w).
  { repeat split; try done. exists (TaskCheck c). split; [done|].
    by apply bool_decide_true. }
  clear Hp Hpa Hch Hc Ht. revert w Hw.
  induction steps as [|[i env] steps IH]; intros w Hw Hrun.
  - injection Hrun as <-. destruct Hw as (_ & _ & _ & _ & Ht).
    repeat split; exact Ht.
  - cbn [map run fst snd] in Hrun.
    destruct (step (EvTask i env) w) as [w1|] eqn:Hs; [|done].
    cbn [mbind option_bind] in Hrun.
    destruct (waiting_step c w i env w1 Hw Hs) as (Hw1 & E1 & E2 & E3).
    destruct (IH w1 Hw1 Hrun) as (F1 & F2 & F3 & F4).
    repeat split; [congruence|congruence|congruence|done].
Qed.

Lemma paused_pipeline_is_silent_witness :
  out (after (evsPausedA ++ [EvTask 0 envOk; EvTask 0 envOk;
                             EvTask 0 envTimeout])) = out wPausedA.
Proof.
  assert (H1 : parked wPausedA = None) by (vm_compute; reflexivity).
  assert (H2 : paused (pl wPausedA) = true) by (vm_compute; reflexivity).
  assert (H3 : pauseChan (pl wPausedA) = Some []) by (vm_compute; reflexivity).
  assert (H4 : 0%nat ∉ canceled wPausedA).
  { assert (E : canceled wPausedA = ∅) by (vm_compute; reflexivity).
    rewrite E. apply not_elem_of_empty. }
  assert (H5 : tasks wPausedA = [TaskCheck 0%nat]) by (vm_compute; reflexivity).
  assert (H6 : run (map (fun s : nat * Env => EvTask s.1 s.2)
                        [(0%nat, envOk); (0%nat, envOk); (0%nat, envTimeout)])
                   wPausedA
               = Some (after (evsPausedA ++ [EvTask 0 envOk; EvTask 0 envOk;
                                             EvTask 0 envTimeout])))
    by (vm_compute; reflexivity).
  exact (proj1 (paused_pipeline_is_silent 0%nat wPausedA _
                  [(0%nat, envOk); (0%nat, envOk); (0%nat, envTimeout)]
                  H1 H2 H3 H4 H5 H6)).
Defined.

Lemma step_Pause w : parked w = None → step EvPause w = Some (Pause w).2.
Proof. intros H. unfold step. by rewrite parked_locked. Qed.

(** X18: The value [true] that [Pause] puts on the pause channel lets one more
    frame through: the goroutine reads [paused], takes the value from the
    channel in the [select], and since the value is not a resume it falls
    out of the [select] into the read.  One packet is sent after the pause;
    the pipeline then waits as above. *)
Theorem Pause_lets_one_frame_through (c : Ctx) (w : World)
    (eRecv eSend : Env) (fr pk rest : list Z) :
  parked w = None → pausable w → paused (pl w) = false →
  pauseChan (pl w) = Some [] → c ∉ canceled w → tasks w = [TaskCheck c] →
  stdout w = fr ++ rest → Z.of_nat (length fr) = byteBufLen →
  pick eRecv = CaseRecv → readErr eSend = None →
  encode eSend (decodePCM fr) = inr pk → pick eSend = CaseSend →
  (Pause w).1 = Some true ∧
  ∃ w', run [EvPause; EvTask 0 eSend; EvTask 0 eSend; EvTask 0 eRecv;
             EvTask 0 eSend; EvTask 0 eSend] w = Some w' ∧
        out w' = OutFrame pk :: out w ∧ stdout w' = rest ∧
        paused (pl w') = true ∧ pauseChan (pl w') = Some [] ∧
        tasks w' = [TaskCheck c] ∧ parked w' = None ∧ c ∉ canceled w'.
Proof.
  intros Hp Hpb Hpa Hch Hc Ht Hs Hl HR Hr He HS.
  rewrite (Pause_room w) by done. rewrite Hpa. split; [reflexivity|].
  cbn [run]. rewrite step_Pause by done.
  rewrite (Pause_room w) by done.
  cbn [mbind option_bind snd].
  erewrite step_task; [|by (psimpl; rewrite Ht)|].
  2:{ cbn [taskStep]. psimpl. rewrite bool_decide_false by done.
      reflexivity. }
  cbn [mbind option_bind]. psimpl. rewrite Ht. cbn [insert list_insert].
  erewrite step_task; [|reflexivity|].
  2:{ cbn [taskStep]. psimpl. rewrite parked_locked, Hpa by done.
      reflexivity. }
  cbn [mbind option_bind]. psimpl. cbn [insert list_insert].
  erewrite step_task; [|reflexivity|].
  2:{ cbn [taskStep]. psimpl. rewrite HR, Hp, Hpa. psimpl. reflexivity. }
  cbn [mbind option_bind]. psimpl. cbn [insert list_insert].
  erewrite step_task; [|reflexivity|].
  2:{ cbn [taskStep]. psimpl. rewrite Hr, Hs, ReadFull_app by done.
      rewrite He. reflexivity. }
  cbn [mbind option_bind]. psimpl. cbn [insert list_insert].
  erewrite step_task; [|reflexivity|].
  2:{ cbn [taskStep]. rewrite HS. reflexivity. }
  cbn [mbind option_bind]. psimpl. cbn [insert list_insert].
  eexists. split; [reflexivity|]. psimpl. rewrite Hpa. done.
Qed.

Lemma Pause_lets_one_frame_through_witness : (Pause wToneA).1 = Some true.
Proof.
  assert (H1 : parked wToneA = None) by (vm_compute; reflexivity).
  assert (H2 : pausable wToneA)
    by (split; vm_compute; [reflexivity|discriminate]).
  assert (H3 : paused (pl wToneA) = false) by (vm_compute; reflexivity).
  assert (H4 : pauseChan (pl wToneA) = Some []) by (vm_compute; reflexivity).
  assert (H5 : 0%nat ∉ canceled wToneA).
  { assert (E : canceled wToneA = ∅) by (vm_compute; reflexivity).
    rewrite E. apply not_elem_of_empty. }
  assert (H6 : tasks wToneA = [TaskCheck 0%nat]) by (vm_compute; reflexivity).
  assert (H7 : stdout wToneA = replicate 3840 0 ++ [1; 2])
    by (vm_compute; reflexivity).
  assert (H8 : Z.of_nat (length (replicate 3840 0)) = byteBufLen)
    by (vm_compute; reflexivity).
  exact (proj1 (Pause_lets_one_frame_through 0%nat wToneA envRecv envOk
                  (replicate 3840 0) [0] [1; 2]
                  H1 H2 H3 H4 H5 H6 H7 H8 eq_refl eq_refl eq_refl eq_refl)).
Defined.

(* ===================================================================== *)
(** ** The registry of players, the voice channel of a user, the replies *)
(* ===================================================================== *)

Lemma registryInv_op op k : registryInv k → registryInv (applyOp op k).
Proof.
  intros [Hlt Hinj]. destruct op as [g|g|g]; cbn [applyOp]; [|done|].
  - unfold getPlayer. destruct (players k !! g) as [p|] eqn:Hg; [done|].
    cbn [snd]. split; cbn [players allocated].
    + intros g' p' H. destruct (decide (g' = g)) as [->|Hne].
      * rewrite lookup_insert_eq in H. injection H as <-. lia.
      * rewrite lookup_insert_ne in H by done. apply Hlt in H. lia.
    + intros g1 g2 p' H1 H2.
      destruct (decide (g1 = g)) as [->|Hn1];
        destruct (decide (g2 = g)) as [->|Hn2]; [done| | |].
      * rewrite lookup_insert_eq in H1. injection H1 as <-.
        rewrite lookup_insert_ne in H2 by done. apply Hlt in H2. lia.
      * rewrite lookup_insert_eq in H2. injection H2 as <-.
        rewrite lookup_insert_ne in H1 by done. apply Hlt in H1. lia.
      * rewrite lookup_insert_ne in H1, H2 by done. by eapply Hinj.
  - unfold releasePlayer. split; cbn [players allocated].
    + intros g' p' H. apply lookup_delete_Some in H as [_ H]. by eapply Hlt.
    + intros g1 g2 p' H1 H2. apply lookup_delete_Some in H1 as [_ H1].
      apply lookup_delete_Some in H2 as [_ H2]. by eapply Hinj.
Qed.

Lemma registryInv_of ops : registryInv (registryOf ops).
Proof.
  unfold registryOf. induction ops as [|op ops IH] using rev_ind.
  - cbn [foldl]. unfold NewKvazar.
    split; intros *; cbn [players]; by rewrite lookup_empty.
  - rewrite foldl_app. cbn [foldl]. by apply registryInv_op.
Qed.

(** X19: The registry of players, whatever calls were made on it: [getPlayer]
    returns the player [findPlayer] then finds, and is idempotent; no two
    guilds ever hold the same player; and the player [getPlayer] makes after
    a [releasePlayer] is a new one, held by no guild: what the released
    player had queued is not carried over. *)
Theorem registry_laws (ops : list RegistryOp) (g : string) :
  let k := registryOf ops in
  findPlayer g (getPlayer g k).2 = Some (getPlayer g k).1 ∧
  getPlayer g (getPlayer g k).2 = getPlayer g k ∧
  (∀ g', g' ≠ g → findPlayer g' (getPlayer g k).2 = findPlayer g' k) ∧
  (∀ g1 g2 p, findPlayer g1 k = Some p → findPlayer g2 k = Some p →
              g1 = g2) ∧
  findPlayer g (releasePlayer g k) = None ∧
  (∀ g', g' ≠ g → findPlayer g' (releasePlayer g k) = findPlayer g' k) ∧
  (∀ g', findPlayer g' k ≠ Some (getPlayer g (releasePlayer g k)).1).
Proof.
  cbn zeta. pose proof (registryInv_of ops) as [Hlt Hinj].
  set (k := registryOf ops) in *. unfold findPlayer.
  repeat split.
  - unfold getPlayer. destruct (players k !! g) as [p|] eqn:Hg; cbn; [done|].
    by rewrite lookup_insert_eq.
  - destruct (players k !! g) as [p|] eqn:Hg.
    + assert (E : getPlayer g k = (p, k)) by (unfold getPlayer; by rewrite Hg).
      by rewrite E.
    + assert (E : getPlayer g k
                  = (allocated k,
                     mkKvazar (<[g := allocated k]> (players k))
                              (S (allocated k))))
        by (unfold getPlayer; by rewrite Hg).
      rewrite E. cbn [snd]. unfold getPlayer at 1. cbn [players].
      by rewrite lookup_insert_eq.
  - intros g' Hne. unfold getPlayer.
    destruct (players k !! g) as [p|] eqn:Hg; cbn; [done|].
    by rewrite lookup_insert_ne.
  - exact Hinj.
  - unfold releasePlayer. cbn. by rewrite lookup_delete_eq.
  - intros g' Hne. unfold releasePlayer. cbn. by rewrite lookup_delete_ne.
  - intros g' H. unfold getPlayer, releasePlayer in H. cbn in H.
    rewrite lookup_delete_eq in H. cbn in H. apply Hlt in H. lia.
Qed.

Lemma registry_laws_witness :
  findPlayer "g2"
    (getPlayer "g1" (registryOf [OpGet "g1"; OpGet "g2"; OpRelease "g1"])).2
  = findPlayer "g2" (registryOf [OpGet "g1"; OpGet "g2"; OpRelease "g1"]).
Proof.
  assert (H : "g2"%string ≠ "g1"%string) by discriminate.
  exact (proj1 (proj2 (proj2
           (registry_laws [OpGet "g1"; OpGet "g2"; OpRelease "g1"] "g1")))
           "g2"%string H).
Defined.

Lemma findVoiceState_Some states userID ch :
  findVoiceState states userID = Some ch ↔
  ∃ pre vs post, states = pre ++ vs :: post ∧
                 Forall (fun v => UserID v ≠ userID) pre ∧
                 UserID vs = userID ∧ ChannelID vs = ch.
Proof.
  induction states as [|v states IH]; cbn [findVoiceState].
  - split; [done|]. intros (pre & vs & post & H & _). by destruct pre.
  - case_bool_decide as Hu.
    + split.
      * intros [= <-]. exists [], v, states. by repeat split.
      * intros (pre & vs & post & H & Hpre & Hv & Hc).
        destruct pre as [|v' pre]; simplify_eq/=; [done|].
        apply Forall_cons in Hpre as [Hv' _]. done.
    + rewrite IH. split.
      * intros (pre & vs & post & -> & Hpre & Hv & Hc).
        exists (v :: pre), vs, post. repeat split; try done.
        by apply Forall_cons.
      * intros (pre & vs & post & H & Hpre & Hv & Hc).
        destruct pre as [|v' pre]; simplify_eq/=.
        apply Forall_cons in Hpre as [_ Hpre].
        by exists pre, vs, post.
Qed.

(** X20: [locateVoiceChannel] returns a channel exactly when both identifiers
    are non-empty, the guild is known (to the state cache, or else to the
    API, which is asked only when the cache fails), and the guild has a
    voice state of the user; the channel is that of the first such state.
    It fails with "missing guild or user identifier" before any lookup when
    an identifier is empty, with the API's error wrapped as "guild fetch",
    or with "voice channel not found". *)
Theorem locateVoiceChannel_spec
    (stateGuild apiGuild : GoError + list VoiceState)
    (guildID userID : string) :
  let guild := match stateGuild with inr g => inr g | inl _ => apiGuild end in
  (∀ ch, locateVoiceChannel stateGuild apiGuild guildID userID = inr ch ↔
         guildID ≠ "" ∧ userID ≠ "" ∧
         ∃ pre vs post, guild = inr (pre ++ vs :: post) ∧
                        Forall (fun v => UserID v ≠ userID) pre ∧
                        UserID vs = userID ∧ ChannelID vs = ch) ∧
  (guildID = "" ∨ userID = "" →
     locateVoiceChannel stateGuild apiGuild guildID userID
     = inl (ErrOther "missing guild or user identifier")) ∧
  (guildID ≠ "" → userID ≠ "" → ∀ e, guild = inl e →
     locateVoiceChannel stateGuild apiGuild guildID userID
     = inl (ErrWrap "guild fetch" e)) ∧
  (guildID ≠ "" → userID ≠ "" → ∀ states, guild = inr states →
     Forall (fun v => UserID v ≠ userID) states →
     locateVoiceChannel stateGuild apiGuild guildID userID
     = inl (ErrOther "voice channel not found")).
Proof.
  cbn zeta. unfold locateVoiceChannel.
  set (guild := match stateGuild with inr g => inr g | inl _ => apiGuild end).
  split; [|split; [|split]].
  - intros ch. split.
    + intros H.
      destruct (decide (guildID = "")) as [->|Hg]; [done|].
      destruct (decide (userID = "")) as [->|Hu];
        [by rewrite orb_true_r in H|].
      rewrite !bool_decide_false in H by done. cbn [orb] in H.
      split; [done|]. split; [done|].
      destruct guild as [e|states]; [done|].
      destruct (findVoiceState states userID) as [ch'|] eqn:Hf; [|done].
      injection H as <-.
      apply findVoiceState_Some in Hf as (pre & vs & post & -> & ? & ? & ?).
      by exists pre, vs, post.
    + intros (Hg & Hu & pre & vs & post & Hgu & Hpre & Hv & Hc).
      rewrite !bool_decide_false by done. cbn [orb]. rewrite Hgu.
      assert (Hf : findVoiceState (pre ++ vs :: post) userID = Some ch).
      { apply findVoiceState_Some. by exists pre, vs, post. }
      by rewrite Hf.
  - intros [-> | ->]; [done|]. by rewrite orb_true_r.
  - intros Hg Hu e ->. by rewrite !bool_decide_false.
  - intros Hg Hu states -> Hall. rewrite !bool_decide_false by done.
    cbn [orb].
    destruct (findVoiceState states userID) as [ch|] eqn:Hf; [|done].
    apply findVoiceState_Some in Hf as (pre & vs & post & -> & _ & Hv & _).
    apply Forall_app in Hall as [_ Hall].
    apply Forall_cons in Hall as [Hall _]. done.
Qed.

Lemma locateVoiceChannel_spec_witness :
  locateVoiceChannel (inl (ErrOther "state cache miss"))
    (inr [mkVoiceState "u1" "c1"; mkVoiceState "u2" "c2";
          mkVoiceState "u2" "c3"]) "g" "u2"
  = inr "c2"%string.
Proof.
  assert (Hg : "g"%string ≠ ""%string) by discriminate.
  assert (Hu : "u2"%string ≠ ""%string) by discriminate.
  assert (Hpre : Forall (fun v => UserID v ≠ "u2"%string)
                        [mkVoiceState "u1" "c1"])
    by (constructor; [discriminate|constructor]).
  exact (proj2 (proj1 (locateVoiceChannel_spec
                         (inl (ErrOther "state cache miss"))
                         (inr [mkVoiceState "u1" "c1"; mkVoiceState "u2" "c2";
                               mkVoiceState "u2" "c3"]) "g" "u2") "c2"%string)
           (conj Hg (conj Hu
              (ex_intro _ [mkVoiceState "u1" "c1"]
                 (ex_intro _ (mkVoiceState "u2" "c2")
                    (ex_intro _ [mkVoiceState "u2" "c3"]
                       (conj eq_refl (conj Hpre (conj eq_refl eq_refl))))))))).
Defined.

(** X21: The reply [fulfilPlay] builds from the position [Enqueue] returns: the
    title says "Up next" exactly when no other track was waiting in the
    queue (whether or not one is playing), "Queued" otherwise; the fields
    are the length and the source, then the requester when there is one,
    and last the position, the number of tracks now waiting. *)
Theorem queued_embed_after_Enqueue (track : Track) (w : World) :
  let e := buildQueuedEmbed track (Enqueue track w).1 in
  (queue (pl w) = [] →
     EmbedTitle e = ("Up next " +:+ bullet +:+ " " +:+ Title track)%string) ∧
  (queue (pl w) ≠ [] →
     EmbedTitle e = ("Queued " +:+ bullet +:+ " " +:+ Title track)%string) ∧
  EmbedFields e
  = [mkField "Length" (HumanDuration track) true;
     mkField "Source" (TrackSource track) true]
    ++ (if bool_decide (RequestedBy track = ""%string) then []
        else [mkField "Requested by" (RequestedBy track) true])
    ++ [mkField "Position"
                (String "#"%char
                   (fmtD (Z.of_nat (length (queue (pl w))) + 1))) true].
Proof.
  cbn zeta.
  assert (HP : (Enqueue track w).1 = Z.of_nat (length (queue (pl w))) + 1).
  { unfold Enqueue. psimpl. rewrite length_app. simpl. lia. }
  rewrite HP. unfold buildQueuedEmbed. cbn [EmbedTitle EmbedFields].
  split; [|split].
  - intros ->. reflexivity.
  - intros Hq. destruct (queue (pl w)) as [|t q]; [done|].
    replace (Z.of_nat (length (t :: q)) + 1 =? 1) with false; [done|].
    symmetry. apply Z.eqb_neq. cbn [length]. lia.
  - case_bool_decide as H1; case_bool_decide as H2; try done.
Qed.

Lemma queued_embed_after_Enqueue_witness :
  EmbedTitle (buildQueuedEmbed trackB (Enqueue trackB wStreamingA).1)
  = ("Up next " +:+ bullet +:+ " " +:+ Title trackB)%string.
Proof.
  assert (H : queue (pl wStreamingA) = []) by (vm_compute; reflexivity).
  exact (proj1 (queued_embed_after_Enqueue trackB wStreamingA) H).
Defined.
